(** * Buildbot: build-request distribution and the Triggerable scheduler

    A shallow embedding of
    - [master/buildbot/process/buildrequestdistributor.py]
      ([BuildChooserBase], [BasicBuildChooser], [BuildRequestDistributor]) and
    - [master/buildbot/schedulers/triggerable.py] ([Triggerable]).

    Python objects become records, attribute mutation becomes explicit state
    passing, and every call to a collaborator that lives outside these two
    files (the data store, the builder, the configured policies, the message
    queue) is a field of a record of collaborators acting on an abstract
    environment [Env], so that the theorems hold for every behaviour of these
    collaborators.  Exceptions are values of [result]; the state reached when
    an exception is raised is kept, as in Python. *)

From Stdlib Require Import ZArith.
From stdpp Require Import gmap strings list sorting.

Local Open Scope Z_scope.

(* ===================================================================== *)
(** * Part I: the embedding *)
(* ===================================================================== *)

(** ** Results, exceptions and the state monad of the embedding *)

Module Effects.

(** Outcome of running a piece of the program: a value, a Python exception
    (with its message), or [OutOfFuel] when a loop of the model was given
    too little fuel (shown below never to happen for the fuel the entry
    points supply). *)
Inductive result (A : Type) : Type :=
| Ok (a : A)
| Raise (e : string)
| OutOfFuel.
Global Arguments Ok {A} a.
Global Arguments Raise {A} e.
Global Arguments OutOfFuel {A}.

(** Stateful computation: the state survives an exception. *)
Definition M (S A : Type) : Type := S → result A * S.

Definition ret {S A} (a : A) : M S A := λ s, (Ok a, s).

Definition bind {S A B} (m : M S A) (k : A → M S B) : M S B :=
  λ s, match m s with
       | (Ok a, s') => k a s'
       | (Raise e, s') => (Raise e, s')
       | (OutOfFuel, s') => (OutOfFuel, s')
       end.

Definition get {S} : M S S := λ s, (Ok s, s).
Definition gets {S A} (f : S → A) : M S A := λ s, (Ok (f s), s).
Definition modify {S} (f : S → S) : M S unit := λ s, (Ok tt, f s).
Definition raise {S A} (e : string) : M S A := λ s, (Raise e, s).
Definition out_of_fuel {S A} : M S A := λ s, (OutOfFuel, s).

(** [try: m except Exception: h] *)
Definition try_except {S A} (m : M S A) (h : string → M S A) : M S A :=
  λ s, match m s with
       | (Raise e, s') => h e s'
       | r => r
       end.

Definition is_raise {A} (r : result A) : bool :=
  match r with Raise _ => true | _ => false end.

Definition is_OutOfFuel {A} (r : result A) : bool :=
  match r with OutOfFuel => true | _ => false end.

End Effects.
Export Effects.

Notation "'let*' x ':=' m 'in' k" := (bind m (λ x, k))
  (at level 10, x name, m at level 100, k at level 200,
   format "'[v' 'let*'  x  :=  m  'in' '/' k ']'").
Notation "'let*' ( x , y ) ':=' m 'in' k" := (bind m (λ '(x, y), k))
  (at level 10, x name, y name, m at level 100, k at level 200,
   format "'[v' 'let*'  ( x ,  y )  :=  m  'in' '/' k ']'").
Notation "'do*' m 'in' k" := (bind m (λ _, k))
  (at level 10, m at level 100, k at level 200,
   format "'[v' 'do*'  m  'in' '/' k ']'").

(** ** Python list helpers *)

Module PyList.
Section Remove.
Context {A : Type} `{EqDecision A}.

(** [l.remove(x)]: delete the first element equal to [x].  (Python raises
    [ValueError] when there is none; every call site checks membership
    first, so the model returns the list unchanged in that case.) *)
Fixpoint remove_first (x : A) (l : list A) : list A :=
  match l with
  | [] => []
  | y :: l' => if decide (x = y) then l' else y :: remove_first x l'
  end.

(** [x in l] *)
Definition mem (x : A) (l : list A) : bool := bool_decide (x ∈ l).

End Remove.

Section Sort.
Context {A : Type} (lt : A → A → bool).

(** Python's [list.sort] and [sorted] are stable and use only [<] on the
    keys: an element is placed before the first element of the sorted
    suffix that is not strictly smaller than it. *)
Fixpoint insert_sorted (x : A) (l : list A) : list A :=
  match l with
  | [] => [x]
  | y :: l' => if lt y x then y :: insert_sorted x l' else x :: y :: l'
  end.

Fixpoint sort (l : list A) : list A :=
  match l with
  | [] => []
  | x :: l' => insert_sorted x (sort l')
  end.

(** [le_of a b] is "not [b < a]": the order a sorted list satisfies. *)
Definition le_of (a b : A) : Prop := lt b a = false.

End Sort.
End PyList.

(** ** Data shared by the chooser and the distributor *)

Module Data.

(** A worker handle: an opaque identity. *)
Definition Worker : Type := string.

(** A build-request dictionary of the data API ([brdict]).  The keys that
    [_getBuildRequestForBrdict] copies only when present are options. *)
Record Brdict : Type := mkBrdict {
  buildrequestid : Z;
  buildsetid : Z;
  builderid : Z;
  submitted_at : Z;
  priority : Z;
  waited_for : bool;
  complete_at : option Z;
  complete : option bool;
  results : option Z;
  claimed_at : option Z;
  claimed_by_masterid : option Z
}.

Global Instance Brdict_eq_dec : EqDecision Brdict.
Proof. solve_decision. Defined.

(** [BuildRequestModel], as built by [_getBuildRequestForBrdict]; an
    optional field left at [None] keeps the model's default. *)
Record BuildRequestModel : Type := mkModel {
  m_buildrequestid : Z;
  m_buildsetid : Z;
  m_builderid : Z;
  m_buildername : string;
  m_submitted_at : Z;
  m_priority : Z;
  m_waited_for : bool;
  m_complete_at : option Z;
  m_complete : option bool;
  m_results : option Z;
  m_claimed_at : option Z;
  m_claimed_by_masterid : option Z
}.

(** A resolved [BuildRequest] object, as far as this code reads it:
    [br.id], [br.bsid], [br.waited_for]. *)
Record BuildRequest : Type := mkBreq {
  id : Z;
  br_bsid : Z;
  br_waited_for : bool;
  br_priority : Z;
  br_buildername : string
}.

Global Instance BuildRequest_eq_dec : EqDecision BuildRequest.
Proof. solve_decision. Defined.

(** What a collaborator answers to a call. *)
Inductive answer (A : Type) : Type :=
| Returns (a : A)
| Raises (e : string).
Global Arguments Returns {A} a.
Global Arguments Raises {A} e.

(** Calls made to collaborators; a trace lists them in the order they were
    made. *)
Definition answered {A} (a : answer A) : option A :=
  match a with Returns x => Some x | Raises _ => None end.

Inductive Event : Type :=
| EvFetch                                         (* data.get(builders/<id>/buildrequests, claimed == False) *)
| EvGetBuilder (builderid : Z)                    (* data.get(builders/<id>) *)
| EvFromBrdict (brid : Z)                         (* BuildRequest.fromBrdict *)
| EvNextBuild (breqs : list (option BuildRequest)) (* config.nextBuild *)
| EvNextWorker (pool : list Worker) (brid : Z)    (* the next-worker policy *)
| EvCanStartBuild (w : Worker) (brid : Z) (canStart : option bool)
                                                  (* bldr.canStartBuild and its answer *)
| EvQueryBuildsets (bsids : list Z)               (* data.get(buildsets, parented) *)
| EvClaim (brids : list Z)                        (* data.updates.claimBuildRequests *)
| EvUnclaim (brids : list Z)                      (* data.updates.unclaimBuildRequests *)
| EvMaybeStartBuild (w : Worker) (brids : list Z) (* bldr.maybeStartBuild *)
| EvSignal (name : option string).                (* botmaster.maybeStartBuildsForBuilder *)

Global Instance Event_eq_dec : EqDecision Event.
Proof. solve_decision. Defined.

Definition is_EvNextWorker (e : Event) : bool :=
  match e with EvNextWorker _ _ => true | _ => false end.

Definition is_EvFetch (e : Event) : bool :=
  match e with EvFetch => true | _ => false end.

(** The collaborators of one builder's dispatch: the data store, the
    builder and the configured policies.  Each acts on the environment
    [Env], which stands for everything outside the two modelled classes
    (database contents, policy state, the random generator). *)
Record Collab (Env : Type) : Type := mkCollab {
  data_get_buildrequests : Env → answer (list Brdict) * Env;
  data_get_builder : Z → Env → answer (option string) * Env;
  fromBrdict : BuildRequestModel → Env → answer (option BuildRequest) * Env;
  config_nextBuild :
    option (list (option BuildRequest) → Env → answer (option BuildRequest) * Env);
  nextWorker : list Worker → BuildRequest → Env → answer (option Worker) * Env;
  getAvailableWorkers : Env → list Worker;
  bldr_canStartBuild : Worker → BuildRequest → Env → answer bool * Env;
  bldr_name : string;
  bldr_maybeStartBuild : Worker → list BuildRequest → Env → answer bool * Env;
  claimBuildRequests : list Z → Env → answer bool * Env;
  unclaimBuildRequests : list Z → Env → answer unit * Env;
  data_get_buildsets : list Z → Env → answer (list Z) * Env
}.
Global Arguments data_get_buildrequests {Env} _ _.
Global Arguments data_get_builder {Env} _ _ _.
Global Arguments fromBrdict {Env} _ _ _.
Global Arguments config_nextBuild {Env} _.
Global Arguments nextWorker {Env} _ _ _ _.
Global Arguments getAvailableWorkers {Env} _ _.
Global Arguments bldr_canStartBuild {Env} _ _ _ _.
Global Arguments bldr_name {Env} _.
Global Arguments bldr_maybeStartBuild {Env} _ _ _ _.
Global Arguments claimBuildRequests {Env} _ _ _.
Global Arguments unclaimBuildRequests {Env} _ _ _.
Global Arguments data_get_buildsets {Env} _ _ _.

(** The outside world as the program sees it: the environment and the
    trace of the calls made so far. *)
Record World (Env : Type) : Type := mkWorld {
  env : Env;
  trace : list Event
}.
Global Arguments mkWorld {Env} _ _.
Global Arguments env {Env} _.
Global Arguments trace {Env} _.

(** Control of a [while True] loop body: [break] with a value, or go round
    again. *)
Inductive loop_ctl (A : Type) : Type :=
| Break (a : A)
| Continue.
Global Arguments Break {A} a.
Global Arguments Continue {A}.

End Data.
Export Data.

(** ** [BuildChooserBase] and [BasicBuildChooser] *)

Module Chooser.
Section Chooser.
Context {Env : Type}.
Variable K : Collab Env.

(** The attributes of a [BasicBuildChooser], with the world it runs in. *)
Record BC : Type := mkBC {
  unclaimedBrdicts : option (list Brdict);
  breqCache : gmap Z BuildRequest;
  workerpool : list Worker;
  preferredWorkers : list Worker;
  world : World Env
}.

Definition set_unclaimedBrdicts (v : option (list Brdict)) (c : BC) : BC :=
  mkBC v (breqCache c) (workerpool c) (preferredWorkers c) (world c).
Definition set_breqCache (v : gmap Z BuildRequest) (c : BC) : BC :=
  mkBC (unclaimedBrdicts c) v (workerpool c) (preferredWorkers c) (world c).
Definition set_workerpool (v : list Worker) (c : BC) : BC :=
  mkBC (unclaimedBrdicts c) (breqCache c) v (preferredWorkers c) (world c).
Definition set_preferredWorkers (v : list Worker) (c : BC) : BC :=
  mkBC (unclaimedBrdicts c) (breqCache c) (workerpool c) v (world c).
Definition set_world (v : World Env) (c : BC) : BC :=
  mkBC (unclaimedBrdicts c) (breqCache c) (workerpool c) (preferredWorkers c) v.

(** A call to a collaborator: the environment moves on, the call is
    recorded, and an exception of the collaborator is raised here. *)
Definition call {A} (ev : answer A → Event) (f : Env → answer A * Env)
    : M BC A := λ c,
  let '(a, e') := f (env (world c)) in
  let c' := set_world (mkWorld e' (trace (world c) ++ [ev a])) c in
  match a with
  | Returns x => (Ok x, c')
  | Raises e => (Raise e, c')
  end.

(** [BasicBuildChooser.__init__]: the resolved [nextWorker] policy is the
    collaborator [nextWorker K] (the builder's, else the master's, else
    [random.choice]). *)
Definition init (w : World Env) : BC :=
  {| unclaimedBrdicts := None;
     breqCache := ∅;
     workerpool := getAvailableWorkers K (env w);
     preferredWorkers := [];
     world := w |}.

(** [_fetchUnclaimedBrdicts]; the builder id ([bldr.getBuilderId()]) is part
    of the query the store collaborator answers. *)
Definition _fetchUnclaimedBrdicts : M BC (list Brdict) :=
  let* c := get in
  match unclaimedBrdicts c with
  | None =>
      let* brdicts := call (λ _, EvFetch) (data_get_buildrequests K) in
      let brdicts :=
        PyList.sort (λ a b, buildrequestid a <? buildrequestid b) brdicts in
      do* modify (set_unclaimedBrdicts (Some brdicts)) in
      ret brdicts
  | Some brdicts => ret brdicts
  end.

Definition model_of (brdict : Brdict) (buildername : string) : BuildRequestModel :=
  {| m_buildrequestid := buildrequestid brdict;
     m_buildsetid := buildsetid brdict;
     m_builderid := builderid brdict;
     m_buildername := buildername;
     m_submitted_at := submitted_at brdict;
     m_priority := priority brdict;
     m_waited_for := waited_for brdict;
     m_complete_at := complete_at brdict;
     m_complete := complete brdict;
     m_results := results brdict;
     m_claimed_at := claimed_at brdict;
     m_claimed_by_masterid := claimed_by_masterid brdict |}.

(** [_getBuildRequestForBrdict] *)
Definition _getBuildRequestForBrdict (brdict : Brdict) : M BC (option BuildRequest) :=
  let* c := get in
  match breqCache c !! buildrequestid brdict with
  | Some breq => ret (Some breq)
  | None =>
      let* builder :=
        call (λ _, EvGetBuilder (builderid brdict))
             (data_get_builder K (builderid brdict)) in
      match builder with
      | None => ret None
      | Some name =>
          let model := model_of brdict name in
          let* breq :=
            call (λ _, EvFromBrdict (m_buildrequestid model)) (fromBrdict K model) in
          match breq with
          | Some b =>
              do* modify (λ c, set_breqCache
                                 (<[m_buildrequestid model := b]> (breqCache c)) c) in
              ret (Some b)
          | None => ret None
          end
      end
  end.

(** [_getBrdictForBuildRequest]; iterating over a cache that was never set
    up ([None]) is a [TypeError]. *)
Definition _getBrdictForBuildRequest (breq : option BuildRequest) : M BC (option Brdict) :=
  match breq with
  | None => ret None
  | Some b =>
      let* c := get in
      match unclaimedBrdicts c with
      | None => raise "TypeError"
      | Some l => ret (List.find (λ d, bool_decide (id b = buildrequestid d)) l)
      end
  end.

(** [_removeBuildRequest] *)
Definition _removeBuildRequest (breq : option BuildRequest) : M BC unit :=
  match breq with
  | None => ret tt
  | Some b =>
      let* brdict := _getBrdictForBuildRequest (Some b) in
      do* match brdict with
          | Some d =>
              modify (λ c, set_unclaimedBrdicts
                             (PyList.remove_first d <$> unclaimedBrdicts c) c)
          | None => ret tt
          end in
      modify (λ c, set_breqCache (delete (id b) (breqCache c)) c)
  end.

(** The list comprehension of [_getUnclaimedBuildRequests]: every
    [_getBuildRequestForBrdict] is started, each with its own outcome. *)
Fixpoint resolve_each (l : list Brdict) (c : BC)
    : list (result (option BuildRequest)) * BC :=
  match l with
  | [] => ([], c)
  | d :: l' =>
      let '(r, c1) := _getBuildRequestForBrdict d c in
      let '(rs, c2) := resolve_each l' c1 in
      (r :: rs, c2)
  end.

(** Twisted's [defer.gatherResults(ds, consumeErrors=True)]: the list of all
    results when every Deferred succeeds, and otherwise the failure of the
    first one that failed (as a [FirstError]); [consumeErrors] only keeps the
    individual failures from being reported as unhandled. *)
Fixpoint gatherResults {A} (rs : list (result A)) : result (list A) :=
  match rs with
  | [] => Ok []
  | Ok a :: rs' =>
      match gatherResults rs' with
      | Ok l => Ok (a :: l)
      | Raise e => Raise e
      | OutOfFuel => OutOfFuel
      end
  | Raise e :: _ => Raise e
  | OutOfFuel :: _ => OutOfFuel
  end.

(** [_getUnclaimedBuildRequests] *)
Definition _getUnclaimedBuildRequests : M BC (list (option BuildRequest)) := λ c,
  match unclaimedBrdicts c with
  | None => (Raise "TypeError", c)
  | Some l => let '(rs, c') := resolve_each l c in (gatherResults rs, c')
  end.

(** [sorted(brdicts, key=lambda b: b['priority'], reverse=True)] *)
Definition by_priority_desc (l : list Brdict) : list Brdict :=
  PyList.sort (λ a b, priority b <? priority a) l.

(** [_getNextUnclaimedBuildRequest] *)
Definition _getNextUnclaimedBuildRequest : M BC (option BuildRequest) :=
  let* brdicts := _fetchUnclaimedBrdicts in
  match brdicts with
  | [] => ret None
  | _ :: _ =>
      match config_nextBuild K with
      | Some nextBuild =>
          let* breqs := _getUnclaimedBuildRequests in
          try_except
            (let* nextBreq := call (λ _, EvNextBuild breqs) (nextBuild breqs) in
             if PyList.mem nextBreq breqs then ret nextBreq else ret None)
            (λ _, ret None)
      | None =>
          match by_priority_desc brdicts with
          | brdict :: _ => _getBuildRequestForBrdict brdict
          | [] => raise "IndexError"
          end
      end
  end.

(** [_popNextWorker]; the body of [while self.workerpool] leaves the loop on
    every path, so it runs at most once. *)
Definition _popNextWorker (buildrequest : BuildRequest) : M BC (option Worker) :=
  let* c := get in
  match preferredWorkers c with
  | worker :: rest =>
      do* modify (set_preferredWorkers rest) in
      ret (Some worker)
  | [] =>
      match workerpool c with
      | [] => ret None
      | _ :: _ =>
          let* worker :=
            try_except
              (call (λ _, EvNextWorker (workerpool c) (id buildrequest))
                    (nextWorker K (workerpool c) buildrequest))
              (λ _, ret None) in
          match worker with
          | None => ret None
          | Some w =>
              if PyList.mem w (workerpool c) then
                do* modify (λ c, set_workerpool
                                   (PyList.remove_first w (workerpool c)) c) in
                ret (Some w)
              else ret None
          end
      end
  end.

(** [_unpopWorkers]: [self.preferredWorkers[:0] = workers] *)
Definition _unpopWorkers (workers : list Worker) : M BC unit :=
  modify (λ c, set_preferredWorkers (workers ++ preferredWorkers c) c).

(** [canStartBuild] *)
Definition canStartBuild (worker : Worker) (breq : BuildRequest) : M BC bool :=
  call (λ a, EvCanStartBuild worker (id breq) (answered a))
       (bldr_canStartBuild K worker breq).

(** Step 3 of [popNextBuild], the loop [while worker]: returns the usable
    worker (or [None]) and the recycled ones. *)
Fixpoint find_usable_worker (fuel : nat) (breq : BuildRequest)
    (worker : option Worker) (recycledWorkers : list Worker)
    : M BC (option Worker * list Worker) :=
  match worker with
  | None => ret (None, recycledWorkers)
  | Some w =>
      match fuel with
      | O => out_of_fuel
      | S fuel' =>
          let* canStart := canStartBuild w breq in
          if canStart then ret (Some w, recycledWorkers)
          else
            let* worker' := _popNextWorker breq in
            find_usable_worker fuel' breq worker' (recycledWorkers ++ [w])
      end
  end.

(** Fuel that lets the loop [while worker] finish: every round takes one
    worker out of the preferred list or the pool. *)
Definition workers_left (c : BC) : nat :=
  (length (preferredWorkers c) + length (workerpool c))%nat.

(** One round of the loop [while True] of [popNextBuild]. *)
Definition popNextBuild_body
    : M BC (loop_ctl (option Worker * option BuildRequest)) :=
  (*  1. pick a build *)
  let* breq := _getNextUnclaimedBuildRequest in
  match breq with
  | None => ret (Break (None, None))
  | Some breq =>
      do* modify (λ c,
            match workerpool c, preferredWorkers c with
            | [], [] => set_workerpool (getAvailableWorkers K (env (world c))) c
            | _, _ => c
            end) in
      (*  2. pick a worker *)
      let* worker := _popNextWorker breq in
      match worker with
      | None => ret (Break (None, None))
      | Some w =>
          do* _removeBuildRequest (Some breq) in
          (*  3. make sure worker is usable for the breq *)
          let* c := get in
          let* (worker, recycledWorkers) :=
            find_usable_worker (S (workers_left c)) breq (Some w) [] in
          do* match recycledWorkers with
              | [] => ret tt
              | _ :: _ => _unpopWorkers recycledWorkers
              end in
          (*  4. done? otherwise we will try another build *)
          match worker with
          | Some w' => ret (Break (Some w', Some breq))
          | None => ret Continue
          end
      end
  end.

Fixpoint popNextBuild_loop (fuel : nat)
    : M BC (option Worker * option BuildRequest) :=
  match fuel with
  | O => out_of_fuel
  | S fuel' =>
      let* r := popNextBuild_body in
      match r with
      | Break nextBuild => ret nextBuild
      | Continue => popNextBuild_loop fuel'
      end
  end.

(** The cache as [_fetchUnclaimedBrdicts] leaves it (empty when the store
    fails to answer). *)
Definition cached (c : BC) : list Brdict :=
  default [] (unclaimedBrdicts c).

(** Every round that goes on to another takes one request out of the cache:
    the cache length after the fetch, plus one, is enough fuel. *)
Definition requests_left (c : BC) : nat :=
  length (cached (_fetchUnclaimedBrdicts c).2).

(** [popNextBuild] *)
Definition popNextBuild : M BC (option Worker * option BuildRequest) := λ c,
  popNextBuild_loop (S (requests_left c)) c.

(** [chooseNextBuild] *)
Definition chooseNextBuild : M BC (option Worker * option (list BuildRequest)) :=
  let* (worker, breq) := popNextBuild in
  match worker, breq with
  | Some w, Some b => ret (Some w, Some [b])
  | _, _ => ret (None, None)
  end.

(** Number of invocations of the next-worker policy recorded in a trace. *)
Definition nextWorker_calls (t : list Event) : nat :=
  length (filter (λ e, is_EvNextWorker e = true) t).

(** Number of store queries for unclaimed requests recorded in a trace. *)
Definition fetch_calls (t : list Event) : nat :=
  length (filter (λ e, is_EvFetch e = true) t).

End Chooser.
Global Arguments BC Env : clear implicits.
End Chooser.

(** ** [BuildRequestDistributor]: dispatch for one builder *)

Module Distributor.
Section Dispatch.
Context {Env : Type}.
Variable K : Collab Env.

(** What [_maybeStartBuildsOnBuilder] works on: the distributor's own
    attributes, the local variable [bc], and the botmaster's in-progress
    markers. *)
Record BRD : Type := mkBRD {
  name : option string;
  distribute_only_waited_childs : bool;
  in_progress : gset Z;
  bc : Chooser.BC Env
}.

Definition set_bc (v : Chooser.BC Env) (s : BRD) : BRD :=
  mkBRD (name s) (distribute_only_waited_childs s) (in_progress s) v.
Definition set_in_progress (v : gset Z) (s : BRD) : BRD :=
  mkBRD (name s) (distribute_only_waited_childs s) v (bc s).

(** Running a step of the chooser [bc]. *)
Definition with_bc {A} (m : M (Chooser.BC Env) A) : M BRD A := λ s,
  let '(r, c') := m (bc s) in (r, set_bc c' s).

Definition call {A} (ev : Event) (f : Env → answer A * Env) : M BRD A :=
  with_bc (Chooser.call (λ _, ev) f).

(** Modelled from the spec: [botmaster.add_in_progress_buildrequest] is not
    part of the sources at hand; the ids are marked "in progress" locally. *)
Definition add_in_progress_buildrequest (brid : Z) : M BRD unit :=
  modify (λ s, set_in_progress ({[brid]} ∪ in_progress s) s).

(** Modelled from the spec: [botmaster.remove_in_progress_buildrequest] is
    not part of the sources at hand; the in-progress marker is cleared. *)
Definition remove_in_progress_buildrequest (brid : Z) : M BRD unit :=
  modify (λ s, set_in_progress (in_progress s ∖ {[brid]}) s).

(** [_add_in_progress_brids] *)
Fixpoint _add_in_progress_brids (brids : list Z) : M BRD unit :=
  match brids with
  | [] => ret tt
  | brid :: rest =>
      do* add_in_progress_buildrequest brid in _add_in_progress_brids rest
  end.

(** [_remove_in_progress_brids] *)
Fixpoint _remove_in_progress_brids (brids : list Z) : M BRD unit :=
  match brids with
  | [] => ret tt
  | brid :: rest =>
      do* remove_in_progress_buildrequest brid in _remove_in_progress_brids rest
  end.

(** [createBuildChooser]: a new chooser in the current world. *)
Definition createBuildChooser : M BRD unit :=
  modify (λ s, set_bc (Chooser.init K (Chooser.world (bc s))) s).

(** The branch [if self.distribute_only_waited_childs]: [None] stands for
    [continue], [Some breqs] for going on with the filtered requests. *)
Definition waited_childs_filter (breqs : list BuildRequest)
    : M BRD (option (list BuildRequest)) :=
  let buildset_ids :=
    remove_dups (br_bsid <$> filter (λ br, br_waited_for br = true) breqs) in
  match buildset_ids with
  | [] => ret None
  | _ :: _ =>
      let* parented_buildset_ids :=
        call (EvQueryBuildsets buildset_ids) (data_get_buildsets K buildset_ids) in
      let breqs' := filter (λ br, br_bsid br ∈ parented_buildset_ids) breqs in
      match breqs' with
      | [] => ret None
      | _ :: _ => ret (Some breqs')
      end
  end.

(** The part of a round of [_maybeStartBuildsOnBuilder] from the comment
    [# claim brid's] on. *)
Definition claim_and_start (worker : Worker) (breqs : list BuildRequest)
    : M BRD (loop_ctl unit) :=
  let brids := id <$> breqs in
  do* _add_in_progress_brids brids in
  let* claimed := call (EvClaim brids) (claimBuildRequests K brids) in
  if negb claimed then
    (* some brids were already claimed, so start over *)
    do* createBuildChooser in
    ret Continue
  else
    let* buildStarted :=
      call (EvMaybeStartBuild worker brids) (bldr_maybeStartBuild K worker breqs) in
    if negb buildStarted then
      do* call (EvUnclaim brids) (unclaimBuildRequests K brids) in
      do* _remove_in_progress_brids brids in
      (* self.botmaster.maybeStartBuildsForBuilder(self.name) *)
      let* s := get in
      do* call (EvSignal (name s)) (λ e, (Returns tt, e)) in
      ret Continue
    else ret Continue.

(** One round of the loop [while True] of [_maybeStartBuildsOnBuilder]. *)
Definition dispatch_body : M BRD (loop_ctl unit) :=
  let* (worker, breqs) := with_bc (Chooser.chooseNextBuild K) in
  match worker, breqs with
  | Some worker, Some (breq0 :: more) =>
      let breqs := breq0 :: more in
      let* s := get in
      let* filtered :=
        if distribute_only_waited_childs s then waited_childs_filter breqs
        else ret (Some breqs) in
      match filtered with
      | None => ret Continue
      | Some breqs => claim_and_start worker breqs
      end
  | _, _ => ret (Break tt)
  end.

(** [_maybeStartBuildsOnBuilder]: a fresh chooser, then the loop.  The loop
    need not end (a store that refuses every claim restarts it for ever),
    so the number of rounds is bounded by [fuel]. *)
Fixpoint dispatch_loop (fuel : nat) : M BRD unit :=
  match fuel with
  | O => out_of_fuel
  | S fuel' =>
      let* r := dispatch_body in
      match r with
      | Break _ => ret tt
      | Continue => dispatch_loop fuel'
      end
  end.

Definition _maybeStartBuildsOnBuilder (fuel : nat) : M BRD unit :=
  do* createBuildChooser in dispatch_loop fuel.

(** The events a step added to the trace. *)
Definition new_events (before after : BRD) : list Event :=
  drop (length (trace (Chooser.world (bc before))))
       (trace (Chooser.world (bc after))).

End Dispatch.
Global Arguments BRD Env : clear implicits.

(** *** Sorting the builders *)

(** A builder as the sorter sees it: [bldr.name],
    [bldr.get_highest_priority()], [bldr.getOldestRequestTime()] (a
    timestamp in seconds). *)
Record Builder : Type := mkBuilder {
  b_name : string;
  get_highest_priority : option Z;
  getOldestRequestTime : option Z
}.

Global Instance Builder_eq_dec : EqDecision Builder.
Proof. solve_decision. Defined.

(** Numbers with [math.inf] and [-math.inf]. *)
Inductive ext : Type :=
| NInf
| Fin (z : Z)
| PInf.

Global Instance ext_eq_dec : EqDecision ext.
Proof. solve_decision. Defined.

Definition ext_opp (x : ext) : ext :=
  match x with
  | NInf => PInf
  | Fin z => Fin (- z)
  | PInf => NInf
  end.

Definition ext_ltb (x y : ext) : bool :=
  match x, y with
  | NInf, NInf => false
  | NInf, _ => true
  | Fin _, NInf => false
  | Fin a, Fin b => a <? b
  | Fin _, PInf => true
  | PInf, _ => false
  end.

(** The function [key] of [_defaultSorter]. *)
Definition key (bldr : Builder) : ext * ext * string :=
  let priority :=
    match get_highest_priority bldr with
    | None => NInf
    | Some p => Fin p
    end in
  let time :=
    match getOldestRequestTime bldr with
    | None => PInf
    | Some t => Fin t
    end in
  (ext_opp priority, time, b_name bldr).

(** Python's [<] on the key tuples: the first components that differ
    decide. *)
Definition key_ltb (k1 k2 : ext * ext * string) : bool :=
  let '(p1, t1, n1) := k1 in
  let '(p2, t2, n2) := k2 in
  if negb (bool_decide (p1 = p2)) then ext_ltb p1 p2
  else if negb (bool_decide (t1 = t2)) then ext_ltb t1 t2
  else String.ltb n1 n2.

(** Modelled from the spec: [buildbot.util.async_sort.async_sort] is not
    part of the sources at hand; it sorts the list in place by the keys the
    key function yields (Python's stable sort). *)
Definition async_sort (builders : list Builder) (key : Builder → ext * ext * string)
    : list Builder :=
  PyList.sort (λ a b, key_ltb (key a) (key b)) builders.

(** [_defaultSorter] *)
Definition _defaultSorter (builders : list Builder) : list Builder :=
  async_sort builders key.

Section Pending.
(** [self.botmaster.builders] and [self.master.config.prioritizeBuilders]. *)
Variable builders_dict : gmap string Builder.
Variable prioritizeBuilders : option (list Builder → answer (list Builder)).

(** [_sortBuilders] *)
Definition _sortBuilders (buildernames : list string) : list string :=
  let builders := omap (λ n, builders_dict !! n) buildernames in
  let sorter :=
    match prioritizeBuilders with
    | Some f => f
    | None => λ bs, Returns (_defaultSorter bs)
    end in
  let builders :=
    match sorter builders with
    | Returns bs => bs
    | Raises _ => builders
    end in
  b_name <$> builders.

(** The attributes [_maybeStartBuildsOn] works on; [loops_started] counts
    the activity loops spawned ([defer.ensureDeferred(self._activityLoop())]),
    [sorts] the calls of [_sortBuilders]. *)
Record Pending : Type := mkPending {
  _pending_builders : list string;
  active : bool;
  loops_started : nat;
  sorts : nat
}.

(** [_maybeStartBuildsOn], up to the point where the lock on the pending
    builders is released: Python's [<] on sets is the proper-subset test;
    [list(a | b)] lists the union in an order of the set's choosing.  Of the
    [_activityLoop] that is started, only the first statement,
    [self.active = True], is part of this definition: the started loop
    waits for the lock and goes on when the lock is released, taking the
    pending list (the loop itself is [Service._activityLoop], and the call
    together with the loop it starts is [Service.maybeStartBuildsOn]). *)
Definition _maybeStartBuildsOn (new_builders : list string) (s : Pending) : Pending :=
  let new_builder_set : gset string := list_to_set new_builders in
  let existing_pending : gset string := list_to_set (_pending_builders s) in
  if bool_decide (new_builder_set ⊂ existing_pending) then s
  else
    let existing_pending : gset string := list_to_set (_pending_builders s) in
    let pending := _sortBuilders (elements (existing_pending ∪ new_builder_set)) in
    if negb (active s) then
      mkPending pending true (S (loops_started s)) (S (sorts s))
    else
      mkPending pending (active s) (loops_started s) (S (sorts s)).

End Pending.
End Distributor.

(** ** [schedulers/triggerable.py]: the Triggerable wait registry *)

Module Triggerable.

(** A Twisted [Deferred] is identified by a handle; the heap [deferreds]
    holds the outcome of every Deferred that has been called.
    [Deferred.callback] and [errback] on a Deferred that was already called
    raise [AlreadyCalledError]. *)
Inductive outcome : Type :=
| Callback (results : Z) (brids : list Z)   (* d.callback((results, brids)) *)
| Errback (msg : string).                   (* d.errback(Failure(RuntimeError(msg))) *)

Global Instance outcome_eq_dec : EqDecision outcome.
Proof. solve_decision. Defined.

(** The attributes of a [Triggerable] that the wait registry uses.
    [update_scheduled] records that the debounced [_updateWaiters] has been
    requested and has not yet run. *)
Record Sched : Type := mkSched {
  _waiters : gmap Z (nat * list Z);
  _buildset_complete_consumer : bool;
  update_scheduled : bool;
  deferreds : gmap nat outcome;
  next_deferred : nat
}.

(** [__init__] *)
Definition init : Sched :=
  {| _waiters := ∅; _buildset_complete_consumer := false;
     update_scheduled := false; deferreds := ∅; next_deferred := 0%nat |}.

(** A buildset-completion message, as far as [_buildset_complete_cb] reads
    it: [msg['bsid']] and [msg['results']]. *)
Record Msg : Type := mkMsg { bsid : Z; results : Z }.

Definition set_waiters (w : gmap Z (nat * list Z)) (s : Sched) : Sched :=
  mkSched w (_buildset_complete_consumer s) (update_scheduled s)
          (deferreds s) (next_deferred s).

(** [d.callback(v)] and [d.errback(f)] *)
Definition fire (d : nat) (o : outcome) : M Sched unit := λ s,
  match deferreds s !! d with
  | Some _ => (Raise "AlreadyCalledError", s)
  | None =>
      (Ok tt, mkSched (_waiters s) (_buildset_complete_consumer s)
                      (update_scheduled s) (<[d := o]> (deferreds s))
                      (next_deferred s))
  end.

(** The call [self._updateWaiters()] of a method debounced with [wait=0]:
    the body runs later, from the reactor. *)
Definition schedule_updateWaiters (s : Sched) : Sched :=
  mkSched (_waiters s) (_buildset_complete_consumer s) true
          (deferreds s) (next_deferred s).

(** The body of [_updateWaiters], when the reactor runs it. *)
Definition _updateWaiters (s : Sched) : Sched :=
  let waiting := negb (bool_decide (_waiters s = ∅)) in
  let consumer :=
    if waiting && negb (_buildset_complete_consumer s) then true
    else if negb waiting && _buildset_complete_consumer s then false
    else _buildset_complete_consumer s in
  mkSched (_waiters s) consumer false (deferreds s) (next_deferred s).

(** [trigger]: [resultsDeferred = defer.Deferred()] is allocated, and
    [setup_waiter] runs when [idsDeferred] delivers [ids = (bsid, brids)].
    Returns the handle of [resultsDeferred]. *)
Definition trigger (ids : Z * list Z) (s : Sched) : nat * Sched :=
  let resultsDeferred := next_deferred s in
  let '(bsid, brids) := ids in
  (resultsDeferred,
   schedule_updateWaiters
     (mkSched (<[bsid := (resultsDeferred, brids)]> (_waiters s))
              (_buildset_complete_consumer s) (update_scheduled s)
              (deferreds s) (S (next_deferred s)))).

(** [_buildset_complete_cb(key, msg)] *)
Definition _buildset_complete_cb (msg : Msg) : M Sched unit := λ s,
  match _waiters s !! bsid msg with
  | None => (Ok tt, s)
  | Some (d, brids) =>
      (* pop this bsid from the waiters list *)
      let s1 := set_waiters (delete (bsid msg) (_waiters s)) s in
      (* ..and potentially stop consuming buildset completion notifications *)
      let s2 := schedule_updateWaiters s1 in
      (* fire the callback to indicate that the triggered build is complete *)
      fire d (Callback (results msg) brids) s2
  end.

(** Every registered waiter holds a Deferred that has not been called yet
    (what [trigger] sets up: a Deferred of its own for each waiter). *)
Definition waiters_pending (s : Sched) : Prop :=
  ∀ b d brids, _waiters s !! b = Some (d, brids) → deferreds s !! d = None.

End Triggerable.

(** ** [BuildRequestDistributor]: signals and the activity loop *)

Module Service.

(** The attributes of the service that the signals and the activity loop
    work on: [self.running], [self.distribute_only_waited_childs], the
    pending builders with the flag [self.active]; [outside] stands for
    everything the dispatch of a builder works on (the store, the builders,
    the in-progress markers). *)
Record Svc (X : Type) : Type := mkSvc {
  running : bool;
  distribute_only_waited_childs : bool;
  pending : Distributor.Pending;
  outside : X
}.
Global Arguments mkSvc {X} _ _ _ _.
Global Arguments running {X} _.
Global Arguments distribute_only_waited_childs {X} _.
Global Arguments pending {X} _.
Global Arguments outside {X} _.

Section Service.
Context {X : Type}.
(** [self.botmaster.builders] and [self.master.config.prioritizeBuilders]. *)
Variable builders_dict : gmap string Distributor.Builder.
Variable prioritizeBuilders :
  option (list Distributor.Builder → answer (list Distributor.Builder)).
(** [self._maybeStartBuildsOnBuilder(bldr)], together with whatever happens
    while it is awaited (signals for further builders, a shutdown). *)
Variable dispatch : Distributor.Builder → M (Svc X) unit.

Definition set_pending (p : Distributor.Pending) (s : Svc X) : Svc X :=
  mkSvc (running s) (distribute_only_waited_childs s) p (outside s).

Definition set_pending_builders (l : list string) (s : Svc X) : Svc X :=
  set_pending
    (Distributor.mkPending l (Distributor.active (pending s))
       (Distributor.loops_started (pending s)) (Distributor.sorts (pending s))) s.

Definition set_active (b : bool) (s : Svc X) : Svc X :=
  set_pending
    (Distributor.mkPending (Distributor._pending_builders (pending s)) b
       (Distributor.loops_started (pending s)) (Distributor.sorts (pending s))) s.

(** The property [can_distribute] *)
Definition can_distribute (s : Svc X) : bool :=
  running s || distribute_only_waited_childs s.

(** The loop [while True] of [_activityLoop]; [pending_builders] is the
    local list of the loop.  A round takes the next builder name, looks the
    builder up and dispatches for it; an exception of the dispatch is logged
    and the loop goes on.  The loop need not end (the dispatch may signal
    builders again), so the number of rounds is bounded by [fuel]. *)
Fixpoint activity_rounds (fuel : nat) (pending_builders : list string)
    : M (Svc X) unit :=
  match fuel with
  | O => out_of_fuel
  | S fuel' =>
      let round (bldr_name : string) (pending_builders : list string)
          : M (Svc X) unit :=
        (* get the actual builder object *)
        do* match builders_dict !! bldr_name with
            | Some bldr => try_except (dispatch bldr) (λ _, ret tt)
            | None => ret tt
            end in
        activity_rounds fuel' pending_builders in
      let* s := get in
      if negb (can_distribute s) then ret tt
      else
        match pending_builders with
        | [] =>
            match Distributor._pending_builders (pending s) with
            | [] =>
                (* bail out if we shouldn't keep looping *)
                ret tt
            | bldr_name :: rest =>
                (* take that builder list, and run it until the end *)
                do* modify (set_pending_builders []) in
                round bldr_name rest
            end
        | bldr_name :: rest => round bldr_name rest
        end
  end.

(** [_activityLoop] *)
Definition _activityLoop (fuel : nat) : M (Svc X) unit :=
  do* modify (set_active true) in
  do* activity_rounds fuel [] in
  modify (set_active false).

(** [maybeStartBuildsOn], with the activity loop that [_maybeStartBuildsOn]
    starts when none is active.  The started loop waits for the lock on the
    pending builders, takes the list as soon as [_maybeStartBuildsOn]
    releases the lock, and is run here to its end (at most [fuel] rounds).
    A call that starts no loop returns with the pending list it has set. *)
Definition maybeStartBuildsOn (fuel : nat) (new_builders : list string)
    : M (Svc X) unit := λ s,
  if negb (can_distribute s) then (Ok tt, s)
  else
    let p :=
      Distributor._maybeStartBuildsOn builders_dict prioritizeBuilders
        new_builders (pending s) in
    if (Distributor.loops_started p =? Distributor.loops_started (pending s))%nat
    then (Ok tt, set_pending p s)
    else _activityLoop fuel (set_pending p s).

(** What one pass over the builder names [names] does when every dispatch
    returns or raises: the known builders are dispatched one after the
    other. *)
Fixpoint dispatch_each (names : list string) (s : Svc X) : Svc X :=
  match names with
  | [] => s
  | bldr_name :: rest =>
      dispatch_each rest
        match builders_dict !! bldr_name with
        | Some bldr => (dispatch bldr s).2
        | None => s
        end
  end.

End Service.
End Service.

(** ** [schedulers/triggerable.py]: stopping the scheduler *)

Module TriggerableStop.
Import Triggerable.

Definition set_consumer (v : bool) (s : Sched) : Sched :=
  mkSched (_waiters s) v (update_scheduled s) (deferreds s) (next_deferred s).

(** Modelled from the spec: [buildbot.util.debounce] is not part of the
    sources at hand; [self._updateWaiters.stop()] ("finish any
    _updateWaiters calls") lets a call that is still pending run at once. *)
Definition _updateWaiters_stop (s : Sched) : Sched :=
  if update_scheduled s then _updateWaiters s else s.

(** The message of the [RuntimeError] the waiters are failed with. *)
Definition stopped_msg : string :=
  "Triggerable scheduler stopped before build was complete".

(** The loop [for d, _ in self._waiters.values(): d.errback(...)], over the
    waiters in the order [order]. *)
Fixpoint errback_each (order : list (Z * (nat * list Z))) : M Sched unit :=
  match order with
  | [] => ret tt
  | (_, (d, _)) :: rest =>
      do* fire d (Errback stopped_msg) in errback_each rest
  end.

(** [stopService], up to the call of the base class.  Python goes through
    the dict [_waiters] in insertion order, which the registry of the model
    does not record: [order] is the list of the waiters in that order. *)
Definition stopService_in (order : list (Z * (nat * list Z))) : M Sched unit :=
  (* finish any _updateWaiters calls *)
  do* modify _updateWaiters_stop in
  (* cancel any outstanding subscription *)
  do* modify (λ s, if _buildset_complete_consumer s then set_consumer false s
                   else s) in
  (* and errback any outstanding deferreds *)
  let* s := get in
  if bool_decide (_waiters s = ∅) then ret tt
  else
    do* errback_each order in
    modify (set_waiters ∅).

(** [stopService], going through the waiters in the order of the map. *)
Definition stopService : M Sched unit := λ s,
  stopService_in (map_to_list (_waiters s)) s.

End TriggerableStop.

(** ** Concrete collaborators *)

Module Examples.

(** A request dictionary with id, priority and submission time. *)
Definition request (i p t : Z) : Brdict :=
  mkBrdict i 100 1 t p false None None None None None.

(** What [BuildRequest.fromBrdict] makes of a model. *)
Definition resolve (m : BuildRequestModel) : BuildRequest :=
  mkBreq (m_buildrequestid m) (m_buildsetid m) (m_waited_for m)
         (m_priority m) (m_buildername m).

(** A builder and a store with fixed answers. *)
Record Setup : Type := mkSetup {
  stored : list Brdict;                 (* the unclaimed requests in the store *)
  workers : list Worker;                (* bldr.getAvailableWorkers() *)
  policy : list Worker → option Worker; (* the next-worker policy *)
  usable : Worker → bool;               (* bldr.canStartBuild *)
  broken : list Z;                      (* ids whose resolution raises *)
  pick : option (list (option BuildRequest) → option BuildRequest);
                                        (* config.nextBuild *)
  claim_ok : bool;                      (* claimBuildRequests *)
  start_ok : bool                       (* bldr.maybeStartBuild *)
}.

Definition collab (s : Setup) : Collab unit :=
  {| data_get_buildrequests := λ e, (Returns (stored s), e);
     data_get_builder := λ _ e, (Returns (Some "builder"), e);
     fromBrdict := λ m e,
       if bool_decide (m_buildrequestid m ∈ broken s)
       then (Raises "resolution failed", e)
       else (Returns (Some (resolve m)), e);
     config_nextBuild :=
       (λ f breqs (e : unit), (Returns (f breqs), e)) <$> pick s;
     nextWorker := λ pool _ e, (Returns (policy s pool), e);
     getAvailableWorkers := λ _, workers s;
     bldr_canStartBuild := λ w _ e, (Returns (usable s w), e);
     bldr_name := "builder";
     bldr_maybeStartBuild := λ _ _ e, (Returns (start_ok s), e);
     claimBuildRequests := λ _ e, (Returns (claim_ok s), e);
     unclaimBuildRequests := λ _ e, (Returns tt, e);
     data_get_buildsets := λ bsids e, (Returns bsids, e) |}.

(** The world before anything was called. *)
Definition world0 : World unit := mkWorld tt [].

(** Two workers, two requests; the policy always names W1, which cannot
    start anything. *)
Definition stubborn : Setup :=
  {| stored := [request 2 0 20; request 1 0 10];
     workers := ["W1"; "W2"];
     policy := λ _, Some "W1";
     usable := λ _, false;
     broken := [];
     pick := None;
     claim_ok := true;
     start_ok := true |}.

(** Two requests, the second of which fails to resolve, with a [nextBuild]
    policy that takes the first request it is shown. *)
Definition flaky : Setup :=
  {| stored := [request 1 0 10; request 2 0 20];
     workers := ["W1"];
     policy := head;
     usable := λ _, true;
     broken := [2];
     pick := Some (λ breqs, mjoin (head breqs));
     claim_ok := true;
     start_ok := true |}.

(** Request 2 was submitted before request 1. *)
Definition out_of_order : Setup :=
  {| stored := [request 2 0 5; request 1 0 10];
     workers := ["W1"];
     policy := head;
     usable := λ _, true;
     broken := [];
     pick := None;
     claim_ok := true;
     start_ok := true |}.

(** One request and one usable worker, parameterized by what the store
    answers to the claim and the builder to the start. *)
Definition simple (claimed started : bool) : Setup :=
  {| stored := [request 7 0 10];
     workers := ["W1"];
     policy := head;
     usable := λ _, true;
     broken := [];
     pick := None;
     claim_ok := claimed;
     start_ok := started |}.

End Examples.

(* ===================================================================== *)
(** * Part II: properties *)
(* ===================================================================== *)

(** ** Lists *)

Module PyListFacts.
Import PyList.
Section Remove.
Context {A : Type} `{EqDecision A}.

Lemma remove_first_length_in (x : A) l :
  x ∈ l → S (length (remove_first x l)) = length l.
Proof.
  induction l as [|y l IH]; intros Hin; simpl.
  - by apply elem_of_nil in Hin.
  - destruct (decide (x = y)) as [->|Hne]; [done|].
    apply elem_of_cons in Hin as [Heq|Hin]; [done|].
    simpl. by rewrite IH.
Qed.

Lemma remove_first_length_le (x : A) l :
  (length (remove_first x l) ≤ length l)%nat.
Proof.
  induction l as [|y l IH]; simpl; [done|].
  destruct (decide (x = y)); simpl; lia.
Qed.

Lemma remove_first_elem_of (x y : A) l : y ∈ remove_first x l → y ∈ l.
Proof.
  induction l as [|z l IH]; simpl; [done|].
  destruct (decide (x = z)); rewrite ?elem_of_cons; [by auto|].
  intros [Hy|Hy]; [by left|right; by apply IH].
Qed.

Lemma remove_first_fmap_notin {B} (f : A → B) (x : A) l :
  x ∈ l → NoDup (f <$> l) → f x ∉ f <$> remove_first x l.
Proof.
  induction l as [|y l IH]; simpl; intros Hin Hnd.
  - by apply elem_of_nil in Hin.
  - apply NoDup_cons in Hnd as [Hy Hnd].
    destruct (decide (x = y)) as [->|Hne]; [done|].
    apply elem_of_cons in Hin as [Heq|Hin]; [done|].
    rewrite fmap_cons, not_elem_of_cons. split; [|by apply IH].
    intros Heq. apply Hy. rewrite <- Heq. by apply list_elem_of_fmap_2.
Qed.

End Remove.

Section Sort.
Context {A : Type} (lt : A → A → bool).

Lemma insert_sorted_Permutation x l : insert_sorted lt x l ≡ₚ x :: l.
Proof.
  induction l as [|y l IH]; simpl; [done|].
  destruct (lt y x); [|done].
  rewrite IH. apply Permutation_swap.
Qed.

Lemma sort_Permutation l : sort lt l ≡ₚ l.
Proof.
  induction l as [|x l IH]; simpl; [done|].
  by rewrite insert_sorted_Permutation, IH.
Qed.

Lemma sort_length l : length (sort lt l) = length l.
Proof. by rewrite sort_Permutation. Qed.

Hypothesis lt_asym : ∀ a b, lt a b = true → lt b a = false.

Lemma insert_sorted_HdRel a x l :
  le_of lt a x → HdRel (le_of lt) a l → HdRel (le_of lt) a (insert_sorted lt x l).
Proof.
  intros Hax Hal. destruct l as [|y l]; simpl; [by constructor|].
  inversion_clear Hal. destruct (lt y x); by constructor.
Qed.

Lemma insert_sorted_Sorted x l :
  Sorted (le_of lt) l → Sorted (le_of lt) (insert_sorted lt x l).
Proof.
  induction 1 as [|y l Hs IH Hhd]; simpl.
  - by repeat constructor.
  - destruct (lt y x) eqn:Hyx.
    + constructor; [done|]. apply insert_sorted_HdRel; [|done].
      by apply lt_asym.
    + constructor; [by constructor|]. by constructor.
Qed.

Lemma sort_Sorted l : Sorted (le_of lt) (sort lt l).
Proof.
  induction l as [|x l IH]; simpl; [constructor|].
  by apply insert_sorted_Sorted.
Qed.

Lemma sort_StronglySorted `{!Transitive (le_of lt)} l :
  StronglySorted (le_of lt) (sort lt l).
Proof. apply Sorted_StronglySorted; [done|]. apply sort_Sorted. Qed.

End Sort.
End PyListFacts.

(** ** The Triggerable wait registry *)

Module TriggerableFacts.
Import Triggerable.

(** The states a [Triggerable] goes through: created, then any sequence of
    [trigger] registrations, completion events and runs of the debounced
    [_updateWaiters]. *)
Inductive reachable : Sched → Prop :=
| reach_init : reachable init
| reach_trigger s ids : reachable s → reachable (trigger ids s).2
| reach_complete s msg s' :
    reachable s → _buildset_complete_cb msg s = (Ok tt, s') → reachable s'
| reach_update s : reachable s → reachable (_updateWaiters s).

(** Waiters hold pairwise distinct Deferreds, all allocated by [trigger],
    none of them called. *)
Definition wf (s : Sched) : Prop :=
  waiters_pending s
  ∧ (∀ b d brids, _waiters s !! b = Some (d, brids) → (d < next_deferred s)%nat)
  ∧ (∀ d o, deferreds s !! d = Some o → (d < next_deferred s)%nat)
  ∧ (∀ b1 b2 d l1 l2, _waiters s !! b1 = Some (d, l1) →
                       _waiters s !! b2 = Some (d, l2) → b1 = b2).

Lemma wf_init : wf init.
Proof. repeat split; intros *; simpl; by rewrite ?lookup_empty. Qed.

Lemma wf_trigger ids s : wf s → wf (trigger ids s).2.
Proof.
  intros (Hp & Hlt & Hd & Hinj). destruct ids as [b0 l0].
  unfold trigger, wf, waiters_pending; simpl.
  split_and!.
  - intros b d brids. rewrite lookup_insert. case_decide; intros Hb.
    + simplify_eq. destruct (deferreds s !! next_deferred s) eqn:E; [|done].
      apply Hd in E. lia.
    + eauto.
  - intros b d brids. rewrite lookup_insert. case_decide; intros Hb.
    + simplify_eq. lia.
    + apply Hlt in Hb. lia.
  - intros d o Ho. apply Hd in Ho. lia.
  - intros b1 b2 d l1 l2. rewrite !lookup_insert.
    repeat case_decide; intros H1 H2; simplify_eq; try done.
    + apply Hlt in H2. lia.
    + apply Hlt in H1. lia.
    + eauto.
Qed.

Lemma wf_complete msg s s' :
  wf s → _buildset_complete_cb msg s = (Ok tt, s') → wf s'.
Proof.
  intros (Hp & Hlt & Hd & Hinj). unfold _buildset_complete_cb.
  destruct (_waiters s !! bsid msg) as [[d brids]|] eqn:Hw.
  - unfold fire; simpl. rewrite (Hp _ _ _ Hw). intros [= <-].
    unfold wf, waiters_pending; simpl. split_and!.
    + intros b d' l. rewrite lookup_delete. case_decide; [done|].
      intros Hb. rewrite lookup_insert_ne; [by eapply Hp|].
      intros ->. by specialize (Hinj _ _ _ _ _ Hw Hb).
    + intros b d' l. rewrite lookup_delete. case_decide; [done|]. eauto.
    + intros d' o. rewrite lookup_insert. case_decide; [|by eauto].
      subst. intros _. eauto.
    + intros b1 b2 d' l1 l2. rewrite !lookup_delete.
      repeat case_decide; try done. eauto.
  - by intros [= <-].
Qed.

Lemma wf_update s : wf s → wf (_updateWaiters s).
Proof. done. Qed.

Lemma reachable_wf s : reachable s → wf s.
Proof.
  induction 1; eauto using wf_init, wf_trigger, wf_complete, wf_update.
Qed.

(** C9. For a buildset id registered in the wait registry (of a scheduler
    in any reachable state), a completion event for it calls the registered
    result Deferred with the event's results and the registered request ids,
    touches no other Deferred and removes the waiter; a second completion
    event for the same id changes nothing (so the Deferred is called exactly
    once), and an event for an unregistered id leaves the whole state, the
    registry included, unchanged. *)
Theorem completion_resolves_waiter_once
    (s : Sched) (b : Z) (d : nat) (brids : list Z) (res : Z) :
  reachable s →
  _waiters s !! b = Some (d, brids) →
  ∃ s1,
    _buildset_complete_cb (mkMsg b res) s = (Ok tt, s1)
    ∧ deferreds s !! d = None
    ∧ deferreds s1 = <[d := Callback res brids]> (deferreds s)
    ∧ _waiters s1 = delete b (_waiters s)
    ∧ (∀ res2, _buildset_complete_cb (mkMsg b res2) s1 = (Ok tt, s1))
    ∧ (∀ b' res', _waiters s !! b' = None →
         _buildset_complete_cb (mkMsg b' res') s = (Ok tt, s)).
Proof.
  intros Hr Hw. destruct (reachable_wf _ Hr) as (Hp & _).
  pose proof (Hp _ _ _ Hw) as Hd.
  unfold _buildset_complete_cb at 1; simpl. rewrite Hw.
  unfold fire; simpl. rewrite Hd.
  eexists. split; [done|]. simpl. split_and!; try done.
  - intros res2. unfold _buildset_complete_cb; simpl.
    by rewrite lookup_delete_eq.
  - intros b' res' Hb'. unfold _buildset_complete_cb; simpl. by rewrite Hb'.
Qed.

(** C9 at a concrete registration: a wait on buildset 100 for the requests
    7 and 8, completed with results 0. *)
Lemma completion_resolves_waiter_once_witness :
  ∃ s1,
    _buildset_complete_cb (mkMsg 100 0) (trigger (100, [7; 8]) init).2 = (Ok tt, s1)
    ∧ deferreds (trigger (100, [7; 8]) init).2 !! 0%nat = None
    ∧ deferreds s1 = <[0%nat := Callback 0 [7; 8]]> (deferreds (trigger (100, [7; 8]) init).2)
    ∧ _waiters s1 = delete 100 (_waiters (trigger (100, [7; 8]) init).2)
    ∧ (∀ res2, _buildset_complete_cb (mkMsg 100 res2) s1 = (Ok tt, s1))
    ∧ (∀ b' res', _waiters (trigger (100, [7; 8]) init).2 !! b' = None →
         _buildset_complete_cb (mkMsg b' res') (trigger (100, [7; 8]) init).2
         = (Ok tt, (trigger (100, [7; 8]) init).2)).
Proof.
  apply (completion_resolves_waiter_once (trigger (100, [7; 8]) init).2
           100 0%nat [7; 8] 0).
  - apply reach_trigger, reach_init.
  - reflexivity.
Defined.

End TriggerableFacts.

(** ** The default builder sorter *)
Module SorterFacts.
Import PyList PyListFacts Distributor.

(** A boolean strict total order. *)
Class StrictTotal {A : Type} (lt : A → A → bool) : Prop := {
  st_irrefl : ∀ a, lt a a = false;
  st_trans : ∀ a b c, lt a b = true → lt b c = true → lt a c = true;
  st_total : ∀ a b, lt a b = true ∨ a = b ∨ lt b a = true
}.

Section StrictTotal.
Context {A : Type} (lt : A → A → bool) `{!StrictTotal lt}.

Lemma st_asym a b : lt a b = true → lt b a = false.
Proof.
  intros Hab. destruct (lt b a) eqn:Hba; [|done].
  by rewrite <- (st_irrefl a), <- (st_trans a b a Hab Hba).
Qed.

Global Instance le_of_trans : Transitive (le_of lt).
Proof.
  intros a b c Hab Hbc. unfold le_of in *.
  destruct (lt c a) eqn:Hca; [|done].
  destruct (st_total a b) as [Hlt|[->|Hlt]]; [|congruence..].
  by rewrite (st_trans c a b Hca Hlt) in Hbc.
Qed.

Lemma le_of_total a b : le_of lt a b ∨ le_of lt b a.
Proof.
  unfold le_of. destruct (lt b a) eqn:Hba; [|by left].
  right. by apply st_asym.
Qed.

End StrictTotal.

(** Python compares tuples by the first components that differ. *)
Definition lex {A B} `{EqDecision A} (lt1 : A → A → bool) (lt2 : B → B → bool)
    (x y : A * B) : bool :=
  if negb (bool_decide (x.1 = y.1)) then lt1 x.1 y.1 else lt2 x.2 y.2.

Global Instance lex_StrictTotal {A B} `{EqDecision A}
    (lt1 : A → A → bool) (lt2 : B → B → bool)
    `{!StrictTotal lt1, !StrictTotal lt2} : StrictTotal (lex lt1 lt2).
Proof.
  split.
  - intros [a b]. unfold lex; simpl. rewrite bool_decide_true by done.
    simpl. apply st_irrefl.
  - intros [a1 b1] [a2 b2] [a3 b3]. unfold lex; simpl.
    destruct (decide (a1 = a2)) as [->|H12], (decide (a2 = a3)) as [->|H23].
    + rewrite !bool_decide_true by done. simpl. apply st_trans.
    + rewrite bool_decide_true, bool_decide_false by done. simpl. done.
    + rewrite bool_decide_false, bool_decide_true by done. simpl. done.
    + rewrite (bool_decide_false (a1 = a2)), (bool_decide_false (a2 = a3)) by done.
      simpl. intros Hlt12 Hlt23.
      pose proof (st_trans _ _ _ Hlt12 Hlt23) as Hlt13.
      case_bool_decide as E; simpl; [|done]. subst.
      by rewrite st_irrefl in Hlt13.
  - intros [a1 b1] [a2 b2]. unfold lex; simpl.
    destruct (decide (a1 = a2)) as [->|H12].
    + rewrite !bool_decide_true by done. simpl.
      destruct (st_total (lt:=lt2) b1 b2) as [?|[->|?]]; auto.
    + rewrite !bool_decide_false by done. simpl.
      destruct (st_total (lt:=lt1) a1 a2) as [?|[?|?]]; auto.
Qed.

Global Instance ext_ltb_StrictTotal : StrictTotal ext_ltb.
Proof.
  split.
  - intros [|z|]; simpl; [done| |done]. apply Z.ltb_irrefl.
  - intros [|a|] [|b|] [|c|]; simpl; try done.
    rewrite !Z.ltb_lt. lia.
  - intros [|a|] [|b|]; simpl; auto.
    rewrite !Z.ltb_lt. destruct (Z.lt_trichotomy a b) as [?|[->|?]]; auto.
Qed.

Lemma string_ltb_lt a b : String.ltb a b = true ↔ String.compare a b = Lt.
Proof. unfold String.ltb. by destruct (String.compare a b). Qed.

Lemma string_compare_refl a : String.compare a a = Eq.
Proof.
  pose proof (String.compare_antisym a a) as H.
  by destruct (String.compare a a).
Qed.

Global Instance string_ltb_StrictTotal : StrictTotal String.ltb.
Proof.
  split.
  - intros a. unfold String.ltb. by rewrite string_compare_refl.
  - intros a b c Hab%string_ltb_lt Hbc%string_ltb_lt. apply string_ltb_lt.
    assert (String.le a c) as Hac.
    { transitivity b; unfold String.le, String.leb; by rewrite ?Hab, ?Hbc. }
    unfold String.le, String.leb in Hac.
    destruct (String.compare a c) eqn:E; [|done..].
    apply String.compare_eq_iff in E as ->.
    rewrite String.compare_antisym, Hbc in Hab. done.
  - intros a b. rewrite !string_ltb_lt.
    destruct (String.compare a b) eqn:E; auto.
    + right; left. by apply String.compare_eq_iff.
    + right; right. by rewrite String.compare_antisym, E.
Qed.

Lemma key_ltb_lex k1 k2 : key_ltb k1 k2 = lex (lex ext_ltb ext_ltb) String.ltb k1 k2.
Proof.
  destruct k1 as [[p1 t1] n1], k2 as [[p2 t2] n2]. unfold key_ltb, lex; simpl.
  repeat case_bool_decide; simplify_eq/=; try done.
Qed.

Global Instance key_ltb_StrictTotal : StrictTotal key_ltb.
Proof.
  pose proof (lex_StrictTotal (lex ext_ltb ext_ltb) String.ltb) as [Hi Ht Htot].
  split.
  - intros a. rewrite key_ltb_lex. apply Hi.
  - intros a b c. rewrite !key_ltb_lex. apply Ht.
  - intros a b. rewrite !key_ltb_lex. apply Htot.
Qed.

(** [a] stays in front of [b]: the order of the sorter's output. *)
Definition key_le (a b : Builder) : Prop := key_ltb (key b) (key a) = false.

Global Instance key_le_trans : Transitive key_le.
Proof.
  intros a b c. unfold key_le.
  apply (le_of_trans key_ltb (key a) (key b) (key c)).
Qed.

(** The priority and the time the sorter uses for a builder: no pending
    request counts as priority -inf and time +inf. *)
Definition prio_of (b : Builder) : ext :=
  match get_highest_priority b with None => NInf | Some p => Fin p end.
Definition time_of (b : Builder) : ext :=
  match getOldestRequestTime b with None => PInf | Some t => Fin t end.

(** [a] sorts strictly before [b]: higher priority, then older request,
    then smaller name. *)
Definition sorts_before (a b : Builder) : Prop :=
  ext_ltb (prio_of b) (prio_of a) = true
  ∨ (prio_of a = prio_of b
     ∧ (ext_ltb (time_of a) (time_of b) = true
        ∨ (time_of a = time_of b ∧ String.ltb (b_name a) (b_name b) = true))).

Lemma ext_ltb_opp x y : ext_ltb (ext_opp x) (ext_opp y) = ext_ltb y x.
Proof.
  destruct x, y; simpl; try done.
  apply eq_true_iff_eq. rewrite !Z.ltb_lt. lia.
Qed.

Lemma ext_opp_inj x y : ext_opp x = ext_opp y → x = y.
Proof. destruct x, y; simpl; intros; simplify_eq; try done. f_equal; lia. Qed.

Lemma key_ltb_sorts_before a b :
  key_ltb (key a) (key b) = true ↔ sorts_before a b.
Proof.
  unfold key, key_ltb, sorts_before. fold (prio_of a) (prio_of b).
  fold (time_of a) (time_of b). rewrite ext_ltb_opp.
  repeat case_bool_decide; simpl.
  - match goal with H : ext_opp _ = ext_opp _ |- _ => apply ext_opp_inj in H end.
    split; [by auto|]. intros [Hp|(_ & [Ht|(_ & Hn)])]; [| |done].
    + match goal with H : prio_of a = prio_of b |- _ => rewrite H in Hp end.
      by rewrite st_irrefl in Hp.
    + match goal with H : time_of a = time_of b |- _ => rewrite H in Ht end.
      by rewrite st_irrefl in Ht.
  - match goal with H : ext_opp _ = ext_opp _ |- _ => apply ext_opp_inj in H end.
    split; [by auto|]. intros [Hp|(_ & [Ht|(? & _)])]; [|done..].
    match goal with H : prio_of a = prio_of b |- _ => rewrite H in Hp end.
    by rewrite st_irrefl in Hp.
  - split; [by auto|]. intros [Hp|(Heq & _)]; [done|].
    by rewrite Heq in *.
  - split; [by auto|]. intros [Hp|(Heq & _)]; [done|].
    by rewrite Heq in *.
Qed.

Lemma key_le_not_before a b : key_le a b ↔ ¬ sorts_before b a.
Proof.
  unfold key_le. rewrite <- key_ltb_sorts_before.
  by destruct (key_ltb (key b) (key a)).
Qed.

Lemma StronglySorted_mono {A} (R1 R2 : relation A) l :
  (∀ a b, R1 a b → R2 a b) → StronglySorted R1 l → StronglySorted R2 l.
Proof.
  intros HR. induction 1 as [|x l Hs IH Hall]; constructor; [done|].
  eapply Forall_impl; [exact Hall|]. intros y. apply HR.
Qed.

Lemma _defaultSorter_sorted bs : StronglySorted key_le (_defaultSorter bs).
Proof.
  unfold _defaultSorter, async_sort.
  pose proof key_le_trans.
  apply Sorted_StronglySorted; [done|].
  apply (sort_Sorted (λ a b, key_ltb (key a) (key b))).
  intros a b. apply (st_asym key_ltb).
Qed.

Lemma _defaultSorter_perm bs : _defaultSorter bs ≡ₚ bs.
Proof. apply sort_Permutation. Qed.

(** The builders of the example: A (priority 10, oldest request at 5),
    B (priority 10, oldest request at 1), C (nothing pending). *)
Definition bldrA : Builder := mkBuilder "A" (Some 10) (Some 5).
Definition bldrB : Builder := mkBuilder "B" (Some 10) (Some 1).
Definition bldrC : Builder := mkBuilder "C" None None.

(** C6. The default sorter returns the builders it was given, ordered by
    the key (-highest priority, oldest request time, name): no builder is
    behind one that it beats on higher priority, or at equal priority on an
    older request, or at equal priority and time on a smaller name; a
    builder without pending requests counts as priority -inf and time +inf,
    so it is never in front of a builder that has pending requests.  For A
    (priority 10, oldest 5), B (priority 10, oldest 1) and C (nothing
    pending), in any order, the result is [B, A, C]. *)
Theorem defaultSorter_order :
  (∀ bs, _defaultSorter bs ≡ₚ bs)
  ∧ (∀ bs, StronglySorted (λ a b, ¬ sorts_before b a) (_defaultSorter bs))
  ∧ (∀ bs front c back a,
       _defaultSorter bs = front ++ c :: back → a ∈ back →
       get_highest_priority c = None → getOldestRequestTime c = None →
       get_highest_priority a = None)
  ∧ (∀ bs, bs ≡ₚ [bldrA; bldrB; bldrC] → _defaultSorter bs = [bldrB; bldrA; bldrC]).
Proof.
  split_and!.
  - apply _defaultSorter_perm.
  - intros bs. eapply StronglySorted_mono; [|apply _defaultSorter_sorted].
    intros a b. apply key_le_not_before.
  - intros bs front c back a Hs Ha Hpc Htc.
    pose proof (_defaultSorter_sorted bs) as Hsorted. rewrite Hs in Hsorted.
    apply StronglySorted_app_1_r in Hsorted.
    apply StronglySorted_inv in Hsorted as [_ Hall].
    rewrite Forall_forall in Hall. specialize (Hall a Ha).
    apply key_le_not_before in Hall.
    destruct (get_highest_priority a) as [p|] eqn:Hpa; [|done].
    exfalso. apply Hall. left. unfold prio_of. by rewrite Hpc, Hpa.
  - intros bs Hperm.
    assert (bs ∈ permutations [bldrA; bldrB; bldrC]) as Hin.
    { by apply permutations_Permutation. }
    vm_compute in Hin.
    repeat (apply elem_of_cons in Hin as [->|Hin]; [by vm_compute|]).
    by apply elem_of_nil in Hin.
Qed.

(** C6 on concrete builders: the example in the order A, B, C, and two
    builders without pending requests behind one another. *)
Lemma defaultSorter_order_witness :
  _defaultSorter [bldrA; bldrB; bldrC] = [bldrB; bldrA; bldrC]
  ∧ get_highest_priority (mkBuilder "D" None None) = None.
Proof.
  destruct defaultSorter_order as (_ & _ & Hlast & Hex). split.
  - apply (Hex [bldrA; bldrB; bldrC]). reflexivity.
  - apply (Hlast [mkBuilder "D" None None; bldrC; bldrA] [bldrA] bldrC
                 [mkBuilder "D" None None] (mkBuilder "D" None None)).
    + vm_compute. reflexivity.
    + apply list_elem_of_singleton. reflexivity.
    + reflexivity.
    + reflexivity.
Defined.

End SorterFacts.

(** ** The build chooser *)

Module ChooserFacts.
Import PyList PyListFacts Chooser.

Lemma bind_inv {S A B} (m : M S A) (k : A → M S B) s r s' :
  bind m k s = (r, s') →
  ∃ r1 s1, m s = (r1, s1) ∧
    match r1 with
    | Ok a => k a s1 = (r, s')
    | Raise e => r = Raise e ∧ s' = s1
    | OutOfFuel => r = OutOfFuel ∧ s' = s1
    end.
Proof.
  unfold bind. destruct (m s) as [[a|e|] s1]; intros H; eexists _, _;
    (split; [done|]); by simplify_eq.
Qed.

(** Splits a hypothesis [bind m k c = (r, c')] into the run of [m] and,
    when [m] returned, the run of [k]. *)
Tactic Notation "minv" hyp(H) "as" ident(a) ident(c1) ident(H1) :=
  let r1 := fresh "r" in
  apply bind_inv in H as (r1 & c1 & H1 & H);
  destruct r1 as [a|?|];
    [|destruct H as [? ?]; try discriminate; subst..].

Local Arguments nextWorker_calls : simpl never.
Local Arguments fetch_calls : simpl never.

Section Facts.
Context {Env : Type} (K : Collab Env).
Implicit Types c : BC Env.

(** Number of policy invocations a chooser's world has seen. *)
Definition calls c : nat := nextWorker_calls (trace (world c)).

(** Only the world differs. *)
Definition same_attrs c c' : Prop :=
  unclaimedBrdicts c' = unclaimedBrdicts c
  ∧ breqCache c' = breqCache c
  ∧ workerpool c' = workerpool c
  ∧ preferredWorkers c' = preferredWorkers c.

(** The workers are untouched. *)
Definition same_workers c c' : Prop :=
  workerpool c' = workerpool c ∧ preferredWorkers c' = preferredWorkers c.

(** The trace of [c'] extends that of [c] by events satisfying [P]. *)
Definition extends (P : Event → Prop) c c' : Prop :=
  ∃ new, trace (world c') = trace (world c) ++ new ∧ Forall P new.

(** Closes [extends P c c'] once the trace of [c'] is explicit. *)
Ltac solve_extends :=
  unfold extends; simpl; rewrite <- ?app_assoc; simpl;
  first
    [ by exists []; rewrite app_nil_r
    | eexists [_]; split; [reflexivity|by repeat constructor]
    | eexists [_; _]; split; [reflexivity|by repeat constructor]
    | eexists [_; _; _]; split; [reflexivity|by repeat constructor] ].

Lemma extends_refl P c : extends P c c.
Proof. exists []. by rewrite app_nil_r. Qed.

Lemma extends_trans P c1 c2 c3 :
  extends P c1 c2 → extends P c2 c3 → extends P c1 c3.
Proof.
  intros (n1 & H1 & F1) (n2 & H2 & F2). exists (n1 ++ n2).
  rewrite H2, H1, app_assoc. split; [done|]. by apply Forall_app.
Qed.

Lemma extends_same_world P c c' : world c' = world c → extends P c c'.
Proof. intros Hw. exists []. by rewrite Hw, app_nil_r. Qed.

Lemma nextWorker_calls_cons ev t :
  nextWorker_calls (ev :: t)
  = ((if is_EvNextWorker ev then 1 else 0) + nextWorker_calls t)%nat.
Proof.
  unfold nextWorker_calls. rewrite filter_cons.
  destruct (is_EvNextWorker ev) eqn:E; case_decide; simpl; congruence.
Qed.

Lemma nextWorker_calls_app t1 t2 :
  nextWorker_calls (t1 ++ t2) = (nextWorker_calls t1 + nextWorker_calls t2)%nat.
Proof. unfold nextWorker_calls. by rewrite filter_app, length_app. Qed.

Lemma nextWorker_calls_none t :
  Forall (λ e, is_EvNextWorker e = false) t → nextWorker_calls t = 0%nat.
Proof.
  induction 1 as [|e t He _ IH]; [done|].
  by rewrite nextWorker_calls_cons, He, IH.
Qed.

Lemma extends_calls c c' :
  extends (λ e, is_EvNextWorker e = false) c c' → calls c' = calls c.
Proof.
  intros (new & Ht & Hall). unfold calls.
  rewrite Ht, nextWorker_calls_app, (nextWorker_calls_none new) by done. lia.
Qed.

Lemma call_inv {A} (ev : answer A → Event) f c (r : result A) c' :
  call ev f c = (r, c') →
  ∃ a e', f (env (world c)) = (a, e')
    ∧ c' = set_world (mkWorld e' (trace (world c) ++ [ev a])) c
    ∧ r = match a with Returns x => Ok x | Raises e => Raise e end.
Proof.
  unfold call. destruct (f (env (world c))) as [a e'].
  destruct a; intros [= <- <-]; by eexists _, _.
Qed.

Lemma call_same_attrs {A} (ev : answer A → Event) f c (r : result A) c' :
  call ev f c = (r, c') → same_attrs c c'.
Proof. intros (a & e' & _ & -> & _)%call_inv. by repeat split. Qed.

Lemma call_extends {A} (P : Event → Prop) (ev : answer A → Event) f c
    (r : result A) c' :
  (∀ a, P (ev a)) → call ev f c = (r, c') → extends P c c'.
Proof.
  intros HP (a & e' & _ & -> & _)%call_inv. exists [ev a]. split; [done|].
  by constructor.
Qed.

Lemma call_not_OutOfFuel {A} (ev : answer A → Event) f c c' :
  call ev f c ≠ (OutOfFuel, c').
Proof. intros (a & e' & _ & _ & Hr)%call_inv. by destruct a. Qed.

(** *** [_fetchUnclaimedBrdicts] *)

Definition by_id (a b : Brdict) : bool := buildrequestid a <? buildrequestid b.

Lemma fetch_cached c l :
  unclaimedBrdicts c = Some l → _fetchUnclaimedBrdicts K c = (Ok l, c).
Proof. intros H. unfold _fetchUnclaimedBrdicts, bind, get. by rewrite H. Qed.

Lemma fetch_uncached c :
  unclaimedBrdicts c = None →
  ∃ a e', data_get_buildrequests K (env (world c)) = (a, e')
    ∧ _fetchUnclaimedBrdicts K c =
      match a with
      | Returns stored =>
          (Ok (sort by_id stored),
           set_unclaimedBrdicts (Some (sort by_id stored))
             (set_world (mkWorld e' (trace (world c) ++ [EvFetch])) c))
      | Raises e =>
          (Raise e, set_world (mkWorld e' (trace (world c) ++ [EvFetch])) c)
      end.
Proof.
  intros H. unfold _fetchUnclaimedBrdicts, bind, get, call. rewrite H.
  destruct (data_get_buildrequests K (env (world c))) as [[stored|e] e'];
    by eexists _, _.
Qed.

Lemma fetch_spec c r c' :
  _fetchUnclaimedBrdicts K c = (r, c') →
  breqCache c' = breqCache c ∧ same_workers c c'
  ∧ extends (λ e, e = EvFetch) c c'
  ∧ match r with
    | Ok l => unclaimedBrdicts c' = Some l
    | Raise _ => unclaimedBrdicts c = None ∧ unclaimedBrdicts c' = None
    | OutOfFuel => False
    end.
Proof.
  destruct (unclaimedBrdicts c) as [l|] eqn:Hu.
  - rewrite (fetch_cached _ _ Hu). intros [= <- <-].
    repeat split; auto using extends_refl.
  - destruct (fetch_uncached _ Hu) as (a & e' & _ & ->).
    destruct a; intros [= <- <-]; simpl; repeat split; try done;
      exists [EvFetch]; split; try done; by constructor.
Qed.

(** *** Resolving requests *)

(** The calls made while picking a request. *)
Definition is_request_event (e : Event) : bool :=
  match e with
  | EvFetch | EvGetBuilder _ | EvFromBrdict _ | EvNextBuild _ => true
  | _ => false
  end.

(** The calls made while picking a worker. *)
Definition is_worker_event (e : Event) : bool :=
  match e with
  | EvNextWorker _ _ | EvCanStartBuild _ _ _ => true
  | _ => false
  end.

Lemma extends_mono (P Q : Event → Prop) c c' :
  (∀ e, P e → Q e) → extends P c c' → extends Q c c'.
Proof.
  intros HPQ (new & Ht & Hall). exists new. split; [done|].
  eapply Forall_impl; eauto.
Qed.

Lemma fetch_extends c r c' :
  _fetchUnclaimedBrdicts K c = (r, c') →
  extends (λ e, is_request_event e = true) c c'.
Proof.
  intros (_ & _ & Hext & _)%fetch_spec.
  eapply extends_mono; [|done]. by intros e ->.
Qed.

(** The resolved-request memo only ever maps an id to a request of that
    id. *)
Definition memo_ok c : Prop :=
  ∀ k b, breqCache c !! k = Some b → id b = k.

(** [BuildRequest.fromBrdict] builds a request with the id of its model. *)
Definition fromBrdict_keeps_id : Prop :=
  ∀ m e b e', fromBrdict K m e = (Returns (Some b), e') → id b = m_buildrequestid m.

Lemma getBuildRequestForBrdict_spec d c r c' :
  _getBuildRequestForBrdict K d c = (r, c') →
  unclaimedBrdicts c' = unclaimedBrdicts c ∧ same_workers c c'
  ∧ extends (λ e, is_request_event e = true) c c'
  ∧ r ≠ OutOfFuel
  ∧ (∀ k, k ≠ buildrequestid d → breqCache c' !! k = breqCache c !! k)
  ∧ (∀ b, r = Ok (Some b) → breqCache c' !! buildrequestid d = Some b)
  ∧ (breqCache c !! buildrequestid d = None → breqCache c' !! buildrequestid d = None
     ∨ ∃ b m e e', fromBrdict K m e = (Returns (Some b), e')
         ∧ m_buildrequestid m = buildrequestid d
         ∧ breqCache c' !! buildrequestid d = Some b)
  ∧ (is_Some (breqCache c !! buildrequestid d) → c' = c).
Proof.
  unfold _getBuildRequestForBrdict, bind, get, call, ret, modify.
  destruct (breqCache c !! buildrequestid d) as [b0|] eqn:Hc.
  { intros [= <- <-]. repeat split; auto using extends_refl.
    - by intros b [= <-].
    - by intros. }
  destruct (data_get_builder K (builderid d) (env (world c)))
    as [[[name|]|e] e1] eqn:Hgb; simpl.
  - destruct (fromBrdict K (model_of d name) e1) as [[[b|]|e] e2] eqn:Hfb;
      simpl; intros [= <- <-]; simpl.
    + split_and!; try done; try solve_extends;
        try (intros k Hk; by rewrite lookup_insert_ne);
        try (intros b' [= <-]; by rewrite lookup_insert_eq);
        try (intros _; right; exists b, (model_of d name), e1, e2;
             by rewrite lookup_insert_eq);
        try (rewrite ?Hc; by intros [? ?]).
    + split_and!; try done; try solve_extends; auto;
        try (rewrite ?Hc; by intros [? ?]).
    + split_and!; try done; try solve_extends; auto;
        try (rewrite ?Hc; by intros [? ?]).
  - intros [= <- <-]; simpl.
    split_and!; try done; try solve_extends; auto;
      try (rewrite ?Hc; by intros [? ?]).
  - intros [= <- <-]; simpl.
    split_and!; try done; try solve_extends; auto;
      try (rewrite ?Hc; by intros [? ?]).
Qed.

(** The ids of the cached request dictionaries. *)
Definition cached_ids c : list Z := buildrequestid <$> cached c.

Lemma getBuildRequestForBrdict_memo_ok d c r c' :
  fromBrdict_keeps_id → memo_ok c →
  _getBuildRequestForBrdict K d c = (r, c') →
  memo_ok c' ∧ (∀ b, r = Ok (Some b) → id b = buildrequestid d).
Proof.
  intros Hid Hok (_ & _ & _ & _ & Hother & Hres & Hnew & Hhit)%getBuildRequestForBrdict_spec.
  assert (memo_ok c') as Hok'.
  { intros k b Hk. destruct (decide (k = buildrequestid d)) as [->|Hne].
    - destruct (breqCache c !! buildrequestid d) as [b0|] eqn:Hc.
      + rewrite Hhit in Hk by done. by apply Hok.
      + destruct (Hnew eq_refl) as [Hn|(b1 & m & e & e' & Hfb & Hm & Hb1)];
          [congruence|].
        rewrite Hk in Hb1. injection Hb1 as <-. rewrite <- Hm. by eapply Hid.
    - rewrite Hother in Hk by done. by apply Hok. }
  split; [done|]. intros b Hb. apply Hok'. by apply Hres.
Qed.

Lemma resolve_each_spec l c rs c' :
  resolve_each K l c = (rs, c') →
  length rs = length l
  ∧ unclaimedBrdicts c' = unclaimedBrdicts c ∧ same_workers c c'
  ∧ extends (λ e, is_request_event e = true) c c'
  ∧ Forall (λ r, r ≠ OutOfFuel) rs
  ∧ (∀ k, k ∉ buildrequestid <$> l → breqCache c' !! k = breqCache c !! k).
Proof.
  revert c rs c'. induction l as [|d l IH]; intros c rs c'; simpl.
  - intros [= <- <-]. split_and!; try done. apply extends_refl.
  - destruct (_getBuildRequestForBrdict K d c) as [r c1] eqn:H1.
    destruct (resolve_each K l c1) as [rs1 c2] eqn:H2.
    intros [= <- <-].
    apply getBuildRequestForBrdict_spec in H1
      as (Hu1 & [Hp1 Hf1] & He1 & Hr1 & Hother1 & _).
    apply IH in H2 as (Hlen & Hu2 & [Hp2 Hf2] & He2 & Hrs & Hother2).
    split_and!; simpl; try congruence.
    + split; congruence.
    + by eapply extends_trans.
    + by constructor.
    + intros k Hk. apply not_elem_of_cons in Hk as [Hk1 Hk2].
      by rewrite Hother2, Hother1.
Qed.

Lemma resolve_each_memo_ok l c rs c' :
  fromBrdict_keeps_id → memo_ok c →
  resolve_each K l c = (rs, c') →
  memo_ok c' ∧ (∀ b, Ok (Some b) ∈ rs → id b ∈ buildrequestid <$> l).
Proof.
  intros Hid. revert c rs c'. induction l as [|d l IH]; intros c rs c' Hok; simpl.
  - intros [= <- <-]. split; [done|]. by intros b ?%elem_of_nil.
  - destruct (_getBuildRequestForBrdict K d c) as [r c1] eqn:H1.
    destruct (resolve_each K l c1) as [rs1 c2] eqn:H2.
    intros [= <- <-].
    apply getBuildRequestForBrdict_memo_ok in H1 as [Hok1 Hr]; [|done..].
    apply IH in H2 as [Hok2 Hrs]; [|done].
    split; [done|]. intros b [Hb|Hb]%elem_of_cons.
    + rewrite (Hr b) by done. apply elem_of_cons. by left.
    + apply elem_of_cons. right. by apply Hrs.
Qed.

Lemma gatherResults_Ok {A} (rs : list (result A)) (l : list A) :
  gatherResults rs = Ok l ↔ rs = Ok <$> l.
Proof.
  revert l. induction rs as [|[a|e|] rs IH]; intros l; simpl.
  - split; [by intros [= <-]|]. by destruct l.
  - destruct (gatherResults rs) as [l'|e|] eqn:Hg.
    + split.
      * intros [= <-]. simpl. f_equal. by apply IH.
      * destruct l as [|a' l]; [done|]. intros [= -> Hrs]. f_equal. f_equal.
        apply IH in Hrs. congruence.
    + split; [done|]. destruct l as [|a' l]; [done|].
      intros [= -> Hrs]. by apply IH in Hrs.
    + split; [done|]. destruct l as [|a' l]; [done|].
      intros [= -> Hrs]. by apply IH in Hrs.
  - split; [done|]. by destruct l.
  - split; [done|]. by destruct l.
Qed.

Lemma gatherResults_all_Ok {A} (rs : list (result A)) :
  Forall (λ r, ∃ a, r = Ok a) rs → ∃ l, gatherResults rs = Ok l.
Proof.
  induction 1 as [|r rs [a ->] _ [l IH]]; simpl; [by eexists|].
  rewrite IH. by eexists.
Qed.

Lemma gatherResults_first_Raise {A} (rs : list (result A)) i e :
  rs !! i = Some (Raise e) →
  (∀ j r, (j < i)%nat → rs !! j = Some r → ∃ a, r = Ok a) →
  gatherResults rs = Raise e.
Proof.
  revert i. induction rs as [|r rs IH]; intros i Hi Hbefore; [done|].
  destruct i as [|i]; simpl in *.
  - by injection Hi as ->.
  - destruct (Hbefore 0%nat r) as [a ->]; [lia|done|].
    rewrite (IH i); [done|done|].
    intros j r' Hj Hr'. apply (Hbefore (S j)); [lia|done].
Qed.

Lemma gatherResults_not_OutOfFuel {A} (rs : list (result A)) :
  Forall (λ r, r ≠ OutOfFuel) rs → gatherResults rs ≠ OutOfFuel.
Proof.
  induction 1 as [|r rs Hr _ IH]; simpl; [done|].
  destruct r; [|done..]. by destruct (gatherResults rs).
Qed.

Lemma getUnclaimedBuildRequests_spec c r c' :
  _getUnclaimedBuildRequests K c = (r, c') →
  unclaimedBrdicts c' = unclaimedBrdicts c ∧ same_workers c c'
  ∧ extends (λ e, is_request_event e = true) c c'
  ∧ r ≠ OutOfFuel
  ∧ (∀ k, k ∉ cached_ids c → breqCache c' !! k = breqCache c !! k).
Proof.
  unfold _getUnclaimedBuildRequests, cached_ids, cached.
  destruct (unclaimedBrdicts c) as [l|] eqn:Hu; simpl.
  - destruct (resolve_each K l c) as [rs c1] eqn:H1. intros [= <- <-].
    apply resolve_each_spec in H1 as (_ & Hu1 & Hw & He & Hrs & Hother).
    split_and!; try done; [congruence|]. by apply gatherResults_not_OutOfFuel.
  - intros [= <- <-]. split_and!; try done. apply extends_refl.
Qed.

Lemma getUnclaimedBuildRequests_memo_ok c r c' :
  fromBrdict_keeps_id → memo_ok c →
  _getUnclaimedBuildRequests K c = (r, c') →
  memo_ok c' ∧ (∀ breqs b, r = Ok breqs → Some b ∈ breqs → id b ∈ cached_ids c).
Proof.
  intros Hid Hok. unfold _getUnclaimedBuildRequests, cached_ids, cached.
  destruct (unclaimedBrdicts c) as [l|] eqn:Hu; simpl.
  - destruct (resolve_each K l c) as [rs c1] eqn:H1. intros [= <- <-].
    apply resolve_each_memo_ok in H1 as [Hok1 Hrs]; [|done..].
    split; [done|]. intros breqs b Hg Hb. apply Hrs.
    apply gatherResults_Ok in Hg as ->. by apply list_elem_of_fmap_2.
  - by intros [= <- <-].
Qed.

Lemma by_priority_desc_elem_of d l : d ∈ by_priority_desc l ↔ d ∈ l.
Proof. unfold by_priority_desc. by rewrite sort_Permutation. Qed.

Lemma getNextUnclaimedBuildRequest_spec c r c' :
  _getNextUnclaimedBuildRequest K c = (r, c') →
  same_workers c c'
  ∧ extends (λ e, is_request_event e = true) c c'
  ∧ r ≠ OutOfFuel
  ∧ unclaimedBrdicts c' = unclaimedBrdicts (_fetchUnclaimedBrdicts K c).2
  ∧ (∀ k, k ∉ cached_ids c' → breqCache c' !! k = breqCache c !! k)
  ∧ (∀ b, r = Ok (Some b) → is_Some (unclaimedBrdicts c') ∧ cached c' ≠ []).
Proof.
  unfold _getNextUnclaimedBuildRequest. intros H.
  minv H as l c1 Hf; rewrite Hf; simpl;
    pose proof (fetch_spec _ _ _ Hf) as (Hb1 & Hw1 & He1 & Hr1);
    pose proof (fetch_extends _ _ _ Hf) as He1';
    [|split_and!; try done; intros; congruence..].
  destruct l as [|d0 l0].
  { injection H as <- <-. split_and!; try done. intros; congruence. }
  destruct (config_nextBuild K) as [nextBuild|].
  - minv H as breqs c2 Hg;
      apply getUnclaimedBuildRequests_spec in Hg
        as (Hu2 & Hw2 & He2 & Hr2 & Hother2).
    + assert (same_workers c c' ∧ extends (λ e, is_request_event e = true) c2 c'
              ∧ r ≠ OutOfFuel ∧ unclaimedBrdicts c' = unclaimedBrdicts c2
              ∧ breqCache c' = breqCache c2) as (Hw3 & He3 & Hr3 & Hu3 & Hb3).
      { revert H. unfold try_except, bind, call, ret.
        destruct (nextBuild breqs (env (world c2))) as [[nb|e] e']; simpl;
          [destruct (mem nb breqs)|]; intros [= <- <-]; simpl;
          (split_and!; [destruct Hw1, Hw2; split; simpl; congruence
                       | solve_extends |done..]). }
      split_and!.
      * done.
      * by eapply extends_trans; [|exact He3]; eapply extends_trans.
      * done.
      * congruence.
      * intros k Hk. rewrite Hb3, Hother2, Hb1; [done|].
        unfold cached_ids, cached in *. by rewrite <- Hu2, <- Hu3.
      * intros _ _. unfold cached. rewrite Hu3, Hu2, Hr1. simpl. by split.
    + split_and!.
      * destruct Hw1, Hw2; split; congruence.
      * by eapply extends_trans.
      * done.
      * congruence.
      * intros k Hk. rewrite Hother2, Hb1; [done|].
        unfold cached_ids, cached in *. by rewrite <- Hu2.
      * done.
    + done.
  - destruct (by_priority_desc (d0 :: l0)) as [|d l'] eqn:Hs.
    { injection H as <- <-. split_and!; try done. intros; congruence. }
    apply getBuildRequestForBrdict_spec in H
      as (Hu2 & Hw2 & He2 & Hr2 & Hother2 & _).
    split_and!.
    + destruct Hw1, Hw2; split; congruence.
    + by eapply extends_trans.
    + done.
    + congruence.
    + intros k Hk. rewrite Hother2, Hb1; [done|].
      intros ->. apply Hk. unfold cached_ids, cached. rewrite Hu2, Hr1.
      change (buildrequestid d ∈ buildrequestid <$> (d0 :: l0)).
      apply list_elem_of_fmap_2. apply by_priority_desc_elem_of.
      rewrite Hs. by left.
    + intros _ _. unfold cached. rewrite Hu2, Hr1. simpl. by split.
Qed.

Lemma getNextUnclaimedBuildRequest_memo_ok c r c' :
  fromBrdict_keeps_id → memo_ok c →
  _getNextUnclaimedBuildRequest K c = (r, c') →
  memo_ok c' ∧ (∀ b, r = Ok (Some b) → id b ∈ cached_ids c').
Proof.
  intros Hid Hok H.
  pose proof (getNextUnclaimedBuildRequest_spec _ _ _ H) as (_ & _ & _ & Hu & _).
  revert H. unfold _getNextUnclaimedBuildRequest. intros H.
  minv H as l c1 Hf; rewrite Hf in Hu; simpl in Hu;
    pose proof (fetch_spec _ _ _ Hf) as (Hb1 & Hw1 & He1 & Hr1);
    (assert (memo_ok c1) as Hok1 by (unfold memo_ok; by rewrite Hb1));
    [|done..].
  assert (cached_ids c' = buildrequestid <$> l) as Hids.
  { unfold cached_ids, cached. by rewrite Hu, Hr1. }
  destruct l as [|d0 l0]; [by injection H as <- <-|].
  destruct (config_nextBuild K) as [nextBuild|].
  - minv H as breqs c2 Hg;
      apply getUnclaimedBuildRequests_memo_ok in Hg as [Hok2 Hin]; [|done..].
    assert (breqCache c' = breqCache c2
              ∧ ∀ b, r = Ok (Some b) → Some b ∈ breqs) as [Hb3 Hsel].
      { revert H. unfold try_except, bind, call, ret.
        destruct (nextBuild breqs (env (world c2))) as [[nb|e] e']; simpl;
          [destruct (mem nb breqs) eqn:Hmem|]; intros [= <- <-];
          (split; [done|]); intros b [= ->]. unfold mem in Hmem.
        by apply bool_decide_eq_true in Hmem. }
      split; [unfold memo_ok; by rewrite Hb3|].
      intros b Hb. rewrite Hids. unfold cached_ids, cached in Hin.
      rewrite Hr1 in Hin. eapply Hin; [done|]. by apply Hsel.
  - destruct (by_priority_desc (d0 :: l0)) as [|d l'] eqn:Hs;
      [by injection H as <- <-|].
    apply getBuildRequestForBrdict_memo_ok in H as [Hok2 Hb]; [|done..].
    split; [done|]. intros b Hr. rewrite (Hb b Hr), Hids.
    apply list_elem_of_fmap_2. apply by_priority_desc_elem_of.
    rewrite Hs. by left.
Qed.

(** *** Picking a worker *)

(** The state after the policy was asked for a worker from the pool. *)
Definition asked (b : BuildRequest) (e' : Env) c : BC Env :=
  set_world (mkWorld e' (trace (world c) ++ [EvNextWorker (workerpool c) (id b)])) c.

(** What [_popNextWorker] does, case by case: the head of the preferred
    list; nothing from an empty pool; or one answer of the policy, used
    when it names a worker of the pool. *)
Inductive popNextWorker_run (b : BuildRequest) c
    : option Worker → BC Env → Prop :=
| pop_preferred w rest :
    preferredWorkers c = w :: rest →
    popNextWorker_run b c (Some w) (set_preferredWorkers rest c)
| pop_empty :
    preferredWorkers c = [] → workerpool c = [] →
    popNextWorker_run b c None c
| pop_drawn a e' w :
    preferredWorkers c = [] → workerpool c ≠ [] →
    nextWorker K (workerpool c) b (env (world c)) = (a, e') →
    a = Returns (Some w) → w ∈ workerpool c →
    popNextWorker_run b c (Some w)
      (set_workerpool (remove_first w (workerpool c)) (asked b e' c))
| pop_failed a e' :
    preferredWorkers c = [] → workerpool c ≠ [] →
    nextWorker K (workerpool c) b (env (world c)) = (a, e') →
    (∀ w, a = Returns (Some w) → w ∉ workerpool c) →
    popNextWorker_run b c None (asked b e' c).

Lemma popNextWorker_spec b c r c' :
  _popNextWorker K b c = (r, c') →
  ∃ wo, r = Ok wo ∧ popNextWorker_run b c wo c'.
Proof.
  unfold _popNextWorker, bind, get, modify, ret, try_except, call.
  destruct (preferredWorkers c) as [|w rest] eqn:Hpref.
  2:{ intros [= <- <-]. eexists. split; [done|]. by constructor. }
  destruct (workerpool c) as [|w0 pool] eqn:Hpool.
  { intros [= <- <-]. eexists. split; [done|]. by constructor. }
  destruct (nextWorker K (w0 :: pool) b (env (world c))) as [[[w|]|e] e'] eqn:Hn;
    simpl.
  - unfold mem. case_bool_decide as Hin; intros [= <- <-];
      (eexists; split; [done|]); rewrite <- Hpool in Hn, Hin |- *.
    + eapply pop_drawn; eauto. by rewrite Hpool.
    + eapply pop_failed; eauto; [by rewrite Hpool|].
      intros w' [= <-]. done.
  - intros [= <- <-]. eexists; split; [done|]. rewrite <- Hpool in Hn |- *.
    eapply pop_failed; eauto; [by rewrite Hpool|]. by intros w' [=].
  - intros [= <- <-]. eexists; split; [done|]. rewrite <- Hpool in Hn |- *.
    eapply pop_failed; eauto; [by rewrite Hpool|]. by intros w' [=].
Qed.

Lemma popNextWorker_frame b c wo c' :
  popNextWorker_run b c wo c' →
  unclaimedBrdicts c' = unclaimedBrdicts c ∧ breqCache c' = breqCache c
  ∧ extends (λ e, is_worker_event e = true) c c'.
Proof. destruct 1; split_and!; try done; solve_extends. Qed.

(** A worker that is handed out leaves the preferred list or the pool. *)
Lemma popNextWorker_workers_left b c w c' :
  popNextWorker_run b c (Some w) c' → S (workers_left c') = workers_left c.
Proof.
  inversion 1 as [w' rest Hp| |a e' w' Hp Hne Hn Ha Hin|]; subst;
    unfold workers_left; simpl.
  - by rewrite Hp.
  - rewrite Hp. simpl. by apply remove_first_length_in.
Qed.

Lemma calls_asked b e' c : calls (asked b e' c) = S (calls c).
Proof.
  unfold calls, asked. simpl. rewrite nextWorker_calls_app, nextWorker_calls_cons.
  simpl. unfold nextWorker_calls at 2. simpl. lia.
Qed.

Lemma calls_set_workerpool v c : calls (set_workerpool v c) = calls c.
Proof. done. Qed.

Lemma calls_set_preferredWorkers v c : calls (set_preferredWorkers v c) = calls c.
Proof. done. Qed.

(** The policy is asked only when the preferred list is empty, and at most
    once. *)
Lemma popNextWorker_calls b c wo c' :
  popNextWorker_run b c wo c' →
  calls c' = calls c
  ∨ (calls c' = S (calls c) ∧ preferredWorkers c = [] ∧ workerpool c ≠ []).
Proof.
  destruct 1; rewrite ?calls_set_workerpool, ?calls_set_preferredWorkers,
    ?calls_asked; auto.
Qed.

(** Invocations of the policy plus workers left in the pool. *)
Definition pot c : nat := (calls c + length (workerpool c))%nat.

Lemma popNextWorker_pot_Some b c w c' :
  popNextWorker_run b c (Some w) c' → pot c' = pot c.
Proof.
  inversion 1 as [w' rest Hp| |a e' w' Hp Hne Hn Ha Hin|]; subst; unfold pot.
  - by rewrite calls_set_preferredWorkers.
  - rewrite calls_set_workerpool, calls_asked.
    apply remove_first_length_in in Hin.
    change (workerpool (set_workerpool ?v _)) with v. lia.
Qed.

Lemma popNextWorker_pot_None b c c' :
  popNextWorker_run b c None c' →
  preferredWorkers c' = []
  ∧ (pot c' = pot c ∨ (pot c' = S (pot c) ∧ workerpool c' ≠ [])).
Proof.
  inversion 1; subst; unfold pot; [by auto|].
  rewrite calls_asked. split; [done|]. right. by split.
Qed.

(** *** Removing a request from the caches *)

(** What [_removeBuildRequest] leaves of the cached dictionaries: the first
    dictionary with the request's id is dropped. *)
Definition forget (x : Z) (l : list Brdict) : list Brdict :=
  match List.find (λ d, bool_decide (x = buildrequestid d)) l with
  | Some d => remove_first d l
  | None => l
  end.

Lemma remove_first_sublist {A} `{EqDecision A} (x : A) l :
  remove_first x l `sublist_of` l.
Proof.
  induction l as [|y l IH]; simpl; [done|].
  destruct (decide (x = y)); [by apply sublist_cons|by apply sublist_skip].
Qed.

Lemma forget_sublist x l : forget x l `sublist_of` l.
Proof.
  unfold forget. destruct (List.find _ l); [apply remove_first_sublist|done].
Qed.

Lemma forget_length_le x l : (length (forget x l) ≤ length l)%nat.
Proof. apply sublist_length, forget_sublist. Qed.

Lemma forget_ids x y l :
  y ∈ buildrequestid <$> forget x l → y ∈ buildrequestid <$> l.
Proof.
  intros Hy. eapply elem_of_sublist; [done|].
  apply fmap_sublist, forget_sublist.
Qed.

Lemma forget_NoDup x l :
  NoDup (buildrequestid <$> l) → NoDup (buildrequestid <$> forget x l).
Proof.
  intros Hnd. eapply sublist_NoDup; [done|]. apply fmap_sublist, forget_sublist.
Qed.

Lemma forget_length_in x l :
  x ∈ buildrequestid <$> l → S (length (forget x l)) = length l.
Proof.
  intros (d & -> & Hd)%list_elem_of_fmap. unfold forget.
  destruct (List.find _ l) as [d'|] eqn:Hf.
  - apply find_some in Hf as [Hin _]. apply remove_first_length_in.
    by apply list_elem_of_In.
  - eapply find_none in Hf; [|by apply list_elem_of_In].
    by apply bool_decide_eq_false in Hf.
Qed.

Lemma forget_notin x l :
  NoDup (buildrequestid <$> l) → x ∉ buildrequestid <$> forget x l.
Proof.
  intros Hnd. unfold forget.
  destruct (List.find _ l) as [d|] eqn:Hf.
  - apply find_some in Hf as [Hin Hx]. apply bool_decide_eq_true in Hx as ->.
    apply remove_first_fmap_notin; [|done]. by apply list_elem_of_In.
  - intros (d & -> & Hd)%list_elem_of_fmap.
    eapply find_none in Hf; [|by apply list_elem_of_In].
    by apply bool_decide_eq_false in Hf.
Qed.

(** The caches after [_removeBuildRequest(breq)]. *)
Definition removed (b : BuildRequest) c : BC Env :=
  set_breqCache (delete (id b) (breqCache c))
    (set_unclaimedBrdicts (forget (id b) <$> unclaimedBrdicts c) c).

Lemma removeBuildRequest_removed b c :
  is_Some (unclaimedBrdicts c) →
  _removeBuildRequest (Some b) c = (Ok tt, removed b c).
Proof.
  destruct c as [u m p f w]. intros [l Hl]. simpl in Hl. subst u.
  unfold _removeBuildRequest, _getBrdictForBuildRequest, bind, get, modify,
    ret, raise, removed, forget. simpl.
  by destruct (List.find _ l).
Qed.

Lemma removeBuildRequest_spec b c r c' :
  _removeBuildRequest (Some b) c = (r, c') →
  same_workers c c' ∧ world c' = world c
  ∧ match unclaimedBrdicts c with
    | None => r = Raise "TypeError" ∧ c' = c
    | Some l =>
        r = Ok tt
        ∧ unclaimedBrdicts c' = Some (forget (id b) l)
        ∧ breqCache c' = delete (id b) (breqCache c)
    end.
Proof.
  unfold _removeBuildRequest, _getBrdictForBuildRequest, bind, get, modify,
    ret, raise, forget.
  destruct (unclaimedBrdicts c) as [l|] eqn:Hu; simpl.
  - destruct (List.find _ l) as [d|]; simpl; intros [= <- <-]; simpl;
      rewrite ?Hu; by split_and!.
  - intros [= <- <-]. by split_and!.
Qed.

(** *** The loop [while worker] *)

(** The state after the builder was asked whether [w] can start [b]. *)
Definition checked (w : Worker) (b : BuildRequest) (a : answer bool) (e' : Env) c
    : BC Env :=
  set_world
    (mkWorld e' (trace (world c) ++ [EvCanStartBuild w (id b) (answered a)])) c.

Lemma canStartBuild_spec w b c r c' :
  canStartBuild K w b c = (r, c') →
  ∃ a e', bldr_canStartBuild K w b (env (world c)) = (a, e')
    ∧ c' = checked w b a e' c
    ∧ r = match a with Returns x => Ok x | Raises e => Raise e end.
Proof. apply call_inv. Qed.

(** The runs of the loop [while worker] of [popNextBuild]. *)
Inductive find_usable_run (b : BuildRequest)
    : option Worker → list Worker → BC Env →
      result (option Worker * list Worker) → BC Env → Prop :=
| fu_none rec c :
    find_usable_run b None rec c (Ok (None, rec)) c
| fu_accept w rec c e' :
    bldr_canStartBuild K w b (env (world c)) = (Returns true, e') →
    find_usable_run b (Some w) rec c (Ok (Some w, rec))
      (checked w b (Returns true) e' c)
| fu_raise w rec c e e' :
    bldr_canStartBuild K w b (env (world c)) = (Raises e, e') →
    find_usable_run b (Some w) rec c (Raise e) (checked w b (Raises e) e' c)
| fu_reject w rec c e' wo c2 r c3 :
    bldr_canStartBuild K w b (env (world c)) = (Returns false, e') →
    popNextWorker_run b (checked w b (Returns false) e' c) wo c2 →
    find_usable_run b wo (rec ++ [w]) c2 r c3 →
    find_usable_run b (Some w) rec c r c3.

Lemma find_usable_worker_run fuel b wo rec c r c' :
  find_usable_worker K fuel b wo rec c = (r, c') →
  r = OutOfFuel ∨ find_usable_run b wo rec c r c'.
Proof.
  revert wo rec c. induction fuel as [|fuel IH]; intros wo rec c; simpl.
  - destruct wo as [w|].
    + intros [= <- <-]. by left.
    + intros [= <- <-]. right. constructor.
  - destruct wo as [w|]; [|intros [= <- <-]; right; constructor].
    intros H. minv H as canStart c1 Hc.
    + apply canStartBuild_spec in Hc as (a & e' & Ha & -> & Hr).
      destruct a as [x|]; [injection Hr as <-|done].
      destruct canStart.
      * injection H as <- <-. right. by constructor.
      * minv H as wo' c2 Hp;
          apply popNextWorker_spec in Hp as (wo2 & Hwo & Hrun); [|done..].
        injection Hwo as <-.
        apply IH in H as [->|H]; [by left|]. right. by econstructor.
    + apply canStartBuild_spec in Hc as (a & e' & Ha & -> & Hr).
      destruct a as [x|e1]; [done|]. injection Hr as ->. right.
      by constructor.
    + by apply call_not_OutOfFuel in Hc.
Qed.

Lemma workers_left_checked w b a e' c :
  workers_left (checked w b a e' c) = workers_left c.
Proof. done. Qed.

(** The loop ends within the fuel [popNextBuild] gives it. *)
Lemma find_usable_worker_fuel fuel b w rec c r c' :
  (workers_left c < fuel)%nat →
  find_usable_worker K fuel b (Some w) rec c = (r, c') → r ≠ OutOfFuel.
Proof.
  revert w rec c. induction fuel as [|fuel IH]; intros w rec c Hlt; [lia|].
  simpl. intros H. minv H as canStart c1 Hc; [| done |].
  - apply canStartBuild_spec in Hc as (a & e' & Ha & -> & Hr).
    destruct canStart; [by injection H as <- <-|].
    minv H as wo' c2 Hp;
      apply popNextWorker_spec in Hp as (wo2 & Hwo & Hrun); [|done..].
    injection Hwo as <-. destruct wo' as [w'|].
    + apply IH in H; [done|].
      apply popNextWorker_workers_left in Hrun.
      rewrite workers_left_checked in Hrun. lia.
    + destruct fuel; simpl in H; by injection H as <- <-.
  - by apply call_not_OutOfFuel in Hc.
Qed.

(** The workers [canStartBuild] turned down, in the order of the calls. *)
Fixpoint rejected_of (t : list Event) : list Worker :=
  match t with
  | [] => []
  | EvCanStartBuild w _ (Some false) :: t' => w :: rejected_of t'
  | _ :: t' => rejected_of t'
  end.

(** The workers offered to [canStartBuild] before the first invocation of
    the next-worker policy; [None] when the policy is not invoked at all. *)
Fixpoint offered_before_call (t : list Event) : option (list Worker) :=
  match t with
  | [] => None
  | EvNextWorker _ _ :: _ => Some []
  | EvCanStartBuild w _ _ :: t' => (w ::.) <$> offered_before_call t'
  | _ :: t' => offered_before_call t'
  end.

Lemma rejected_of_app t1 t2 :
  rejected_of (t1 ++ t2) = rejected_of t1 ++ rejected_of t2.
Proof.
  induction t1 as [|e t1 IH]; [done|]. destruct e; simpl; try done.
  destruct canStart as [[]|]; simpl; by rewrite ?IH.
Qed.



Lemma find_usable_run_None b rec c r c' :
  find_usable_run b None rec c r c' → r = Ok (None, rec) ∧ c' = c.
Proof. by inversion 1. Qed.

Lemma popNextWorker_trace b c wo c' :
  popNextWorker_run b c wo c' →
  (trace (world c') = trace (world c) ∧ workerpool c' = workerpool c
   ∧ (wo = None → preferredWorkers c = [] ∧ c' = c)
   ∧ (∀ w, wo = Some w → preferredWorkers c = w :: preferredWorkers c'))
  ∨ (trace (world c') = trace (world c) ++ [EvNextWorker (workerpool c) (id b)]
     ∧ preferredWorkers c = [] ∧ preferredWorkers c' = []).
Proof.
  destruct 1; simpl; [left|left|right|right]; split_and!; try done.
  intros ? [= <-]. done.
Qed.

Lemma find_usable_run_frame b wo rec c r c' :
  find_usable_run b wo rec c r c' →
  unclaimedBrdicts c' = unclaimedBrdicts c ∧ breqCache c' = breqCache c
  ∧ extends (λ e, is_worker_event e = true) c c'.
Proof.
  induction 1 as [rec c|w rec c e' Ha|w rec c e e' Ha
                  |w rec c e' wo c2 r c3 Ha Hpop Hrun (IHu & IHb & IHe)].
  - split_and!; try done. apply extends_refl.
  - split_and!; try done. solve_extends.
  - split_and!; try done. solve_extends.
  - apply popNextWorker_frame in Hpop as (Hu & Hb & He). simpl in Hu, Hb.
    split_and!; [congruence..|].
    eapply extends_trans; [|exact IHe]. eapply extends_trans; [|exact He].
    solve_extends.
Qed.

Lemma pot_checked w b a e' c : pot (checked w b a e' c) = pot c.
Proof.
  unfold pot, calls, checked. simpl. rewrite nextWorker_calls_app.
  unfold nextWorker_calls at 2. simpl. lia.
Qed.

(** Every invocation of the policy in the loop takes a worker out of the
    pool, except possibly the last one, which ends the loop without a
    worker and with workers left in the pool. *)
Lemma find_usable_run_pot b wo rec c r c' :
  find_usable_run b wo rec c r c' →
  match r with
  | Ok (Some _, _) | Raise _ => pot c' = pot c
  | Ok (None, _) => pot c' = pot c ∨ (pot c' = S (pot c) ∧ workerpool c' ≠ [])
  | OutOfFuel => True
  end.
Proof.
  induction 1 as [rec c|w rec c e' Ha|w rec c e e' Ha
                  |w rec c e' wo c2 r c3 Ha Hpop Hrun IH].
  - by left.
  - apply pot_checked.
  - apply pot_checked.
  - destruct wo as [w'|].
    + apply popNextWorker_pot_Some in Hpop. rewrite pot_checked in Hpop.
      by rewrite <- Hpop.
    + apply find_usable_run_None in Hrun as [-> ->].
      apply popNextWorker_pot_None in Hpop as [_ Hpop].
      by rewrite pot_checked in Hpop.
Qed.

(** The recycled workers are those [canStartBuild] turned down, in order;
    the loop takes its workers from the front of the preferred list. *)
Lemma find_usable_run_recycled b wo rec c r c' :
  find_usable_run b wo rec c r c' →
  ∀ wo' rec', r = Ok (wo', rec') →
  ∃ new, trace (world c') = trace (world c) ++ new
    ∧ rec' = rec ++ rejected_of new
    ∧ preferredWorkers c' `suffix_of` preferredWorkers c
    ∧ (is_Some wo → wo' = None → preferredWorkers c' = [] ∧ rec' ≠ []).
Proof.
  induction 1 as [rec c|w rec c e' Ha|w rec c e e' Ha
                  |w rec c e' wo c2 r c3 Ha Hpop Hrun IH]; intros wo' rec' Hr.
  - injection Hr as <- <-. exists []. rewrite !app_nil_r.
    split_and!; [done..|]. by intros [? ?].
  - injection Hr as <- <-. exists [EvCanStartBuild w (id b) (Some true)].
    simpl. rewrite app_nil_r. split_and!; done.
  - done.
  - destruct (IH _ _ Hr) as (new & Ht & Hrec & Hsuf & Hnone).
    assert (preferredWorkers c2 `suffix_of` preferredWorkers c
            ∧ (wo = None → preferredWorkers c2 = [])
            ∧ ∃ n_pop, trace (world c2) =
                (trace (world c) ++ [EvCanStartBuild w (id b) (Some false)]) ++ n_pop
              ∧ rejected_of n_pop = []) as (Hsuf2 & Hwo & n_pop & Ht2 & Hrej).
    { apply popNextWorker_trace in Hpop
        as [(Ht2 & _ & Hn & Hs)|(Ht2 & Hp & Hp')]; simpl in *.
      - split_and!.
        + destruct wo as [w'|].
          * rewrite (Hs w' eq_refl). by apply suffix_cons_r.
          * destruct (Hn eq_refl) as [_ ->]. done.
        + intros Hw. by destruct (Hn Hw) as [? ->].
        + exists []. by rewrite app_nil_r.
      - split_and!; [rewrite Hp'; apply suffix_nil|done|]. by eexists [_]. }
    exists ([EvCanStartBuild w (id b) (Some false)] ++ n_pop ++ new).
    split_and!.
    + by rewrite Ht, Ht2, <- !app_assoc.
    + rewrite Hrec, !rejected_of_app, Hrej. simpl. by rewrite <- app_assoc.
    + by etrans.
    + intros _ Hwo'. split; [|rewrite Hrec; by destruct rec].
      destruct wo as [w'|]; [by apply Hnone|].
      apply find_usable_run_None in Hrun as [_ ->]. by apply Hwo.
Qed.


(** *** One round of [popNextBuild] *)

(** The pool is taken anew from the builder when both the pool and the
    preferred list are empty. *)
Definition refill c : BC Env :=
  match workerpool c, preferredWorkers c with
  | [], [] => set_workerpool (getAvailableWorkers K (env (world c))) c
  | _, _ => c
  end.

(** The preferred list after the recycled workers were put back. *)
Definition unpopped (recycledWorkers : list Worker) c : BC Env :=
  match recycledWorkers with
  | [] => c
  | _ :: _ =>
      set_preferredWorkers (recycledWorkers ++ preferredWorkers c) c
  end.

(** The runs of one round of the loop [while True] of [popNextBuild]. *)
Inductive body_run c
    : result (loop_ctl (option Worker * option BuildRequest)) → BC Env → Prop :=
| body_pick_raise e c1 :
    _getNextUnclaimedBuildRequest K c = (Raise e, c1) →
    body_run c (Raise e) c1
| body_no_request c1 :
    _getNextUnclaimedBuildRequest K c = (Ok None, c1) →
    body_run c (Ok (Break (None, None))) c1
| body_no_worker b c1 c2 :
    _getNextUnclaimedBuildRequest K c = (Ok (Some b), c1) →
    popNextWorker_run b (refill c1) None c2 →
    body_run c (Ok (Break (None, None))) c2
| body_paired b c1 w c2 w' rec c4 :
    _getNextUnclaimedBuildRequest K c = (Ok (Some b), c1) →
    popNextWorker_run b (refill c1) (Some w) c2 →
    find_usable_run b (Some w) [] (removed b c2) (Ok (Some w', rec)) c4 →
    body_run c (Ok (Break (Some w', Some b))) (unpopped rec c4)
| body_rejected b c1 w c2 rec c4 :
    _getNextUnclaimedBuildRequest K c = (Ok (Some b), c1) →
    popNextWorker_run b (refill c1) (Some w) c2 →
    find_usable_run b (Some w) [] (removed b c2) (Ok (None, rec)) c4 →
    body_run c (Ok Continue) (unpopped rec c4)
| body_check_raise b c1 w c2 e c4 :
    _getNextUnclaimedBuildRequest K c = (Ok (Some b), c1) →
    popNextWorker_run b (refill c1) (Some w) c2 →
    find_usable_run b (Some w) [] (removed b c2) (Raise e) c4 →
    body_run c (Raise e) c4.

Lemma popNextBuild_body_run c r c' :
  popNextBuild_body K c = (r, c') → body_run c r c'.
Proof.
  unfold popNextBuild_body. intros H.
  minv H as breq c1 Hg.
  - destruct breq as [b|]; [|injection H as <- <-; by constructor].
    pose proof (getNextUnclaimedBuildRequest_spec _ _ _ Hg)
      as (_ & _ & _ & _ & _ & Hsome).
    destruct (Hsome b eq_refl) as [[l Hl] _].
    minv H as u c1r Hr.
    assert (c1r = refill c1) as ->.
    { unfold modify in Hr. injection Hr as <-. unfold refill.
      by destruct (workerpool c1), (preferredWorkers c1). }
    minv H as wo c2 Hp;
      apply popNextWorker_spec in Hp as (wo2 & Hwo & Hpop); [|done..].
    injection Hwo as <-.
    destruct wo as [w|]; [|injection H as <- <-; by econstructor].
    assert (is_Some (unclaimedBrdicts c2)) as Hsome2.
    { apply popNextWorker_frame in Hpop as (-> & _). exists l. rewrite <- Hl.
      unfold refill. by destruct (workerpool c1), (preferredWorkers c1). }
    minv H as u2 c3 Hrm; rewrite removeBuildRequest_removed in Hrm by done;
      [|done..].
    injection Hrm as Heq. subst c3.
    minv H as g c3' Hget.
    injection Hget as <- <-.
    minv H as res c4 Hfu.
    + destruct res as [wo' rec].
      apply find_usable_worker_run in Hfu as [?|Hfu]; [done|].
      minv H as u3 c5 Hun.
      * assert (c5 = unpopped rec c4) as ->.
        { destruct rec; by injection Hun as <-. }
        destruct wo' as [w'|]; injection H as <- <-; by econstructor.
      * by destruct rec.
      * by destruct rec.
    + apply find_usable_worker_run in Hfu as [?|Hfu]; [done|].
      by econstructor.
    + apply find_usable_worker_fuel in Hfu; [done|]. lia.
  - by constructor.
  - by apply getNextUnclaimedBuildRequest_spec in Hg as (_ & _ & ? & _).
Qed.

Lemma unpopped_preferredWorkers rec c :
  preferredWorkers (unpopped rec c) = rec ++ preferredWorkers c.
Proof. by destruct rec. Qed.

Lemma unpopped_frame rec c :
  unclaimedBrdicts (unpopped rec c) = unclaimedBrdicts c
  ∧ breqCache (unpopped rec c) = breqCache c
  ∧ workerpool (unpopped rec c) = workerpool c
  ∧ world (unpopped rec c) = world c.
Proof. by destruct rec. Qed.

Lemma refill_frame c :
  unclaimedBrdicts (refill c) = unclaimedBrdicts c
  ∧ breqCache (refill c) = breqCache c
  ∧ preferredWorkers (refill c) = preferredWorkers c
  ∧ world (refill c) = world c.
Proof.
  unfold refill.
  by destruct (workerpool c) eqn:Hp, (preferredWorkers c) eqn:Hf.
Qed.

Lemma cached_removed b c :
  cached (removed b c) = forget (id b) (cached c) ∨ unclaimedBrdicts c = None.
Proof.
  unfold cached, removed. simpl. destruct (unclaimedBrdicts c); [by left|by right].
Qed.

(** What picking a request leaves untouched, and what it yields. *)
Lemma getNextUnclaimedBuildRequest_summary c r c1 :
  fromBrdict_keeps_id → memo_ok c →
  _getNextUnclaimedBuildRequest K c = (r, c1) →
  calls c1 = calls c ∧ same_workers c c1
  ∧ length (cached c1) = requests_left K c
  ∧ (is_Some (unclaimedBrdicts c) → unclaimedBrdicts c1 = unclaimedBrdicts c)
  ∧ memo_ok c1
  ∧ (∀ b, r = Ok (Some b) →
       is_Some (unclaimedBrdicts c1) ∧ id b ∈ cached_ids c1).
Proof.
  intros Hid Hok H.
  pose proof (getNextUnclaimedBuildRequest_spec _ _ _ H)
    as (Hw & He & _ & Hu & _ & Hsome).
  pose proof (getNextUnclaimedBuildRequest_memo_ok _ _ _ Hid Hok H) as [Hok1 Hin].
  split_and!; try done.
  - apply extends_calls. eapply extends_mono; [|done]. by intros [].
  - unfold requests_left, cached. by rewrite Hu.
  - intros [l Hl]. by rewrite Hu, (fetch_cached _ _ Hl).
  - intros b Hb. split; [by apply (Hsome b)|by apply Hin].
Qed.

(** What a round does to the caches: the memo stays sound, the cache only
    loses requests, a request that is handed out was in the cache, and a
    round that goes on to another has taken a request out of the cache and
    left recycled workers in the preferred list. *)
Lemma body_run_progress c r c' :
  fromBrdict_keeps_id → memo_ok c → body_run c r c' →
  memo_ok c'
  ∧ (is_Some (unclaimedBrdicts c) →
       is_Some (unclaimedBrdicts c')
       ∧ (∀ k, k ∈ cached_ids c' → k ∈ cached_ids c)
       ∧ (∀ k, breqCache c !! k = None → k ∉ cached_ids c →
               breqCache c' !! k = None)
       ∧ (∀ wo b, r = Ok (Break (wo, Some b)) → id b ∈ cached_ids c))
  ∧ (r = Ok Continue →
       is_Some (unclaimedBrdicts c') ∧ preferredWorkers c' ≠ []
       ∧ (length (cached c') < requests_left K c)%nat).
Proof.
  intros Hid Hok Hrun.
  assert (∀ r1 c1, _getNextUnclaimedBuildRequest K c = (r1, c1) →
    memo_ok c1
    ∧ (is_Some (unclaimedBrdicts c) →
         is_Some (unclaimedBrdicts c1) ∧ cached_ids c1 = cached_ids c
         ∧ (∀ k, breqCache c !! k = None → k ∉ cached_ids c →
                 breqCache c1 !! k = None))) as Hpick.
  { intros r1 c1 Hg.
    pose proof (getNextUnclaimedBuildRequest_spec _ _ _ Hg)
      as (_ & _ & _ & _ & Hother & _).
    apply getNextUnclaimedBuildRequest_summary in Hg
      as (_ & _ & _ & Hu & Hok1 & _); [|done..].
    split; [done|]. intros Hs. specialize (Hu Hs).
    assert (cached_ids c1 = cached_ids c) as Hids.
    { unfold cached_ids, cached. by rewrite Hu. }
    split_and!; [by rewrite Hu|done|].
    intros k Hk Hnk. rewrite Hother; [done|]. by rewrite Hids. }
  assert (∀ b c1 w c2,
    _getNextUnclaimedBuildRequest K c = (Ok (Some b), c1) →
    popNextWorker_run b (refill c1) (Some w) c2 →
    memo_ok (removed b c2)
    ∧ is_Some (unclaimedBrdicts (removed b c2))
    ∧ (length (cached (removed b c2)) < requests_left K c)%nat
    ∧ (is_Some (unclaimedBrdicts c) →
         id b ∈ cached_ids c
         ∧ (∀ k, k ∈ cached_ids (removed b c2) → k ∈ cached_ids c)
         ∧ (∀ k, breqCache c !! k = None → k ∉ cached_ids c →
                 breqCache (removed b c2) !! k = None))) as Hdrawn.
  { intros b c1 w c2 Hg Hpop.
    destruct (Hpick _ _ Hg) as [_ Hkeep].
    apply getNextUnclaimedBuildRequest_summary in Hg
      as (_ & _ & Hlen & _ & Hok1 & Hsel); [|done..].
    destruct (Hsel b eq_refl) as [[l Hl] Hin].
    apply popNextWorker_frame in Hpop as (Hu2 & Hb2 & _).
    destruct (refill_frame c1) as (Hu1 & Hb1 & _ & _).
    rewrite Hu1 in Hu2. rewrite Hb1 in Hb2.
    assert (cached (removed b c2) = forget (id b) l) as Hc.
    { unfold cached, removed. simpl. by rewrite Hu2, Hl. }
    assert (cached c1 = l) as Hc1 by (unfold cached; by rewrite Hl).
    split_and!.
    - intros k bb. unfold removed. simpl. rewrite lookup_delete.
      case_decide; [done|]. rewrite Hb2. apply Hok1.
    - unfold removed. simpl. rewrite Hu2, Hl. by eexists.
    - rewrite Hc. unfold cached_ids in Hin. rewrite Hc1 in Hin.
      apply forget_length_in in Hin. rewrite Hc1 in Hlen. lia.
    - intros Hs. destruct (Hkeep Hs) as (_ & Hids & Hmemo).
      rewrite <- Hids. split_and!; [done| |].
      + intros k. unfold cached_ids at 1. rewrite Hc. unfold cached_ids.
        rewrite Hc1. apply forget_ids.
      + intros k Hk Hnk. unfold removed. simpl. rewrite lookup_delete.
        case_decide; [done|]. rewrite Hb2. apply Hmemo; [done|].
        by rewrite <- Hids. }
  destruct Hrun as [e c1 Hg|c1 Hg|b c1 c2 Hg Hpop|b c1 w c2 w' rec c4 Hg Hpop Hfu
                    |b c1 w c2 rec c4 Hg Hpop Hfu|b c1 w c2 e c4 Hg Hpop Hfu].
  - destruct (Hpick _ _ Hg) as [Hok1 Hkeep]. split_and!; [done| |done].
    intros Hs. destruct (Hkeep Hs) as (? & Hids & ?).
    split_and!; [done|by rewrite Hids|done|done].
  - destruct (Hpick _ _ Hg) as [Hok1 Hkeep]. split_and!; [done| |done].
    intros Hs. destruct (Hkeep Hs) as (? & Hids & ?).
    split_and!; [done|by rewrite Hids|done|done].
  - destruct (Hpick _ _ Hg) as [Hok1 Hkeep].
    apply popNextWorker_frame in Hpop as (Hu2 & Hb2 & _).
    destruct (refill_frame c1) as (Hu1 & Hb1 & _ & _).
    rewrite Hu1 in Hu2. rewrite Hb1 in Hb2.
    split_and!; [unfold memo_ok; by rewrite Hb2| |done].
    intros Hs. destruct (Hkeep Hs) as (? & Hids & ?).
    assert (cached_ids c2 = cached_ids c1) as ->.
    { unfold cached_ids, cached. by rewrite Hu2. }
    rewrite Hu2, Hb2. split_and!; [done|by rewrite Hids|done|done].
  - destruct (Hdrawn _ _ _ _ Hg Hpop) as (Hok3 & Hsome3 & Hlt & Hkeep).
    apply find_usable_run_frame in Hfu as (Hu4 & Hb4 & _).
    destruct (unpopped_frame rec c4) as (Hu5 & Hb5 & Hp5 & Hw5).
    assert (cached_ids (unpopped rec c4) = cached_ids (removed b c2)) as Hids.
    { unfold cached_ids, cached. by rewrite Hu5, Hu4. }
    split_and!; [unfold memo_ok; by rewrite Hb5, Hb4| |done].
    intros Hs. destruct (Hkeep Hs) as (Hin & Hsub & Hmemo).
    rewrite Hu5, Hu4, Hb5, Hb4, Hids. split_and!; [done..|].
    by intros wo b' [= _ <-].
  - destruct (Hdrawn _ _ _ _ Hg Hpop) as (Hok3 & Hsome3 & Hlt & Hkeep).
    pose proof (find_usable_run_recycled _ _ _ _ _ _ Hfu _ _ eq_refl)
      as (_ & _ & _ & _ & Hrec).
    destruct Hrec as [_ Hrec]; [by eexists|done|].
    apply find_usable_run_frame in Hfu as (Hu4 & Hb4 & _).
    destruct (unpopped_frame rec c4) as (Hu5 & Hb5 & Hp5 & Hw5).
    assert (cached_ids (unpopped rec c4) = cached_ids (removed b c2)) as Hids.
    { unfold cached_ids, cached. by rewrite Hu5, Hu4. }
    assert (cached (unpopped rec c4) = cached (removed b c2)) as Hc.
    { unfold cached. by rewrite Hu5, Hu4. }
    split_and!; [unfold memo_ok; by rewrite Hb5, Hb4| |].
    + intros Hs. destruct (Hkeep Hs) as (Hin & Hsub & Hmemo).
      rewrite Hu5, Hu4, Hb5, Hb4, Hids. split_and!; done.
    + intros _. rewrite Hu5, Hu4, Hc, unpopped_preferredWorkers.
      split_and!; [done| |done]. by destruct rec.
  - destruct (Hdrawn _ _ _ _ Hg Hpop) as (Hok3 & Hsome3 & Hlt & Hkeep).
    apply find_usable_run_frame in Hfu as (Hu4 & Hb4 & _).
    assert (cached_ids c4 = cached_ids (removed b c2)) as Hids.
    { unfold cached_ids, cached. by rewrite Hu4. }
    split_and!; [unfold memo_ok; by rewrite Hb4| |done].
    intros Hs. destruct (Hkeep Hs) as (Hin & Hsub & Hmemo).
    rewrite Hu4, Hb4, Hids. split_and!; done.
Qed.

(** The runs of [popNextBuild]: rounds until one breaks or raises. *)
Inductive loop_run c
    : result (option Worker * option BuildRequest) → BC Env → Prop :=
| loop_break x c' :
    body_run c (Ok (Break x)) c' → loop_run c (Ok x) c'
| loop_raise e c' :
    body_run c (Raise e) c' → loop_run c (Raise e) c'
| loop_continue c1 r c' :
    body_run c (Ok Continue) c1 → loop_run c1 r c' → loop_run c r c'.

Lemma body_run_not_OutOfFuel c c' : ¬ body_run c OutOfFuel c'.
Proof. by inversion 1. Qed.

Lemma loop_run_not_OutOfFuel c c' : ¬ loop_run c OutOfFuel c'.
Proof.
  remember OutOfFuel as r eqn:Hr. induction 1; [done| done |auto].
Qed.

Lemma popNextBuild_loop_run fuel c r c' :
  popNextBuild_loop K fuel c = (r, c') →
  r = OutOfFuel ∨ loop_run c r c'.
Proof.
  revert c. induction fuel as [|fuel IH]; intros c; simpl.
  { intros [= <- <-]. by left. }
  intros H. minv H as x c1 Hb; apply popNextBuild_body_run in Hb.
  - destruct x as [x|].
    + injection H as <- <-. right. by constructor.
    + apply IH in H as [->|H]; [by left|]. right. by econstructor.
  - right. by constructor.
  - by apply body_run_not_OutOfFuel in Hb.
Qed.

(** [popNextBuild] ends within the fuel it is given. *)
Lemma popNextBuild_loop_fuel fuel c r c' :
  fromBrdict_keeps_id → memo_ok c →
  (requests_left K c < fuel)%nat →
  popNextBuild_loop K fuel c = (r, c') → r ≠ OutOfFuel.
Proof.
  intros Hid. revert c. induction fuel as [|fuel IH]; intros c Hok Hlt; [lia|].
  simpl. intros H. minv H as x c1 Hb; [|done|];
    apply popNextBuild_body_run in Hb.
  - destruct x as [x|]; [by injection H as <- <-|].
    apply body_run_progress in Hb as (Hok1 & _ & Hcont); [|done..].
    destruct (Hcont eq_refl) as ([l Hl] & _ & Hlen).
    apply IH in H; [done..|].
    unfold requests_left. rewrite (fetch_cached _ _ Hl). simpl.
    unfold cached in *. rewrite Hl in *. simpl in *. lia.
  - by apply body_run_not_OutOfFuel in Hb.
Qed.

Lemma popNextBuild_run c r c' :
  fromBrdict_keeps_id → memo_ok c →
  popNextBuild K c = (r, c') → loop_run c r c'.
Proof.
  intros Hid Hok H. unfold popNextBuild in H.
  pose proof (popNextBuild_loop_fuel _ _ _ _ Hid Hok (Nat.lt_succ_diag_r _) H).
  by apply popNextBuild_loop_run in H as [?|?].
Qed.

(** What [chooseNextBuild] makes of the result of [popNextBuild]. *)
Definition chosen (x : option Worker * option BuildRequest)
    : option Worker * option (list BuildRequest) :=
  match x with
  | (Some w, Some b) => (Some w, Some [b])
  | _ => (None, None)
  end.

Lemma chooseNextBuild_run c r c' :
  fromBrdict_keeps_id → memo_ok c →
  chooseNextBuild K c = (r, c') →
  (∃ x, r = Ok (chosen x) ∧ loop_run c (Ok x) c')
  ∨ (∃ e, r = Raise e ∧ loop_run c (Raise e) c').
Proof.
  intros Hid Hok H. unfold chooseNextBuild in H.
  minv H as x c1 Hp; apply popNextBuild_run in Hp; try done.
  - left. exists x. destruct x as [[w|] [b|]]; injection H as <- <-; by split.
  - right. by eexists.
  - by apply loop_run_not_OutOfFuel in Hp.
Qed.

Lemma requests_left_cached c :
  is_Some (unclaimedBrdicts c) → requests_left K c = length (cached c).
Proof. intros [l Hl]. unfold requests_left. by rewrite (fetch_cached _ _ Hl). Qed.

Lemma loop_run_progress c r c' :
  fromBrdict_keeps_id → memo_ok c → loop_run c r c' →
  memo_ok c'
  ∧ (is_Some (unclaimedBrdicts c) →
       is_Some (unclaimedBrdicts c')
       ∧ (∀ k, k ∈ cached_ids c' → k ∈ cached_ids c)
       ∧ (∀ k, breqCache c !! k = None → k ∉ cached_ids c →
               breqCache c' !! k = None)
       ∧ (∀ wo b, r = Ok (wo, Some b) → id b ∈ cached_ids c)).
Proof.
  intros Hid Hok Hrun.
  induction Hrun as [c x c' Hb|c e c' Hb|c c1 r c' Hb Hrun IH].
  - apply body_run_progress in Hb as (Hok' & Hkeep & _); [|done..].
    split; [done|]. intros Hs. destruct (Hkeep Hs) as (? & ? & ? & Hsel).
    split_and!; [done..|]. intros wo b [= ->]. by eapply Hsel.
  - apply body_run_progress in Hb as (Hok' & Hkeep & _); [|done..].
    split; [done|]. intros Hs. destruct (Hkeep Hs) as (? & ? & ? & Hsel).
    by split_and!.
  - apply body_run_progress in Hb as (Hok1 & Hkeep & _); [|done..].
    destruct (IH Hok1) as [Hok' Hkeep']. split; [done|].
    intros Hs. destruct (Hkeep Hs) as (Hs1 & Hsub1 & Hmemo1 & _).
    destruct (Hkeep' Hs1) as (Hs' & Hsub' & Hmemo' & Hsel').
    split_and!; [done|by auto| |by eauto].
    intros k Hk Hnk. apply Hmemo'; [by apply Hmemo1|]. by intros ?%Hsub1.
Qed.

Section Bounded.
Hypothesis Hid : fromBrdict_keeps_id.
Variable N : nat.
Hypothesis HN : ∀ e, (length (getAvailableWorkers K e) ≤ N)%nat.

(** The workers a round can draw from the pool: the pool, or a refilled
    pool of at most [N] workers when pool and preferred list are empty. *)
Definition supply c : nat :=
  match workerpool c, preferredWorkers c with
  | [], [] => N
  | pool, _ => length pool
  end.

(** One unsuccessful invocation of the policy may end a call; it leaves
    workers in the pool. *)
Definition slack c : nat :=
  match workerpool c with
  | [] => 0%nat
  | _ :: _ => 1%nat
  end.

Lemma pot_refill c : (pot (refill c) ≤ calls c + supply c)%nat.
Proof.
  unfold pot, refill, supply, calls.
  destruct (workerpool c) eqn:Hp, (preferredWorkers c); simpl;
    rewrite ?Hp; simpl; try lia.
  specialize (HN (env (world c))). lia.
Qed.

Lemma slack_le c : (slack c ≤ length (workerpool c))%nat.
Proof. unfold slack. destruct (workerpool c); simpl; lia. Qed.

Lemma supply_ge c : (length (workerpool c) ≤ supply c)%nat.
Proof.
  unfold supply. destruct (workerpool c), (preferredWorkers c); simpl; lia.
Qed.

(** The accounting of one round: policy invocations are paid for by workers
    leaving the pool and requests leaving the cache, up to one unsuccessful
    invocation that ends the call. *)
Lemma body_run_pot c r c' :
  memo_ok c → body_run c r c' →
  memo_ok c'
  ∧ (pot c' + length (cached c')
     ≤ calls c + supply c + requests_left K c + slack c')%nat
  ∧ (r = Ok Continue →
       is_Some (unclaimedBrdicts c') ∧ preferredWorkers c' ≠ []
       ∧ (length (cached c') < requests_left K c)%nat
       ∧ (pot c' + length (cached c')
          ≤ calls c + supply c + requests_left K c)%nat).
Proof.
  intros Hok Hrun.
  assert (∀ b c1 w c2,
    _getNextUnclaimedBuildRequest K c = (Ok (Some b), c1) →
    popNextWorker_run b (refill c1) (Some w) c2 →
    memo_ok (removed b c2)
    ∧ is_Some (unclaimedBrdicts (removed b c2))
    ∧ (length (cached (removed b c2)) < requests_left K c)%nat
    ∧ (pot (removed b c2) + S (length (cached (removed b c2)))
       ≤ calls c + supply c + requests_left K c)%nat) as Hdrawn.
  { intros b c1 w c2 Hg Hpop.
    apply getNextUnclaimedBuildRequest_summary in Hg
      as (Hcalls & [Hp Hf] & Hlen & _ & Hok1 & Hsel); [|done..].
    destruct (Hsel b eq_refl) as [[l Hl] Hin].
    pose proof (popNextWorker_pot_Some _ _ _ _ Hpop) as Hpot.
    pose proof (pot_refill c1) as Hre.
    apply popNextWorker_frame in Hpop as (Hu2 & Hb2 & _).
    destruct (refill_frame c1) as (Hu1 & Hb1 & _ & _).
    rewrite Hu1 in Hu2. rewrite Hb1 in Hb2.
    split_and!.
    - intros k bb. unfold removed. simpl. rewrite lookup_delete.
      case_decide; [done|]. rewrite Hb2. apply Hok1.
    - unfold removed. simpl. rewrite Hu2, Hl. by eexists.
    - unfold cached_ids, cached in Hin. rewrite Hl in Hin. simpl in Hin.
      apply forget_length_in in Hin.
      assert (cached (removed b c2) = forget (id b) l) as ->.
      { unfold cached, removed. simpl. by rewrite Hu2, Hl. }
      unfold cached in Hlen. rewrite Hl in Hlen. simpl in Hlen. lia.
    - unfold cached_ids, cached in Hin. rewrite Hl in Hin. simpl in Hin.
      apply forget_length_in in Hin.
      assert (cached (removed b c2) = forget (id b) l) as ->.
      { unfold cached, removed. simpl. by rewrite Hu2, Hl. }
      assert (pot (removed b c2) = pot c2) as -> by done.
      assert (supply c1 = supply c) as Hs.
      { unfold supply. by rewrite Hp, Hf. }
      unfold cached in Hlen. rewrite Hl in Hlen. simpl in Hlen. lia. }
  destruct Hrun as [e c1 Hg|c1 Hg|b c1 c2 Hg Hpop|b c1 w c2 w' rec c4 Hg Hpop Hfu
                    |b c1 w c2 rec c4 Hg Hpop Hfu|b c1 w c2 e c4 Hg Hpop Hfu].
  - apply getNextUnclaimedBuildRequest_summary in Hg
      as (Hcalls & [Hp Hf] & Hlen & _ & Hok1 & _); [|done..].
    split_and!; [done| |done].
    pose proof (supply_ge c). unfold pot. rewrite Hcalls, Hp, Hlen. lia.
  - apply getNextUnclaimedBuildRequest_summary in Hg
      as (Hcalls & [Hp Hf] & Hlen & _ & Hok1 & _); [|done..].
    split_and!; [done| |done].
    pose proof (supply_ge c). unfold pot. rewrite Hcalls, Hp, Hlen. lia.
  - apply getNextUnclaimedBuildRequest_summary in Hg
      as (Hcalls & [Hp Hf] & Hlen & _ & Hok1 & _); [|done..].
    pose proof (pot_refill c1) as Hre.
    assert (supply c1 = supply c) as Hs.
    { unfold supply. by rewrite Hp, Hf. }
    pose proof (popNextWorker_pot_None _ _ _ Hpop) as [_ Hpot].
    apply popNextWorker_frame in Hpop as (Hu2 & Hb2 & _).
    destruct (refill_frame c1) as (Hu1 & Hb1 & _ & _).
    split_and!; [unfold memo_ok; by rewrite Hb2, Hb1| |done].
    assert (cached c2 = cached c1) as ->.
    { unfold cached. by rewrite Hu2, Hu1. }
    unfold slack. destruct Hpot as [Hpot|[Hpot Hne]].
    + lia.
    + destruct (workerpool c2); [done|]. lia.
  - destruct (Hdrawn _ _ _ _ Hg Hpop) as (Hok3 & Hsome3 & Hlt & Hle).
    pose proof (find_usable_run_pot _ _ _ _ _ _ Hfu) as Hpot. simpl in Hpot.
    apply find_usable_run_frame in Hfu as (Hu4 & Hb4 & _).
    destruct (unpopped_frame rec c4) as (Hu5 & Hb5 & Hp5 & Hw5).
    split_and!; [unfold memo_ok; by rewrite Hb5, Hb4| |done].
    assert (cached (unpopped rec c4) = cached (removed b c2)) as ->.
    { unfold cached. by rewrite Hu5, Hu4. }
    assert (pot (unpopped rec c4) = pot c4) as ->.
    { unfold pot, calls. by rewrite Hp5, Hw5. }
    lia.
  - destruct (Hdrawn _ _ _ _ Hg Hpop) as (Hok3 & Hsome3 & Hlt & Hle).
    pose proof (find_usable_run_pot _ _ _ _ _ _ Hfu) as Hpot. simpl in Hpot.
    pose proof (find_usable_run_recycled _ _ _ _ _ _ Hfu _ _ eq_refl)
      as (_ & _ & _ & _ & Hrec).
    destruct Hrec as [_ Hrec]; [by eexists|done|].
    apply find_usable_run_frame in Hfu as (Hu4 & Hb4 & _).
    destruct (unpopped_frame rec c4) as (Hu5 & Hb5 & Hp5 & Hw5).
    assert (cached (unpopped rec c4) = cached (removed b c2)) as Hc.
    { unfold cached. by rewrite Hu5, Hu4. }
    assert (pot (unpopped rec c4) = pot c4) as Hp.
    { unfold pot, calls. by rewrite Hp5, Hw5. }
    assert (slack (unpopped rec c4) = slack c4) as Hs.
    { unfold slack. by rewrite Hp5. }
    rewrite Hc, Hp, Hs.
    split_and!; [unfold memo_ok; by rewrite Hb5, Hb4| |].
    + unfold slack. destruct Hpot as [Hpot|[Hpot Hne]]; [lia|].
      destruct (workerpool c4); [done|]. lia.
    + intros _. split_and!.
      * by rewrite Hu5, Hu4.
      * rewrite unpopped_preferredWorkers. by destruct rec.
      * done.
      * destruct Hpot as [Hpot|[Hpot Hne]]; lia.
  - destruct (Hdrawn _ _ _ _ Hg Hpop) as (Hok3 & Hsome3 & Hlt & Hle).
    pose proof (find_usable_run_pot _ _ _ _ _ _ Hfu) as Hpot. simpl in Hpot.
    apply find_usable_run_frame in Hfu as (Hu4 & Hb4 & _).
    split_and!; [unfold memo_ok; by rewrite Hb4| |done].
    assert (cached c4 = cached (removed b c2)) as ->.
    { unfold cached. by rewrite Hu4. }
    lia.
Qed.

Lemma loop_run_pot c r c' :
  memo_ok c → loop_run c r c' →
  (pot c' + length (cached c')
   ≤ calls c + supply c + requests_left K c + slack c')%nat.
Proof.
  intros Hok Hrun.
  induction Hrun as [c x c' Hb|c e c' Hb|c c1 r c' Hb Hrun IH].
  - by apply body_run_pot in Hb as (_ & Hle & _).
  - by apply body_run_pot in Hb as (_ & Hle & _).
  - apply body_run_pot in Hb as (Hok1 & _ & Hcont); [|done].
    destruct (Hcont eq_refl) as (Hs & Hpref & _ & Hle).
    specialize (IH Hok1). rewrite (requests_left_cached _ Hs) in IH.
    assert (supply c1 = length (workerpool c1)) as Hsup.
    { unfold supply. by destruct (workerpool c1), (preferredWorkers c1). }
    unfold pot in *. lia.
Qed.

(** Policy invocations during one [chooseNextBuild] call. *)
Lemma chooseNextBuild_calls c r c' :
  memo_ok c → (length (workerpool c) ≤ N)%nat →
  chooseNextBuild K c = (r, c') →
  r ≠ OutOfFuel ∧ (calls c' ≤ calls c + N + requests_left K c)%nat.
Proof.
  intros Hok Hpool H.
  assert (supply c ≤ N)%nat as Hsup.
  { unfold supply. destruct (workerpool c), (preferredWorkers c); simpl in *; lia. }
  apply chooseNextBuild_run in H as [(x & -> & Hrun)|(e & -> & Hrun)];
    [| |done..]; (split; [done|]);
    apply loop_run_pot in Hrun; try done;
    pose proof (slack_le c'); unfold pot in Hrun; lia.
Qed.

End Bounded.

(** *** Recycled workers come first *)

Lemma offered_before_call_None_worker_free t :
  Forall (λ e, is_request_event e = true) t → offered_before_call t = None.
Proof. induction 1 as [|e t He _ IH]; [done|]. by destruct e. Qed.


(** *** A policy that insists on one unusable worker *)

Section Stubborn.
(** The store and the resolution of requests answer without raising. *)
Hypothesis store_answers :
  ∀ e, ∃ l e', data_get_buildrequests K e = (Returns l, e').
Hypothesis builder_answers :
  ∀ i e, ∃ o e', data_get_builder K i e = (Returns o, e').
Hypothesis fromBrdict_answers :
  ∀ m e, ∃ o e', fromBrdict K m e = (Returns o, e').

Lemma getBuildRequestForBrdict_answers d c :
  ∃ o, (_getBuildRequestForBrdict K d c).1 = Ok o.
Proof.
  unfold _getBuildRequestForBrdict, bind, get, call, ret, modify.
  destruct (breqCache c !! buildrequestid d) as [b0|]; [by eexists|].
  destruct (builder_answers (builderid d) (env (world c))) as (o & e1 & ->).
  destruct o as [name|]; simpl; [|by eexists].
  destruct (fromBrdict_answers (model_of d name) e1) as (ob & e2 & ->).
  destruct ob; simpl; by eexists.
Qed.

Lemma resolve_each_answers l c :
  Forall (λ r, ∃ o, r = Ok o) (resolve_each K l c).1.
Proof.
  revert c. induction l as [|d l IH]; intros c; simpl; [constructor|].
  destruct (getBuildRequestForBrdict_answers d c) as [o Ho].
  destruct (_getBuildRequestForBrdict K d c) as [r c1]. simpl in Ho. subst r.
  specialize (IH c1). destruct (resolve_each K l c1) as [rs c2].
  constructor; [by eexists|done].
Qed.

Lemma getNextUnclaimedBuildRequest_answers c :
  ∃ o, (_getNextUnclaimedBuildRequest K c).1 = Ok o.
Proof.
  unfold _getNextUnclaimedBuildRequest.
  assert (∃ l c1, _fetchUnclaimedBrdicts K c = (Ok l, c1)
                  ∧ unclaimedBrdicts c1 = Some l) as (l & c1 & Hf & Hl).
  { destruct (unclaimedBrdicts c) as [l|] eqn:Hu.
    - exists l, c. by rewrite (fetch_cached _ _ Hu).
    - destruct (fetch_uncached _ Hu) as (a & e' & Ha & ->).
      destruct (store_answers (env (world c))) as (l & e2 & Hs).
      rewrite Hs in Ha. injection Ha as <- <-. by eexists _, _. }
  unfold bind at 1. rewrite Hf. destruct l as [|d0 l0]; [by eexists|].
  destruct (config_nextBuild K) as [nextBuild|].
  - unfold bind, _getUnclaimedBuildRequests. rewrite Hl.
    pose proof (resolve_each_answers (d0 :: l0) c1) as Hrs.
    destruct (resolve_each K (d0 :: l0) c1) as [rs c2]. simpl in Hrs.
    apply gatherResults_all_Ok in Hrs as [breqs ->].
    unfold try_except, call, ret.
    destruct (nextBuild breqs (env (world c2))) as [[nb|e] e']; simpl;
      [destruct (mem nb breqs)|]; by eexists.
  - destruct (by_priority_desc (d0 :: l0)) as [|d l'] eqn:Hs.
    + apply (f_equal length) in Hs. unfold by_priority_desc in Hs.
      by rewrite sort_length in Hs.
    + apply getBuildRequestForBrdict_answers.
Qed.

Variable W : Worker.
(** The policy always names [W], and the builder cannot start any request
    on [W]. *)
Hypothesis policy_insists :
  ∀ pool b e, ∃ e', nextWorker K pool b e = (Returns (Some W), e').
Hypothesis W_unusable :
  ∀ b e, ∃ e', bldr_canStartBuild K W b e = (Returns false, e').

Lemma popNextWorker_run_W b c wo c' :
  Forall (λ w, w = W) (preferredWorkers c) →
  popNextWorker_run b c wo c' →
  (∀ w, wo = Some w → w = W) ∧ Forall (λ w, w = W) (preferredWorkers c').
Proof.
  intros Hpref. destruct 1 as [w rest Hp| |a e' w Hp Hne Hn Ha Hin|]; simpl.
  - rewrite Hp in Hpref. apply Forall_cons in Hpref as [-> ?].
    split; [|done]. by intros ? [= <-].
  - done.
  - destruct (policy_insists (workerpool c) b (env (world c))) as [e2 He2].
    rewrite He2 in Hn. injection Hn as <- <-. injection Ha as <-.
    split; [|by rewrite Hp]. by intros ? [= <-].
  - done.
Qed.

Lemma find_usable_run_W b wo rec c r c' :
  find_usable_run b wo rec c r c' →
  (∀ w, wo = Some w → w = W) →
  Forall (λ w, w = W) rec →
  Forall (λ w, w = W) (preferredWorkers c) →
  ∃ rec', r = Ok (None, rec') ∧ Forall (λ w, w = W) rec'
    ∧ Forall (λ w, w = W) (preferredWorkers c').
Proof.
  induction 1 as [rec c|w rec c e' Ha|w rec c e e' Ha
                  |w rec c e' wo c2 r c3 Ha Hpop Hrun IH];
    intros Hwo Hrec Hpref.
  - by eexists.
  - rewrite (Hwo w eq_refl) in Ha.
    destruct (W_unusable b (env (world c))) as [e2 He2]. congruence.
  - rewrite (Hwo w eq_refl) in Ha.
    destruct (W_unusable b (env (world c))) as [e2 He2]. congruence.
  - apply popNextWorker_run_W in Hpop as [Hwo2 Hpref2]; [|done].
    apply IH; [done| |done].
    apply Forall_app. split; [done|]. constructor; [by apply Hwo|done].
Qed.

Lemma body_run_W c r c' :
  Forall (λ w, w = W) (preferredWorkers c) →
  body_run c r c' →
  (r = Ok (Break (None, None)) ∨ r = Ok Continue)
  ∧ Forall (λ w, w = W) (preferredWorkers c').
Proof.
  intros Hpref Hrun.
  assert (∀ r1 c1, _getNextUnclaimedBuildRequest K c = (r1, c1) →
            Forall (λ w, w = W) (preferredWorkers (refill c1))) as Hpick.
  { intros r1 c1 (Hw & _)%getNextUnclaimedBuildRequest_spec.
    destruct (refill_frame c1) as (_ & _ & -> & _). destruct Hw as [_ ->].
    done. }
  destruct Hrun as [e c1 Hg|c1 Hg|b c1 c2 Hg Hpop|b c1 w c2 w' rec c4 Hg Hpop Hfu
                    |b c1 w c2 rec c4 Hg Hpop Hfu|b c1 w c2 e c4 Hg Hpop Hfu].
  - destruct (getNextUnclaimedBuildRequest_answers c) as [o Ho].
    rewrite Hg in Ho. done.
  - split; [by left|].
    apply getNextUnclaimedBuildRequest_spec in Hg as ([_ ->] & _). done.
  - split; [by left|].
    by apply popNextWorker_run_W in Hpop as [_ ?]; [|by eapply Hpick].
  - apply popNextWorker_run_W in Hpop as [Hw Hp2]; [|by eapply Hpick].
    apply find_usable_run_W in Hfu as (rec' & [=] & _); try done.
  - apply popNextWorker_run_W in Hpop as [Hw Hp2]; [|by eapply Hpick].
    apply find_usable_run_W in Hfu as (rec' & [= <-] & Hrec & Hp4); try done.
    split; [by right|]. rewrite unpopped_preferredWorkers.
    apply Forall_app. by split.
  - apply popNextWorker_run_W in Hpop as [Hw Hp2]; [|by eapply Hpick].
    apply find_usable_run_W in Hfu as (rec' & [=] & _); try done.
Qed.

Lemma loop_run_W c r c' :
  Forall (λ w, w = W) (preferredWorkers c) →
  loop_run c r c' → r = Ok (None, None).
Proof.
  intros Hpref Hrun.
  induction Hrun as [c x c' Hb|c e c' Hb|c c1 r c' Hb Hrun IH].
  - by apply body_run_W in Hb as [[[= ->]|?] _].
  - by apply body_run_W in Hb as [[?|?] _].
  - apply body_run_W in Hb as [_ Hp1]; [|done]. by apply IH.
Qed.

End Stubborn.

(** *** The claims about the unclaimed-request cache *)

Lemma fetch_calls_snoc t : fetch_calls (t ++ [EvFetch]) = S (fetch_calls t).
Proof.
  unfold fetch_calls. rewrite filter_app, length_app. simpl. lia.
Qed.

Lemma Sorted_mono {A} (R1 R2 : relation A) l :
  (∀ a b, R1 a b → R2 a b) → Sorted R1 l → Sorted R2 l.
Proof.
  intros HR. induction 1 as [|x l Hs IH Hhd]; constructor; [done|].
  destruct Hhd; constructor; auto.
Qed.

Lemma sort_by_id_sorted l :
  StronglySorted (λ a b, buildrequestid a ≤ buildrequestid b) (sort by_id l).
Proof.
  apply Sorted_StronglySorted.
  { intros a b d. lia. }
  eapply Sorted_mono; [|apply (sort_Sorted by_id)].
  - intros a b. unfold le_of, by_id. rewrite Z.ltb_ge. lia.
  - intros a b. unfold by_id. rewrite Z.ltb_lt, Z.ltb_ge. lia.
Qed.

(** C8 (amended).  A fetch on an empty cache queries the store once and
    keeps what it answered sorted by request id (the submission time is not
    looked at); the list is memoized: a second fetch returns it without a
    query, and only after the cache is replaced by [None] does a fetch query
    the store again. *)
Theorem fetch_memoized_sorted_by_id c l c1 :
  unclaimedBrdicts c = None →
  _fetchUnclaimedBrdicts K c = (Ok l, c1) →
  (∃ stored e',
      data_get_buildrequests K (env (world c)) = (Returns stored, e')
      ∧ l ≡ₚ stored)
  ∧ StronglySorted (λ a b, buildrequestid a ≤ buildrequestid b) l
  ∧ unclaimedBrdicts c1 = Some l
  ∧ fetch_calls (trace (world c1)) = S (fetch_calls (trace (world c)))
  ∧ _fetchUnclaimedBrdicts K c1 = (Ok l, c1)
  ∧ fetch_calls
      (trace (world (_fetchUnclaimedBrdicts K (set_unclaimedBrdicts None c1)).2))
    = S (fetch_calls (trace (world c1))).
Proof.
  intros Hu Hf. destruct (fetch_uncached _ Hu) as (a & e' & Ha & Hf').
  rewrite Hf in Hf'. destruct a as [stored|e]; [|done].
  injection Hf' as -> ->. simpl. split_and!.
  - exists stored, e'. split; [done|]. apply sort_Permutation.
  - apply sort_by_id_sorted.
  - done.
  - apply fetch_calls_snoc.
  - by apply fetch_cached.
  - match goal with
    | |- context [_fetchUnclaimedBrdicts K ?c2] =>
        destruct (fetch_uncached c2 eq_refl) as (a2 & e2 & _ & ->)
    end.
    destruct a2; simpl; apply fetch_calls_snoc.
Qed.

(** C3 (amended).  The fan-out starts the resolution of every cached
    entry.  When none of them raises, the result has one slot per entry,
    holding that entry's request or [None] when it resolved to nothing.
    When one raises, the whole fan-out raises the error of the first such
    entry, and with a [nextBuild] policy configured that error leaves
    [_getNextUnclaimedBuildRequest], [popNextBuild] and [chooseNextBuild]. *)
Theorem resolution_all_or_first_error c l :
  unclaimedBrdicts c = Some l →
  length (resolve_each K l c).1 = length l
  ∧ ((∀ r, r ∈ (resolve_each K l c).1 → ∃ o, r = Ok o) →
       ∃ breqs, (_getUnclaimedBuildRequests K c).1 = Ok breqs
                ∧ (resolve_each K l c).1 = Ok <$> breqs)
  ∧ (∀ i e,
       (resolve_each K l c).1 !! i = Some (Raise e) →
       (∀ j r, (j < i)%nat → (resolve_each K l c).1 !! j = Some r → ∃ o, r = Ok o) →
       (_getUnclaimedBuildRequests K c).1 = Raise e
       ∧ (is_Some (config_nextBuild K) → l ≠ [] →
            (_getNextUnclaimedBuildRequest K c).1 = Raise e
            ∧ (popNextBuild K c).1 = Raise e
            ∧ (chooseNextBuild K c).1 = Raise e)).
Proof.
  intros Hu.
  assert (_getUnclaimedBuildRequests K c
          = (gatherResults (resolve_each K l c).1, (resolve_each K l c).2)) as Hg.
  { unfold _getUnclaimedBuildRequests. rewrite Hu.
    by destruct (resolve_each K l c). }
  split_and!.
  - destruct (resolve_each K l c) as [rs c1] eqn:Hr.
    by apply resolve_each_spec in Hr as (? & _).
  - intros Hall. rewrite Hg. simpl.
    destruct (gatherResults_all_Ok (resolve_each K l c).1) as [breqs Hb].
    { apply Forall_forall. exact Hall. }
    exists breqs. split; [done|]. by apply gatherResults_Ok.
  - intros i e Hi Hbefore.
    pose proof (gatherResults_first_Raise _ _ _ Hi Hbefore) as Hraise.
    rewrite Hg. simpl. split; [done|].
    intros [nextBuild Hnb] Hne.
    assert ((_getNextUnclaimedBuildRequest K c).1 = Raise e) as Hnext.
    { unfold _getNextUnclaimedBuildRequest. unfold bind at 1.
      rewrite (fetch_cached _ _ Hu). destruct l as [|d0 l0]; [done|].
      rewrite Hnb. unfold bind. rewrite Hg, Hraise. done. }
    assert ((popNextBuild_body K c).1 = Raise e) as Hbody.
    { unfold popNextBuild_body, bind.
      destruct (_getNextUnclaimedBuildRequest K c) as [r1 c1].
      simpl in Hnext. by subst r1. }
    assert ((popNextBuild K c).1 = Raise e) as Hpop.
    { unfold popNextBuild. simpl. unfold bind.
      destruct (popNextBuild_body K c) as [r1 c1]. simpl in Hbody. by subst r1. }
    split_and!; [done..|].
    unfold chooseNextBuild, bind. destruct (popNextBuild K c) as [r1 c1].
    simpl in Hpop. by subst r1.
Qed.

(** *** The claims about the chooser *)

(** The store and the resolution of requests answer without raising. *)
Definition requests_resolve : Prop :=
  (∀ e, ∃ l e', data_get_buildrequests K e = (Returns l, e'))
  ∧ (∀ i e, ∃ o e', data_get_builder K i e = (Returns o, e'))
  ∧ (∀ m e, ∃ o e', fromBrdict K m e = (Returns o, e')).

(** The next-worker policy names [W] whatever it is asked. *)
Definition policy_insists_on (W : Worker) : Prop :=
  ∀ pool b e, ∃ e', nextWorker K pool b e = (Returns (Some W), e').

(** [canStartBuild] turns [W] down for every request. *)
Definition never_usable (W : Worker) : Prop :=
  ∀ b e, ∃ e', bldr_canStartBuild K W b e = (Returns false, e').

(** X24.  With at most [N] workers available on the builder (and
    [BuildRequest.fromBrdict] keeping the request id), one [chooseNextBuild]
    call ends, and invokes the next-worker policy at most [N] plus the
    number of cached unclaimed requests times: an invocation that yields a
    worker of the pool takes it out of the pool, any other invocation ends
    the draw for the current request.  A chooser whose policy always names
    the same worker that [canStartBuild] turns down ends [chooseNextBuild]
    with [(None, None)]. *)
Theorem policy_calls_bounded (N : nat) c r c' :
  fromBrdict_keeps_id → memo_ok c →
  (∀ e, (length (getAvailableWorkers K e) ≤ N)%nat) →
  (length (workerpool c) ≤ N)%nat →
  chooseNextBuild K c = (r, c') →
  r ≠ OutOfFuel
  ∧ (nextWorker_calls (trace (world c'))
     ≤ nextWorker_calls (trace (world c)) + N + requests_left K c)%nat
  ∧ (∀ W, requests_resolve → policy_insists_on W → never_usable W →
          Forall (λ w, w = W) (preferredWorkers c) →
          r = Ok (None, None)).
Proof.
  intros Hid Hok HN Hpool H.
  destruct (chooseNextBuild_calls Hid N HN c r c' Hok Hpool H) as [Hr Hcalls].
  split_and!; [done..|].
  intros W (Hs & Hb & Hf) Hpol Hun Hpref.
  apply chooseNextBuild_run in H as [(x & -> & Hrun)|(e & -> & Hrun)];
    [| |done..];
    apply (loop_run_W Hs Hb Hf W Hpol Hun) in Hrun; try done.
  by injection Hrun as ->.
Qed.


Lemma popNextWorker_run_fun b c wo c' :
  popNextWorker_run b c wo c' → _popNextWorker K b c = (Ok wo, c').
Proof.
  intros Hrun. destruct c as [u m p f wd].
  unfold _popNextWorker, bind, get, modify, ret, try_except, call.
  destruct Hrun as [w rest Hp|Hp Hw|a e' w Hp Hne Hn Ha Hin|a e' Hp Hne Hn Ha];
    simpl in *; subst; cbn; try done.
  - destruct p as [|w0 pool]; [done|]. cbn. rewrite Hn. cbn. unfold mem.
    by rewrite bool_decide_true.
  - destruct p as [|w0 pool]; [done|]. cbn. rewrite Hn.
    destruct a as [[w|]|e]; cbn; try done.
    unfold mem. rewrite bool_decide_false; [done|]. by apply Ha.
Qed.

(** The chooser only asks for requests and workers; it never updates the
    store. *)
Definition is_store_update (e : Event) : bool :=
  match e with
  | EvClaim _ | EvUnclaim _ => true
  | _ => false
  end.

Lemma body_run_extends c r c' :
  body_run c r c' → extends (λ e, is_store_update e = false) c c'.
Proof.
  intros Hrun.
  assert (∀ c1 c2, extends (λ e, is_request_event e = true) c1 c2 →
                   extends (λ e, is_store_update e = false) c1 c2) as Hreq.
  { intros c1 c2. apply extends_mono. by intros []. }
  assert (∀ c1 c2, extends (λ e, is_worker_event e = true) c1 c2 →
                   extends (λ e, is_store_update e = false) c1 c2) as Hwork.
  { intros c1 c2. apply extends_mono. by intros []. }
  assert (∀ r1 c1, _getNextUnclaimedBuildRequest K c = (r1, c1) →
            extends (λ e, is_store_update e = false) c (refill c1)) as Hpick.
  { intros r1 c1 (_ & He & _)%getNextUnclaimedBuildRequest_spec.
    eapply extends_trans; [by apply Hreq|].
    apply extends_same_world. apply refill_frame. }
  assert (∀ b c1 w c2 r4 c4,
            _getNextUnclaimedBuildRequest K c = (Ok (Some b), c1) →
            popNextWorker_run b (refill c1) (Some w) c2 →
            find_usable_run b (Some w) [] (removed b c2) r4 c4 →
            extends (λ e, is_store_update e = false) c c4) as Htried.
  { intros b c1 w c2 r4 c4 Hg Hpop Hfu.
    eapply extends_trans; [by eapply Hpick|].
    apply popNextWorker_frame in Hpop as (_ & _ & He2).
    eapply extends_trans; [by apply Hwork|].
    apply find_usable_run_frame in Hfu as (_ & _ & He4).
    eapply extends_trans; [|by apply Hwork]. by apply extends_same_world. }
  destruct Hrun as [e c1 Hg|c1 Hg|b c1 c2 Hg Hpop|b c1 w c2 w' rec c4 Hg Hpop Hfu
                    |b c1 w c2 rec c4 Hg Hpop Hfu|b c1 w c2 e c4 Hg Hpop Hfu].
  - by apply getNextUnclaimedBuildRequest_spec in Hg as (_ & ?%Hreq & _).
  - by apply getNextUnclaimedBuildRequest_spec in Hg as (_ & ?%Hreq & _).
  - eapply extends_trans; [by eapply Hpick|].
    by apply popNextWorker_frame in Hpop as (_ & _ & ?%Hwork).
  - eapply extends_trans; [by eapply Htried|].
    apply extends_same_world. apply unpopped_frame.
  - eapply extends_trans; [by eapply Htried|].
    apply extends_same_world. apply unpopped_frame.
  - by eapply Htried.
Qed.

(** The states a chooser goes through after [c]: further rounds of
    [popNextBuild] and further [chooseNextBuild] calls. *)
Inductive later c : BC Env → Prop :=
| later_now : later c c
| later_round c1 r c2 :
    later c c1 → popNextBuild_body K c1 = (r, c2) → later c c2
| later_call c1 r c2 :
    later c c1 → chooseNextBuild K c1 = (r, c2) → later c c2.

(** A request id that is gone from the cache and the memo stays gone. *)
Definition gone (x : Z) c : Prop :=
  memo_ok c ∧ is_Some (unclaimedBrdicts c)
  ∧ (x ∉ cached_ids c) ∧ breqCache c !! x = None.

Lemma gone_later x c c' :
  fromBrdict_keeps_id → gone x c → later c c' → gone x c'.
Proof.
  intros Hid Hgone. induction 1 as [|c1 r c2 Hl IH Hb|c1 r c2 Hl IH Hc]; [done|..].
  - destruct IH as (Hok & Hs & Hx & Hm).
    apply popNextBuild_body_run, body_run_progress in Hb
      as (Hok2 & Hkeep & _); [|done..].
    destruct (Hkeep Hs) as (Hs2 & Hsub & Hmemo & _).
    split_and!; [done..| |by apply Hmemo]. by intros ?%Hsub.
  - destruct IH as (Hok & Hs & Hx & Hm).
    assert (∀ r', loop_run c1 r' c2 → gone x c2) as Hloop.
    { intros r' (Hok2 & Hkeep)%loop_run_progress; [|done..].
      destruct (Hkeep Hs) as (Hs2 & Hsub & Hmemo & _).
      split_and!; [done..| |by apply Hmemo]. by intros ?%Hsub. }
    apply chooseNextBuild_run in Hc as [(y & _ & Hrun)|(e & _ & Hrun)];
      [| |done..]; by eapply Hloop.
Qed.

Lemma gone_not_chosen x c r c' :
  fromBrdict_keeps_id → gone x c →
  chooseNextBuild K c = (r, c') →
  ∀ wo breqs b, r = Ok (wo, Some breqs) → b ∈ breqs → id b ≠ x.
Proof.
  intros Hid (Hok & Hs & Hx & Hm) Hc wo breqs b Hr Hb.
  apply chooseNextBuild_run in Hc as [(y & -> & Hrun)|(e & -> & Hrun)];
    [| |done..]; [|done].
  destruct y as [[w|] [b'|]]; simpl in Hr; try done.
  injection Hr as <- <-. apply list_elem_of_singleton in Hb as ->.
  apply loop_run_progress in Hrun as (_ & Hkeep); [|done..].
  destruct (Hkeep Hs) as (_ & _ & _ & Hsel).
  intros <-. apply Hx. by eapply Hsel.
Qed.

(** C10.  Once a round of [popNextBuild] has selected a request and drawn a
    worker for it, the request is gone from the cache and from the memo of
    resolved requests when the round is over, whatever [canStartBuild]
    answers (also when every worker is turned down and the round yields no
    pair); no later [chooseNextBuild] call of this chooser hands it out
    again; and the round makes no claim or unclaim call to the store. *)
Theorem selected_request_leaves_cache c b c1 w c2 r c' :
  fromBrdict_keeps_id → memo_ok c →
  _getNextUnclaimedBuildRequest K c = (Ok (Some b), c1) →
  NoDup (cached_ids c1) →
  _popNextWorker K b (refill c1) = (Ok (Some w), c2) →
  popNextBuild_body K c = (r, c') →
  ((id b ∉ cached_ids c') ∧ breqCache c' !! id b = None)
  ∧ (∀ c5 r5 c6,
       later c' c5 → chooseNextBuild K c5 = (r5, c6) →
       ∀ wo breqs b', r5 = Ok (wo, Some breqs) → b' ∈ breqs → id b' ≠ id b)
  ∧ (∃ new, trace (world c') = trace (world c) ++ new
            ∧ Forall (λ e, is_store_update e = false) new).
Proof.
  intros Hid Hok Hg Hnd Hpop Hb. apply popNextBuild_body_run in Hb.
  assert (gone (id b) c') as Hgone.
  { pose proof (getNextUnclaimedBuildRequest_summary _ _ _ Hid Hok Hg)
      as (_ & _ & _ & _ & Hok1 & Hsel).
    destruct (Hsel b eq_refl) as [[l Hl] Hin].
    assert (∀ w0 c3, popNextWorker_run b (refill c1) (Some w0) c3 →
              gone (id b) (removed b c3)) as Hrem.
    { intros w0 c3 (Hu3 & Hb3 & _)%popNextWorker_frame.
      destruct (refill_frame c1) as (Hu1 & Hb1 & _ & _).
      rewrite Hu1 in Hu3. rewrite Hb1 in Hb3.
      assert (cached_ids (removed b c3) = buildrequestid <$> forget (id b) l) as Hids.
      { unfold cached_ids, cached, removed. simpl. by rewrite Hu3, Hl. }
      split_and!.
      - intros k bb. unfold removed. simpl. rewrite lookup_delete.
        case_decide; [done|]. rewrite Hb3. apply Hok1.
      - unfold removed. simpl. rewrite Hu3, Hl. by eexists.
      - rewrite Hids. apply forget_notin.
        unfold cached_ids, cached in Hnd. by rewrite Hl in Hnd.
      - unfold removed. simpl. by rewrite lookup_delete_eq. }
    assert (∀ c3 c4, gone (id b) c3 →
              unclaimedBrdicts c4 = unclaimedBrdicts c3 →
              breqCache c4 = breqCache c3 → gone (id b) c4) as Hsame.
    { intros c3 c4 (H1 & H2 & H3 & H4) Hu Hm.
      unfold gone, memo_ok, cached_ids, cached.
      rewrite Hu, Hm. by split_and!. }
    destruct Hb as [e c1' Hg'|c1' Hg'|b' c1' c2' Hg' Hpop'
                    |b' c1' w0 c2' w' rec c4 Hg' Hpop' Hfu
                    |b' c1' w0 c2' rec c4 Hg' Hpop' Hfu
                    |b' c1' w0 c2' e c4 Hg' Hpop' Hfu];
      rewrite Hg in Hg'; simplify_eq.
    - apply popNextWorker_run_fun in Hpop'. congruence.
    - apply find_usable_run_frame in Hfu as (Hu4 & Hb4 & _).
      destruct (unpopped_frame rec c4) as (Hu5 & Hb5 & _).
      eapply Hsame; [by eapply Hrem|congruence..].
    - apply find_usable_run_frame in Hfu as (Hu4 & Hb4 & _).
      destruct (unpopped_frame rec c4) as (Hu5 & Hb5 & _).
      eapply Hsame; [by eapply Hrem|congruence..].
    - apply find_usable_run_frame in Hfu as (Hu4 & Hb4 & _).
      eapply Hsame; [by eapply Hrem|congruence..]. }
  split_and!.
  - by destruct Hgone as (_ & _ & ? & ?).
  - by destruct Hgone as (_ & _ & ? & ?).
  - intros c5 r5 c6 Hl Hc. eapply gone_not_chosen; [done| |done].
    by eapply gone_later.
  - by apply body_run_extends in Hb.
Qed.

End Facts.
End ChooserFacts.

(** ** The chooser on concrete collaborators *)

Module ChooserExamples.
Import PyList Chooser ChooserFacts Examples.

Lemma collab_keeps_id s : fromBrdict_keeps_id (collab s).
Proof.
  intros m e b e'. simpl. case_bool_decide; [done|]. by intros [= <- _].
Qed.

Lemma collab_resolves s : broken s = [] → requests_resolve (collab s).
Proof.
  intros Hb. split_and!; simpl; intros; try by eexists _, _.
  rewrite Hb. by eexists _, _.
Qed.

Lemma memo_ok_init {Env} (K : Collab Env) w : memo_ok (init K w).
Proof. intros k b. simpl. by rewrite lookup_empty. Qed.

(** The fresh chooser of the [stubborn] builder, and the same chooser after
    one round of [popNextBuild]. *)
Definition stubborn0 : BC unit := init (collab stubborn) world0.
Definition stubborn1 : BC unit := (popNextBuild_body (collab stubborn) stubborn0).2.

(** C1.  The bound of one policy invocation per worker (the class comment
    of [BasicBuildChooser]: "For N workers, this will call nextWorker at
    most N times") does not hold of the code: with a pool of two workers and
    two requests, a policy that always names W1, which [canStartBuild] turns
    down, is invoked three times before [chooseNextBuild] returns
    [(None, None)]. *)
Lemma policy_calls_exceed_pool :
  (chooseNextBuild (collab stubborn) stubborn0).1 = Ok (None, None)
  ∧ length (workerpool stubborn0) = 2%nat
  ∧ nextWorker_calls
      (trace (world (chooseNextBuild (collab stubborn) stubborn0).2)) = 3%nat
  ∧ ¬ (nextWorker_calls
         (trace (world (chooseNextBuild (collab stubborn) stubborn0).2))
       ≤ length (workerpool stubborn0))%nat.
Proof. vm_compute. split_and!; try reflexivity. lia. Qed.

(** X24 on the [stubborn] builder: three invocations are within the bound
    of two workers plus two requests, and the call ends with
    [(None, None)]. *)
Lemma policy_calls_bounded_witness :
  (chooseNextBuild (collab stubborn) stubborn0).1 = Ok (None, None)
  ∧ (nextWorker_calls
       (trace (world (chooseNextBuild (collab stubborn) stubborn0).2))
     ≤ nextWorker_calls (trace (world stubborn0)) + 2
       + requests_left (collab stubborn) stubborn0)%nat.
Proof.
  destruct (policy_calls_bounded (collab stubborn) 2 stubborn0
              (chooseNextBuild (collab stubborn) stubborn0).1
              (chooseNextBuild (collab stubborn) stubborn0).2)
    as (_ & Hcalls & Hnone).
  - apply collab_keeps_id.
  - apply memo_ok_init.
  - intros e. simpl. lia.
  - simpl. lia.
  - reflexivity.
  - split; [|exact Hcalls]. apply (Hnone "W1").
    + by apply collab_resolves.
    + intros pool b e. by eexists.
    + intros b e. by eexists.
    + constructor.
Defined.


(** C10 on the first round of the [stubborn] chooser: request 1 is selected,
    W1 is drawn and turned down, and request 1 is gone from the caches. *)
Lemma selected_request_leaves_cache_witness :
  ((1 ∉ cached_ids stubborn1) ∧ breqCache stubborn1 !! 1 = None)
  ∧ (∀ c5 r5 c6,
       later (collab stubborn) stubborn1 c5 →
       chooseNextBuild (collab stubborn) c5 = (r5, c6) →
       ∀ wo breqs b', r5 = Ok (wo, Some breqs) → b' ∈ breqs → id b' ≠ 1)
  ∧ (∃ new, trace (world stubborn1) = trace (world stubborn0) ++ new
            ∧ Forall (λ e, is_store_update e = false) new).
Proof.
  apply (selected_request_leaves_cache (collab stubborn) stubborn0
           (mkBreq 1 100 false 0 "builder")
           (_getNextUnclaimedBuildRequest (collab stubborn) stubborn0).2
           "W1"
           (_popNextWorker (collab stubborn) (mkBreq 1 100 false 0 "builder")
              (refill (collab stubborn)
                 (_getNextUnclaimedBuildRequest (collab stubborn) stubborn0).2)).2
           (popNextBuild_body (collab stubborn) stubborn0).1 stubborn1).
  - apply collab_keeps_id.
  - apply memo_ok_init.
  - vm_compute. reflexivity.
  - vm_compute. apply NoDup_cons. split; [|apply NoDup_singleton].
    intros Hin. apply list_elem_of_singleton in Hin. discriminate Hin.
  - vm_compute. reflexivity.
  - reflexivity.
Defined.

(** The fresh chooser of the [out_of_order] builder. *)
Definition out_of_order0 : BC unit := init (collab out_of_order) world0.

(** Request [a] was submitted before [b], ties broken by id. *)
Definition submitted_before (a b : Brdict) : Prop :=
  submitted_at a < submitted_at b
  ∨ (submitted_at a = submitted_at b ∧ buildrequestid a ≤ buildrequestid b).

(** C8 fails as stated: request 2 was submitted before request 1, and the
    fetch returns request 1 first. *)
Lemma fetch_not_by_submission_time :
  ∃ l c1,
    _fetchUnclaimedBrdicts (collab out_of_order) out_of_order0 = (Ok l, c1)
    ∧ ¬ Sorted submitted_before l.
Proof.
  eexists _, _. split; [vm_compute; reflexivity|].
  intros Hs. apply Sorted_inv in Hs as [_ Hhd].
  apply HdRel_inv in Hhd. unfold submitted_before in Hhd. simpl in Hhd. lia.
Qed.

(** C8 (amended) on the [out_of_order] builder. *)
Lemma fetch_memoized_sorted_by_id_witness :
  (∃ stored e',
      data_get_buildrequests (collab out_of_order) (env (world out_of_order0))
      = (Returns stored, e')
      ∧ [request 1 0 10; request 2 0 5] ≡ₚ stored)
  ∧ StronglySorted (λ a b, buildrequestid a ≤ buildrequestid b)
      [request 1 0 10; request 2 0 5]
  ∧ unclaimedBrdicts
      (_fetchUnclaimedBrdicts (collab out_of_order) out_of_order0).2
    = Some [request 1 0 10; request 2 0 5]
  ∧ fetch_calls
      (trace (world (_fetchUnclaimedBrdicts (collab out_of_order) out_of_order0).2))
    = S (fetch_calls (trace (world out_of_order0)))
  ∧ _fetchUnclaimedBrdicts (collab out_of_order)
      (_fetchUnclaimedBrdicts (collab out_of_order) out_of_order0).2
    = (Ok [request 1 0 10; request 2 0 5],
       (_fetchUnclaimedBrdicts (collab out_of_order) out_of_order0).2)
  ∧ fetch_calls
      (trace (world
         (_fetchUnclaimedBrdicts (collab out_of_order)
            (set_unclaimedBrdicts None
               (_fetchUnclaimedBrdicts (collab out_of_order) out_of_order0).2)).2))
    = S (fetch_calls
           (trace (world
              (_fetchUnclaimedBrdicts (collab out_of_order) out_of_order0).2))).
Proof.
  apply (fetch_memoized_sorted_by_id (collab out_of_order) out_of_order0).
  - reflexivity.
  - vm_compute. reflexivity.
Defined.

(** The chooser of the [flaky] builder once its cache is loaded. *)
Definition flaky1 : BC unit :=
  (_fetchUnclaimedBrdicts (collab flaky) (init (collab flaky) world0)).2.

(** C3 fails as stated: request 1 resolves, request 2 does not, and
    instead of a list that holds request 1 the fan-out raises; the error
    leaves [chooseNextBuild]. *)
Lemma resolution_failure_aborts_batch :
  (resolve_each (collab flaky) (cached flaky1) flaky1).1
  = [Ok (Some (mkBreq 1 100 false 0 "builder")); Raise "resolution failed"]
  ∧ (_getUnclaimedBuildRequests (collab flaky) flaky1).1
    = Raise "resolution failed"
  ∧ (chooseNextBuild (collab flaky) (init (collab flaky) world0)).1
    = Raise "resolution failed".
Proof. vm_compute. by split_and!. Qed.

(** C3 (amended) on the [flaky] builder. *)
Lemma resolution_all_or_first_error_witness :
  (_getUnclaimedBuildRequests (collab flaky) flaky1).1 = Raise "resolution failed"
  ∧ (chooseNextBuild (collab flaky) flaky1).1 = Raise "resolution failed".
Proof.
  destruct (resolution_all_or_first_error (collab flaky) flaky1
              [request 1 0 10; request 2 0 20]) as (_ & _ & Hraise).
  - vm_compute. reflexivity.
  - destruct (Hraise 1%nat "resolution failed") as (Hg & Hup).
    + vm_compute. reflexivity.
    + intros j r Hj. destruct j as [|j]; [|lia].
      vm_compute. intros [= <-]. by eexists.
    + split; [exact Hg|]. apply Hup; [by eexists|done].
Defined.

End ChooserExamples.

(** ** The distributor *)

Module DistributorFacts.
Import Chooser Distributor Examples.

Lemma bind_Ok {S A B} (m : M S A) (k : A → M S B) (x : S) a x1 :
  m x = (Ok a, x1) → bind m k x = k a x1.
Proof. unfold bind. by intros ->. Qed.

Section Facts.
Context {Env : Type} (K : Collab Env).
Implicit Types s : BRD Env.

(** The trace of the world the distributor runs in. *)
Definition trace_of s : list Event := trace (world (bc s)).

Lemma add_in_progress_brids_spec brids s :
  _add_in_progress_brids brids s
  = (Ok tt, set_in_progress (list_to_set brids ∪ in_progress s) s).
Proof.
  revert s. induction brids as [|brid brids IH]; intros s; simpl.
  - unfold ret. f_equal. destruct s; unfold set_in_progress; simpl. f_equal.
    set_solver.
  - unfold bind, add_in_progress_buildrequest, modify. rewrite IH.
    f_equal. unfold set_in_progress; simpl. f_equal. set_solver.
Qed.

Lemma remove_in_progress_brids_spec brids s :
  _remove_in_progress_brids brids s
  = (Ok tt, set_in_progress (in_progress s ∖ list_to_set brids) s).
Proof.
  revert s. induction brids as [|brid brids IH]; intros s; simpl.
  - unfold ret. f_equal. destruct s; unfold set_in_progress; simpl. f_equal.
    set_solver.
  - unfold bind, remove_in_progress_buildrequest, modify. rewrite IH.
    f_equal. unfold set_in_progress; simpl. f_equal. set_solver.
Qed.

(** The distributor after a call that returned. *)
Definition logged (ev : Event) (e' : Env) s : BRD Env :=
  set_bc (set_world (mkWorld e' (trace_of s ++ [ev])) (bc s)) s.

Lemma call_returns {A} ev (f : Env → answer A * Env) s x e' :
  f (env (world (bc s))) = (Returns x, e') →
  Distributor.call ev f s = (Ok x, logged ev e' s).
Proof.
  intros Hf. unfold Distributor.call, with_bc, Chooser.call. by rewrite Hf.
Qed.

Lemma trace_of_logged ev e' s : trace_of (logged ev e' s) = trace_of s ++ [ev].
Proof. done. Qed.

Lemma trace_of_set_in_progress v s : trace_of (set_in_progress v s) = trace_of s.
Proof. done. Qed.

(** What a declined start does: the claim is undone for the ids of the
    batch, their markers are cleared, and [maybeStartBuildsForBuilder] is
    called with the name of the distributor ([self.name]), whatever the name
    of the builder. *)
Lemma declined_start_signals_own_name worker breqs s e1 e2 e3 :
  claimBuildRequests K (id <$> breqs) (env (world (bc s))) = (Returns true, e1) →
  bldr_maybeStartBuild K worker breqs e1 = (Returns false, e2) →
  unclaimBuildRequests K (id <$> breqs) e2 = (Returns tt, e3) →
  ∃ s', claim_and_start K worker breqs s = (Ok Continue, s')
    ∧ in_progress s'
      = (list_to_set (id <$> breqs) ∪ in_progress s) ∖ list_to_set (id <$> breqs)
    ∧ trace_of s' = trace_of s ++ [EvClaim (id <$> breqs);
                                    EvMaybeStartBuild worker (id <$> breqs);
                                    EvUnclaim (id <$> breqs);
                                    EvSignal (name s)].
Proof.
  intros Hc Hst Hun. unfold claim_and_start.
  rewrite (bind_Ok _ _ _ _ _ (add_in_progress_brids_spec _ _)).
  erewrite bind_Ok; [|by apply call_returns]. simpl.
  erewrite bind_Ok; [|by apply call_returns]. simpl.
  erewrite bind_Ok; [|by apply call_returns].
  rewrite (bind_Ok _ _ _ _ _ (remove_in_progress_brids_spec _ _)).
  unfold bind at 1, get.
  erewrite bind_Ok; [|by apply call_returns]. simpl.
  eexists. split; [reflexivity|]. split; [done|].
  repeat (rewrite ?trace_of_logged, ?trace_of_set_in_progress; simpl).
    rewrite <- ?app_assoc. reflexivity.
Qed.

End Facts.

(** The distributor that dispatches for the builder of a setup: a service
    without a name of its own, nothing in progress. *)
Definition distributor (s : Setup) : BRD unit :=
  mkBRD None false ∅ (Chooser.init (collab s) world0).

(** C2.  A failed claim does not leave the in-progress markers as they
    were: the ids are marked before the claim is issued and the branch for a
    refused claim does not clear them (the branch for a declined start
    does).  On the [simple] builder, nothing being marked, the store refuses
    the claim of request 7, and request 7 stays marked in progress. *)
Lemma failed_claim_leaves_marker :
  ∃ s', dispatch_body (collab (simple false true)) (distributor (simple false true))
        = (Ok Continue, s')
    ∧ in_progress (distributor (simple false true)) = ∅
    ∧ in_progress s' = {[7]}
    ∧ in_progress s' ≠ in_progress (distributor (simple false true)).
Proof.
  eexists. split; [vm_compute; reflexivity|]. simpl.
  split_and!; [done|set_solver|]. intros Heq.
  assert (7 ∈ (∅ : gset Z)) as Hin by (rewrite <- Heq; set_solver).
  set_solver.
Qed.

(** C5 on the builder named "builder" with request 7 and worker W1, the
    claim granted and the start declined: the claim is undone for request 7
    and its marker cleared, but the name passed to
    [maybeStartBuildsForBuilder] is the distributor's own ([None] here), not
    the builder's. *)
Theorem declined_start_signals_distributor_name :
  ∃ s', dispatch_body (collab (simple true false)) (distributor (simple true false))
        = (Ok Continue, s')
    ∧ bldr_name (collab (simple true false)) = "builder"
    ∧ trace_of s'
      = [EvFetch; EvGetBuilder 1; EvFromBrdict 7; EvNextWorker ["W1"] 7;
         EvCanStartBuild "W1" 7 (Some true);
         EvClaim [7]; EvMaybeStartBuild "W1" [7]; EvUnclaim [7]; EvSignal None]
    ∧ (EvSignal (Some (bldr_name (collab (simple true false)))) ∉ trace_of s')
    ∧ (7 ∉ in_progress s').
Proof.
  eexists. split; [vm_compute; reflexivity|].
  split; [reflexivity|]. split; [reflexivity|]. split.
  - unfold trace_of. simpl. rewrite !elem_of_cons, elem_of_nil.
    intros Hin. repeat (destruct Hin as [Hin|Hin]; [discriminate Hin|]). done.
  - change (7 ∉ (∅ : gset Z)). apply not_elem_of_empty.
Qed.

(** *** Signalling builders *)

(** The builders of the botmaster in the examples. *)
Definition two_builders : gmap string Builder :=
  {[ "a" := mkBuilder "a" (Some 1) (Some 10);
     "b" := mkBuilder "b" (Some 1) (Some 20) ]}.

(** A signal whose builders are a proper subset of the pending ones does
    nothing. *)
Lemma proper_subset_signal_is_noop builders_dict prioritizeBuilders new s :
  (list_to_set new : gset string) ⊂ list_to_set (_pending_builders s) →
  _maybeStartBuildsOn builders_dict prioritizeBuilders new s = s.
Proof.
  intros Hsub. unfold _maybeStartBuildsOn. by rewrite bool_decide_true.
Qed.

(** C4 on a signal for exactly the pending builders: with "b" and "a"
    pending, the signal for "a" and "b" is not a no-op: the pending list is
    sorted again (and changes), and an activity loop is started when none is
    active. *)
Theorem equal_set_signal_is_not_noop :
  (list_to_set ["a"; "b"] : gset string) ⊆ list_to_set ["b"; "a"]
  ∧ _maybeStartBuildsOn two_builders None ["a"; "b"] (mkPending ["b"; "a"] false 0 0)
    = mkPending ["a"; "b"] true 1 1
  ∧ _maybeStartBuildsOn two_builders None ["a"; "b"] (mkPending ["b"; "a"] true 1 1)
    = mkPending ["a"; "b"] true 1 2.
Proof. split; [set_solver|]. split; vm_compute; reflexivity. Qed.

End DistributorFacts.

(** ** More on the build chooser *)

Module ChooserMore.
Import PyList PyListFacts Chooser ChooserFacts.
Import DistributorFacts (bind_Ok).

Section More.
Context {Env : Type} (K : Collab Env).
Implicit Types c : BC Env.

Lemma getBuildRequestForBrdict_hit d c b :
  breqCache c !! buildrequestid d = Some b →
  _getBuildRequestForBrdict K d c = (Ok (Some b), c).
Proof. intros H. unfold _getBuildRequestForBrdict, bind, get. by rewrite H. Qed.

(** X1.  A request that was resolved once is answered from the memo of
    resolved requests from then on, without a call to the store or to
    [BuildRequest.fromBrdict]; a resolution that yields nothing, or raises,
    leaves the memo as it was (and so is tried again the next time). *)
Theorem resolution_memo d c r c1 :
  _getBuildRequestForBrdict K d c = (r, c1) →
  match r with
  | Ok (Some b) =>
      ∀ c2, breqCache c2 = breqCache c1 →
            _getBuildRequestForBrdict K d c2 = (Ok (Some b), c2)
  | _ => breqCache c1 = breqCache c
  end.
Proof.
  intros H.
  destruct (breqCache c !! buildrequestid d) as [b0|] eqn:Hm.
  - rewrite (getBuildRequestForBrdict_hit _ _ _ Hm) in H. injection H as <- <-.
    intros c2 Hc2. apply getBuildRequestForBrdict_hit. by rewrite Hc2.
  - unfold _getBuildRequestForBrdict in H. unfold bind at 1, get in H.
    rewrite Hm in H.
    minv H as builder c2 Hb.
    + apply call_inv in Hb as (a & e' & Ha & -> & Hr).
      destruct builder as [name|]; [|by injection H as <- <-].
      minv H as breq c3 Hf.
      * apply call_inv in Hf as (a' & e2 & Ha' & -> & Hr').
        destruct breq as [b|]; [|by injection H as <- <-].
        unfold bind, modify, ret in H. injection H as <- <-.
        intros c2 Hc2. apply getBuildRequestForBrdict_hit.
        rewrite Hc2. simpl. by rewrite lookup_insert_eq.
      * by apply call_inv in Hf as (a' & e2 & Ha' & -> & Hr').
      * by apply call_not_OutOfFuel in Hf.
    + by apply call_inv in Hb as (a & e' & Ha & -> & Hr).
    + by apply call_not_OutOfFuel in Hb.
Qed.

(** *** Looking a request up in the cache, and removing it *)

Lemma find_first_with_id x l :
  match List.find (λ d, bool_decide (x = buildrequestid d)) l with
  | Some d =>
      buildrequestid d = x
      ∧ ∃ l1 l2, l = l1 ++ d :: l2 ∧ x ∉ buildrequestid <$> l1
  | None => x ∉ buildrequestid <$> l
  end.
Proof.
  induction l as [|d l IH]; simpl.
  - by intros ?%elem_of_nil.
  - case_bool_decide as Hx.
    + split; [done|]. exists [], l. split; [done|]. by intros ?%elem_of_nil.
    + destruct (List.find _ l) as [d'|].
      * destruct IH as (Hd' & l1 & l2 & -> & Hl1). split; [done|].
        exists (d :: l1), l2. split; [done|].
        rewrite ?fmap_cons. by intros [?|?]%elem_of_cons.
      * rewrite ?fmap_cons. by intros [?|?]%elem_of_cons.
Qed.

(** X2.  With the cache loaded, [_getBrdictForBuildRequest] changes nothing
    and returns the first cached dictionary that carries the request's id,
    or [None] when no cached dictionary carries it. *)
Theorem getBrdictForBuildRequest_lookup b c l :
  unclaimedBrdicts c = Some l →
  ∃ o, _getBrdictForBuildRequest (Some b) c = (Ok o, c)
    ∧ match o with
      | Some d =>
          buildrequestid d = id b
          ∧ ∃ l1 l2, l = l1 ++ d :: l2 ∧ id b ∉ buildrequestid <$> l1
      | None => id b ∉ buildrequestid <$> l
      end.
Proof.
  intros Hl. unfold _getBrdictForBuildRequest, bind, get, ret. rewrite Hl.
  eexists. split; [done|]. apply find_first_with_id.
Qed.

Lemma forget_cons x d l :
  forget x (d :: l) = if decide (x = buildrequestid d) then l else d :: forget x l.
Proof.
  unfold forget. simpl. case_bool_decide as Hx.
  - rewrite decide_True by done. simpl. by rewrite decide_True.
  - rewrite decide_False by done.
    destruct (List.find _ l) as [d'|] eqn:Hf; [|done].
    apply find_some in Hf as [_ Hd']. apply bool_decide_eq_true in Hd'.
    simpl. rewrite decide_False; [done|]. by intros ->.
Qed.

Lemma find_forget_ne x y l :
  x ≠ y →
  List.find (λ d, bool_decide (y = buildrequestid d)) (forget x l)
  = List.find (λ d, bool_decide (y = buildrequestid d)) l.
Proof.
  intros Hne. induction l as [|d l IH]; [done|].
  rewrite forget_cons. case_decide as Hx; simpl.
  - rewrite bool_decide_false; [done|]. congruence.
  - by rewrite IH.
Qed.

Lemma find_forget_eq x l :
  NoDup (buildrequestid <$> l) →
  List.find (λ d, bool_decide (x = buildrequestid d)) (forget x l) = None.
Proof.
  intros Hnd. pose proof (forget_notin x l Hnd) as Hx.
  pose proof (find_first_with_id x (forget x l)) as Hf.
  destruct (List.find _ (forget x l)) as [d|]; [|done].
  destruct Hf as (Hd & l1 & l2 & Hl & _). exfalso. apply Hx.
  rewrite Hl, fmap_app, fmap_cons, Hd. set_solver.
Qed.

(** X3.  With distinct ids in the cache, removing a request takes its
    dictionary out of the cache and its entry out of the memo, so that a
    lookup of the request finds nothing afterwards; the other requests are
    looked up as before, and removing the request a second time changes
    nothing. *)
Theorem removal_then_lookup b c l :
  unclaimedBrdicts c = Some l →
  NoDup (buildrequestid <$> l) →
  ∃ c1, _removeBuildRequest (Some b) c = (Ok tt, c1)
    ∧ _getBrdictForBuildRequest (Some b) c1 = (Ok None, c1)
    ∧ breqCache c1 !! id b = None
    ∧ (∀ b', id b' ≠ id b →
         (_getBrdictForBuildRequest (Some b') c1).1
         = (_getBrdictForBuildRequest (Some b') c).1
         ∧ breqCache c1 !! id b' = breqCache c !! id b')
    ∧ _removeBuildRequest (Some b) c1 = (Ok tt, c1).
Proof.
  intros Hl Hnd. exists (removed b c).
  split; [by apply removeBuildRequest_removed|].
  assert (unclaimedBrdicts (removed b c) = Some (forget (id b) l)) as Hl1.
  { unfold removed. simpl. by rewrite Hl. }
  split_and!.
  - unfold _getBrdictForBuildRequest, bind, get, ret. rewrite Hl1.
    by rewrite find_forget_eq.
  - unfold removed. simpl. apply lookup_delete_eq.
  - intros b' Hne. split.
    + unfold _getBrdictForBuildRequest, bind, get, ret. rewrite Hl1, Hl. simpl.
      f_equal. by apply find_forget_ne.
    + unfold removed. simpl. by apply lookup_delete_ne.
  - rewrite removeBuildRequest_removed by (by rewrite Hl1). f_equal.
    destruct c as [u m p f w]. simpl in *. subst u.
    unfold removed, set_breqCache, set_unclaimedBrdicts. simpl.
    rewrite delete_delete_eq. do 2 f_equal.
    unfold forget at 1. by rewrite find_forget_eq.
Qed.

(** *** Errors of the store and of the policies *)

Lemma bind_Raise {S A B} (m : M S A) (k : A → M S B) (x : S) e x1 :
  m x = (Raise e, x1) → bind m k x = (Raise e, x1).
Proof. unfold bind. by intros ->. Qed.

(** A first round of [popNextBuild] that breaks decides [chooseNextBuild]. *)
Lemma chooseNextBuild_first_round c x c1 :
  popNextBuild_body K c = (Ok (Break x), c1) →
  chooseNextBuild K c = (Ok (chosen x), c1).
Proof.
  intros Hbody. unfold chooseNextBuild, popNextBuild. simpl. unfold bind.
  rewrite Hbody. by destruct x as [[w|] [b|]].
Qed.

Lemma chooseNextBuild_first_round_raise c e c1 :
  popNextBuild_body K c = (Raise e, c1) →
  chooseNextBuild K c = (Raise e, c1).
Proof.
  intros Hbody. unfold chooseNextBuild, popNextBuild. simpl. unfold bind.
  by rewrite Hbody.
Qed.

(** X4.  When the store fails to list the unclaimed requests, the error
    leaves [_fetchUnclaimedBrdicts] and [chooseNextBuild], and nothing is
    memoized: the cache stays unset, and the next fetch asks the store
    again. *)
Theorem failed_fetch_is_not_cached c e e1 :
  unclaimedBrdicts c = None →
  data_get_buildrequests K (env (world c)) = (Raises e, e1) →
  ∃ c1, _fetchUnclaimedBrdicts K c = (Raise e, c1)
    ∧ chooseNextBuild K c = (Raise e, c1)
    ∧ unclaimedBrdicts c1 = None
    ∧ fetch_calls (trace (world c1)) = S (fetch_calls (trace (world c)))
    ∧ fetch_calls (trace (world (_fetchUnclaimedBrdicts K c1).2))
      = S (fetch_calls (trace (world c1))).
Proof.
  intros Hn Hs.
  destruct (fetch_uncached K c Hn) as (a & e' & Ha & Hf).
  rewrite Hs in Ha. injection Ha as <- <-.
  eexists. split; [exact Hf|].
  split_and!.
  - unfold chooseNextBuild, popNextBuild. simpl.
    apply bind_Raise. apply bind_Raise.
    unfold popNextBuild_body. apply bind_Raise.
    unfold _getNextUnclaimedBuildRequest. by apply bind_Raise.
  - done.
  - simpl. apply fetch_calls_snoc.
  - match goal with |- context [_fetchUnclaimedBrdicts K ?c1] =>
      destruct (fetch_uncached K c1) as (a & e' & Ha & Hf'); [done|] end.
    rewrite Hf'. destruct a; simpl; apply fetch_calls_snoc.
Qed.

(** *** Which request is picked *)

(** The head of the list sorted by descending priority is the first entry
    of highest priority: Python's sort is stable, also with
    [reverse=True]. *)
Lemma by_priority_desc_head l d rest :
  by_priority_desc l = d :: rest →
  ∃ l1 l2, l = l1 ++ d :: l2
    ∧ Forall (λ x, priority x < priority d) l1
    ∧ Forall (λ x, priority x ≤ priority d) l2.
Proof.
  unfold by_priority_desc. revert d rest.
  induction l as [|x l IH]; intros d rest; simpl; [done|].
  destruct (sort _ l) as [|m rest'] eqn:Hs; simpl.
  - intros [= <- <-]. apply (f_equal length) in Hs.
    rewrite sort_length in Hs. destruct l; [|done].
    exists [], []. by split_and!.
  - destruct (IH m rest' eq_refl) as (l1 & l2 & -> & H1 & H2).
    destruct (priority x <? priority m) eqn:Hlt.
    + intros [= <- <-]. apply Z.ltb_lt in Hlt.
      exists (x :: l1), l2. split_and!; [done| |done]. by constructor.
    + intros [= <- <-]. apply Z.ltb_ge in Hlt.
      exists [], (l1 ++ m :: l2). split_and!; [done|done|].
      apply Forall_app. split; [|constructor; [done|]].
      * eapply Forall_impl; [exact H1|]. simpl. lia.
      * eapply Forall_impl; [exact H2|]. simpl. lia.
Qed.

(** X5.  Without a [nextBuild] policy, the request that is picked is the
    first cached entry of highest priority: no cached entry has a higher
    priority, and every entry in front of it has a lower one (so that, the
    cache being sorted by id, ties go to the smallest id). *)
Theorem default_pick_highest_priority_first c l :
  config_nextBuild K = None →
  unclaimedBrdicts c = Some l →
  l ≠ [] →
  ∃ l1 d l2, l = l1 ++ d :: l2
    ∧ Forall (λ x, priority x < priority d) l1
    ∧ Forall (λ x, priority x ≤ priority d) l2
    ∧ _getNextUnclaimedBuildRequest K c = _getBuildRequestForBrdict K d c.
Proof.
  intros Hcfg Hl Hne.
  destruct (by_priority_desc l) as [|d rest] eqn:Hs.
  { apply (f_equal length) in Hs. unfold by_priority_desc in Hs.
    rewrite sort_length in Hs. by destruct l. }
  destruct (by_priority_desc_head _ _ _ Hs) as (l1 & l2 & Heq & H1 & H2).
  exists l1, d, l2. split_and!; [done..|].
  unfold _getNextUnclaimedBuildRequest.
  rewrite (bind_Ok _ _ _ _ _ (fetch_cached K c l Hl)).
  rewrite Hcfg, Hs. by destruct l.
Qed.

(** X6.  With a [nextBuild] policy, once the cached entries have been
    resolved to [breqs], the pick is what the policy returns if that is one
    of [breqs]; when the policy raises, or returns a request it was not
    shown, no request is picked, no error is raised, and [chooseNextBuild]
    returns [(None, None)]. *)
Theorem nextBuild_pick_is_checked nextBuild c l breqs c1 a e1 :
  config_nextBuild K = Some nextBuild →
  unclaimedBrdicts c = Some l →
  l ≠ [] →
  _getUnclaimedBuildRequests K c = (Ok breqs, c1) →
  nextBuild breqs (env (world c1)) = (a, e1) →
  ∃ o,
    _getNextUnclaimedBuildRequest K c
    = (Ok o, set_world (mkWorld e1 (trace (world c1) ++ [EvNextBuild breqs])) c1)
    ∧ (∀ x, a = Returns x → x ∈ breqs → o = x)
    ∧ (∀ x, a = Returns x → x ∉ breqs → o = None)
    ∧ (∀ e, a = Raises e → o = None)
    ∧ (o = None →
       chooseNextBuild K c
       = (Ok (None, None),
          set_world (mkWorld e1 (trace (world c1) ++ [EvNextBuild breqs])) c1)).
Proof.
  intros Hcfg Hl Hne Hg Ha.
  assert (∃ o,
    _getNextUnclaimedBuildRequest K c
    = (Ok o, set_world (mkWorld e1 (trace (world c1) ++ [EvNextBuild breqs])) c1)
    ∧ (∀ x, a = Returns x → x ∈ breqs → o = x)
    ∧ (∀ x, a = Returns x → x ∉ breqs → o = None)
    ∧ (∀ e, a = Raises e → o = None)) as (o & Hpick & Hin & Hout & Hraise).
  { unfold _getNextUnclaimedBuildRequest.
    rewrite (bind_Ok _ _ _ _ _ (fetch_cached K c l Hl)).
    rewrite Hcfg. destruct l as [|d0 l0]; [done|].
    rewrite (bind_Ok _ _ _ _ _ Hg).
    unfold try_except, bind, call, ret. rewrite Ha.
    destruct a as [x|e]; simpl.
    - unfold mem. case_bool_decide as Hx.
      + exists x. split_and!; [done|by intros ? [= <-]..|done].
      + exists None. split_and!; [done|by intros ? [= <-]..|done].
    - exists None. by split_and!. }
  exists o. split_and!; [done..|].
  intros ->.
  assert (popNextBuild_body K c
          = (Ok (Break (None, None)),
             set_world (mkWorld e1 (trace (world c1) ++ [EvNextBuild breqs])) c1))
    as Hbody.
  { unfold popNextBuild_body. by rewrite (bind_Ok _ _ _ _ _ Hpick). }
  by rewrite (chooseNextBuild_first_round _ _ _ Hbody).
Qed.

(** *** Which worker is handed out *)

(** X7.  [_popNextWorker] never raises (an error of the next-worker policy
    is swallowed).  A worker it hands out was in the preferred list or in
    the pool, and is taken out of it; when it hands out nothing, the pool is
    as before, whatever the policy named. *)
Theorem popNextWorker_safe b c r c' :
  _popNextWorker K b c = (r, c') →
  ∃ wo, r = Ok wo
    ∧ match wo with
      | Some w =>
          w ∈ preferredWorkers c ++ workerpool c
          ∧ S (workers_left c') = workers_left c
      | None => workerpool c' = workerpool c ∧ preferredWorkers c' = []
      end.
Proof.
  intros (wo & -> & Hrun)%popNextWorker_spec. exists wo. split; [done|].
  destruct wo as [w|].
  - split; [|by eapply popNextWorker_workers_left].
    inversion Hrun as [w' rest Hp| |a e' w' Hp Hne Hn Ha Hin|]; subst.
    + rewrite Hp. set_solver.
    + set_solver.
  - inversion Hrun as [|Hp Hw| |a e' Hp Hne Hn Ha]; subst; by simpl.
Qed.

Lemma find_usable_run_accepted b wo rec c r c' :
  find_usable_run K b wo rec c r c' →
  ∀ w' rec', r = Ok (Some w', rec') →
  ∃ t, trace (world c') = t ++ [EvCanStartBuild w' (id b) (Some true)].
Proof.
  induction 1 as [rec c|w rec c e' Hc|w rec c e e' Hc
                  |w rec c e' wo c2 r c3 Hc Hpop Hrun IH];
    intros w' rec' Hr; try done.
  - injection Hr as <- <-. by eexists.
  - by eapply IH.
Qed.

Lemma loop_run_accepted c r c' :
  loop_run K c r c' →
  ∀ w b, r = Ok (Some w, Some b) →
  ∃ t, trace (world c') = t ++ [EvCanStartBuild w (id b) (Some true)].
Proof.
  induction 1 as [c x c' Hb|c e c' Hb|c c1 r c' Hb Hrun IH]; intros w b Hr;
    [| done | by eapply IH].
  injection Hr as ->.
  inversion Hb as [| | |b' c1 w0 c2 w' rec c4 Hg Hpop Hfu| |]; subst.
  destruct (unpopped_frame rec c4) as (_ & _ & _ & ->).
  by eapply find_usable_run_accepted.
Qed.

(** X8.  When [chooseNextBuild] returns a worker, it returns it with
    exactly one request, and the last call it made was the builder's
    [canStartBuild] for this worker and this request, which answered yes. *)
Theorem chosen_worker_was_approved c w breqs c' :
  chooseNextBuild K c = (Ok (Some w, Some breqs), c') →
  ∃ b t, breqs = [b]
    ∧ trace (world c') = t ++ [EvCanStartBuild w (id b) (Some true)].
Proof.
  unfold chooseNextBuild. intros H. minv H as x c1 Hp.
  destruct x as [[w0|] [b|]]; try done.
  injection H as <- <- <-.
  exists b. unfold popNextBuild in Hp.
  apply popNextBuild_loop_run in Hp as [?|Hrun]; [done|].
  destruct (loop_run_accepted _ _ _ Hrun w0 b eq_refl) as [t Ht]. eauto.
Qed.

(** X9.  With no worker in the pool or the preferred list and none
    available on the builder, [chooseNextBuild] returns [(None, None)] (or
    the error of picking a request): it asks neither the next-worker policy
    nor [canStartBuild], and takes nothing out of the cache. *)
Theorem no_workers_no_pick c r c' :
  (∀ e, getAvailableWorkers K e = []) →
  workerpool c = [] →
  preferredWorkers c = [] →
  chooseNextBuild K c = (r, c') →
  (r = Ok (None, None) ∨ ∃ e, r = Raise e)
  ∧ extends (λ e, is_request_event e = true) c c'
  ∧ unclaimedBrdicts c' = unclaimedBrdicts (_fetchUnclaimedBrdicts K c).2
  ∧ workerpool c' = [] ∧ preferredWorkers c' = [].
Proof.
  intros Hnone Hpool Hpref Hchoose.
  assert (∀ ro c1, _getNextUnclaimedBuildRequest K c = (ro, c1) →
            extends (λ e, is_request_event e = true) c c1
            ∧ unclaimedBrdicts c1 = unclaimedBrdicts (_fetchUnclaimedBrdicts K c).2
            ∧ workerpool c1 = [] ∧ preferredWorkers c1 = []) as Hpick.
  { intros ro c1 ([Hw Hp] & He & _ & Hu & _)%getNextUnclaimedBuildRequest_spec.
    split_and!; [done|done|congruence..]. }
  assert (∀ c1, workerpool c1 = [] → preferredWorkers c1 = [] →
            workerpool (refill K c1) = [] ∧ preferredWorkers (refill K c1) = [])
    as Hrefill.
  { intros c1 Hw Hp. unfold refill. rewrite Hw, Hp. simpl. by rewrite Hnone. }
  destruct (popNextBuild_body K c) as [rb cb] eqn:Hbody.
  pose proof (popNextBuild_body_run K _ _ _ Hbody) as Hrun.
  inversion Hrun as [e c1 Hg|c1 Hg|b c1 c2 Hg Hpop|b c1 w c2 w' rec c4 Hg Hpop Hfu
                     |b c1 w c2 rec c4 Hg Hpop Hfu|b c1 w c2 e c4 Hg Hpop Hfu];
    subst;
    destruct (Hpick _ _ Hg) as (He & Hu & Hw & Hp);
    try (destruct (Hrefill _ Hw Hp) as [Hw' Hp'];
         inversion Hpop as [w1 rest Hq|Hq Hq'|a e' w1 Hq Hq'|a e' Hq Hq'];
         subst; congruence).
  - rewrite (chooseNextBuild_first_round_raise _ _ _ Hbody) in Hchoose.
    injection Hchoose as <- <-. split_and!; eauto.
  - rewrite (chooseNextBuild_first_round _ _ _ Hbody) in Hchoose.
    injection Hchoose as <- <-. split_and!; eauto.
  - destruct (Hrefill _ Hw Hp) as [Hw' Hp'].
    rewrite (chooseNextBuild_first_round _ _ _ Hbody) in Hchoose.
    injection Hchoose as <- <-.
    inversion Hpop as [|Hq Hq'| |a e' Hq Hq']; subst; [|congruence].
    destruct (refill_frame K c1) as (Hu1 & _ & _ & Hworld).
    split_and!; [by left| |congruence|done..].
    eapply extends_trans; [done|]. by apply extends_same_world.
Qed.

(** *** Workers are neither lost nor duplicated *)

(** The workers a chooser still has: the preferred ones, then the pool. *)
Definition workers_of c : list Worker := preferredWorkers c ++ workerpool c.

Lemma remove_first_Permutation {A} `{EqDecision A} (x : A) l :
  x ∈ l → x :: remove_first x l ≡ₚ l.
Proof.
  induction l as [|y l IH]; simpl.
  - by intros ?%elem_of_nil.
  - destruct (decide (x = y)) as [->|Hne]; [done|].
    intros [?|Hin]%elem_of_cons; [done|].
    rewrite Permutation_swap. by rewrite IH.
Qed.

Lemma popNextWorker_run_workers b c wo c' :
  popNextWorker_run K b c wo c' →
  option_list wo ++ workers_of c' ≡ₚ workers_of c.
Proof.
  unfold workers_of.
  destruct 1 as [w rest Hp|Hp Hw|a e' w Hp Hne Hn Ha Hin|a e' Hp Hne Hn Ha];
    simpl; try done.
  - by rewrite Hp.
  - rewrite Hp. simpl. by apply remove_first_Permutation.
Qed.

Lemma find_usable_run_workers b wo rec c r c' :
  find_usable_run K b wo rec c r c' →
  ∀ wo' rec', r = Ok (wo', rec') →
  rec' ++ option_list wo' ++ workers_of c'
  ≡ₚ rec ++ option_list wo ++ workers_of c.
Proof.
  induction 1 as [rec c|w rec c e' Hc|w rec c e e' Hc
                  |w rec c e' wo c2 r c3 Hc Hpop Hrun IH];
    intros wo' rec' Hr; try done.
  - by injection Hr as <- <-.
  - by injection Hr as <- <-.
  - rewrite (IH _ _ Hr). apply popNextWorker_run_workers in Hpop.
    rewrite <- app_assoc. simpl. rewrite Hpop.
    apply Permutation_app_head. done.
Qed.

(** X21.  A round of [popNextBuild] that returns, run by a chooser that
    still has workers, neither loses nor duplicates a worker: the workers
    the chooser has afterwards (recycled ones included), together with the
    worker it hands out, if any, are the workers it had before. *)
Theorem round_conserves_workers c x c' :
  workers_of c ≠ [] →
  popNextBuild_body K c = (Ok x, c') →
  match x with
  | Break (Some w, _) => w :: workers_of c'
  | _ => workers_of c'
  end ≡ₚ workers_of c.
Proof.
  intros Hsome Hbody.
  assert (∀ r1 c1, _getNextUnclaimedBuildRequest K c = (r1, c1) →
            workers_of (refill K c1) = workers_of c) as Hpick.
  { intros r1 c1 ([Hw Hp] & _)%getNextUnclaimedBuildRequest_spec.
    unfold refill, workers_of in *. rewrite Hw, Hp.
    destruct (workerpool c) eqn:E1, (preferredWorkers c) eqn:E2;
      simpl; rewrite ?Hw, ?Hp; done. }
  assert (∀ b c2 rec c4 wo,
            find_usable_run K b wo [] (removed b c2) (Ok (None, rec)) c4 →
            workers_of (unpopped rec c4) ≡ₚ option_list wo ++ workers_of c2)
    as Hnone.
  { intros b c2 rec c4 wo Hfu.
    apply find_usable_run_workers with (wo' := None) (rec' := rec) in Hfu;
      [|done].
    unfold workers_of in *. rewrite unpopped_preferredWorkers.
    destruct (unpopped_frame rec c4) as (_ & _ & -> & _).
    simpl in Hfu. by rewrite <- app_assoc, Hfu. }
  apply popNextBuild_body_run in Hbody.
  inversion Hbody as [|c1 Hg|b c1 c2 Hg Hpop|b c1 w c2 w' rec c4 Hg Hpop Hfu
                      |b c1 w c2 rec c4 Hg Hpop Hfu|]; subst.
  - apply getNextUnclaimedBuildRequest_spec in Hg as ([Hw Hp] & _).
    unfold workers_of. by rewrite Hw, Hp.
  - apply popNextWorker_run_workers in Hpop. simpl in Hpop.
    by rewrite Hpop, (Hpick _ _ Hg).
  - apply popNextWorker_run_workers in Hpop. simpl in Hpop.
    rewrite <- (Hpick _ _ Hg), <- Hpop.
    apply find_usable_run_workers with (wo' := Some w') (rec' := rec) in Hfu;
      [|done].
    unfold workers_of in *. rewrite unpopped_preferredWorkers.
    destruct (unpopped_frame rec c4) as (_ & _ & -> & _).
    simpl in Hfu. rewrite <- Hfu, <- app_assoc.
    by rewrite Permutation_middle.
  - apply popNextWorker_run_workers in Hpop. simpl in Hpop.
    rewrite <- (Hpick _ _ Hg), <- Hpop. by apply (Hnone b c2 rec c4 (Some w)).
Qed.

End More.
End ChooserMore.

(** ** More on the build chooser, on concrete collaborators *)

Module ChooserMoreExamples.
Import PyList Chooser ChooserFacts ChooserMore Examples.

(** The builder of [simple], its fresh chooser, and the chooser once its
    cache is loaded. *)
Definition K7 : Collab unit := collab (simple true true).
Definition fresh7 : BC unit := init K7 world0.
Definition loaded7 : BC unit := (_fetchUnclaimedBrdicts K7 fresh7).2.
Definition breq7 : BuildRequest := mkBreq 7 100 false 0 "builder".

(** X1 on request 7 of the [simple] builder. *)
Lemma resolution_memo_witness :
  _getBuildRequestForBrdict K7 (request 7 0 10)
    (_getBuildRequestForBrdict K7 (request 7 0 10) fresh7).2
  = (Ok (Some breq7), (_getBuildRequestForBrdict K7 (request 7 0 10) fresh7).2).
Proof.
  apply (resolution_memo K7 (request 7 0 10) fresh7 (Ok (Some breq7))
           (_getBuildRequestForBrdict K7 (request 7 0 10) fresh7).2).
  - reflexivity.
  - reflexivity.
Defined.

(** X2 on request 7 in the loaded cache of the [simple] builder. *)
Lemma getBrdictForBuildRequest_lookup_witness :
  ∃ o, _getBrdictForBuildRequest (Some breq7) loaded7 = (Ok o, loaded7)
    ∧ match o with
      | Some d =>
          buildrequestid d = id breq7
          ∧ ∃ l1 l2, [request 7 0 10] = l1 ++ d :: l2
                      ∧ id breq7 ∉ buildrequestid <$> l1
      | None => id breq7 ∉ buildrequestid <$> [request 7 0 10]
      end.
Proof.
  apply (getBrdictForBuildRequest_lookup breq7 loaded7 [request 7 0 10]).
  reflexivity.
Defined.

(** X3 on request 7 in the loaded cache of the [simple] builder. *)
Lemma removal_then_lookup_witness :
  ∃ c1, _removeBuildRequest (Some breq7) loaded7 = (Ok tt, c1)
    ∧ _getBrdictForBuildRequest (Some breq7) c1 = (Ok None, c1)
    ∧ breqCache c1 !! id breq7 = None
    ∧ (∀ b', id b' ≠ id breq7 →
         (_getBrdictForBuildRequest (Some b') c1).1
         = (_getBrdictForBuildRequest (Some b') loaded7).1
         ∧ breqCache c1 !! id b' = breqCache loaded7 !! id b')
    ∧ _removeBuildRequest (Some breq7) c1 = (Ok tt, c1).
Proof.
  apply (removal_then_lookup breq7 loaded7 [request 7 0 10]).
  - reflexivity.
  - simpl. apply NoDup_singleton.
Defined.

(** The builder of [simple] with a store that fails to answer. *)
Definition K_down : Collab unit :=
  {| data_get_buildrequests := λ e, (Raises "store down", e);
     data_get_builder := data_get_builder K7;
     fromBrdict := fromBrdict K7;
     config_nextBuild := config_nextBuild K7;
     nextWorker := nextWorker K7;
     getAvailableWorkers := getAvailableWorkers K7;
     bldr_canStartBuild := bldr_canStartBuild K7;
     bldr_name := bldr_name K7;
     bldr_maybeStartBuild := bldr_maybeStartBuild K7;
     claimBuildRequests := claimBuildRequests K7;
     unclaimBuildRequests := unclaimBuildRequests K7;
     data_get_buildsets := data_get_buildsets K7 |}.

(** X4 on the store that is down. *)
Lemma failed_fetch_is_not_cached_witness :
  ∃ c1, _fetchUnclaimedBrdicts K_down (init K_down world0) = (Raise "store down", c1)
    ∧ chooseNextBuild K_down (init K_down world0) = (Raise "store down", c1)
    ∧ unclaimedBrdicts c1 = None
    ∧ fetch_calls (trace (world c1))
      = S (fetch_calls (trace (world (init K_down world0))))
    ∧ fetch_calls (trace (world (_fetchUnclaimedBrdicts K_down c1).2))
      = S (fetch_calls (trace (world c1))).
Proof.
  apply (failed_fetch_is_not_cached K_down (init K_down world0) "store down" tt).
  - reflexivity.
  - reflexivity.
Defined.

(** Three requests, the second and third of the highest priority. *)
Definition by_priority : Setup :=
  {| stored := [request 1 0 10; request 2 5 20; request 3 5 30];
     workers := ["W1"];
     policy := head;
     usable := λ _, true;
     broken := [];
     pick := None;
     claim_ok := true;
     start_ok := true |}.

(** X5 on the [by_priority] builder (request 2 is picked). *)
Lemma default_pick_highest_priority_first_witness :
  ∃ l1 d l2,
    [request 1 0 10; request 2 5 20; request 3 5 30] = l1 ++ d :: l2
    ∧ Forall (λ x, priority x < priority d) l1
    ∧ Forall (λ x, priority x ≤ priority d) l2
    ∧ _getNextUnclaimedBuildRequest (collab by_priority)
        (_fetchUnclaimedBrdicts (collab by_priority)
           (init (collab by_priority) world0)).2
      = _getBuildRequestForBrdict (collab by_priority) d
          (_fetchUnclaimedBrdicts (collab by_priority)
             (init (collab by_priority) world0)).2.
Proof.
  apply (default_pick_highest_priority_first (collab by_priority)
           (_fetchUnclaimedBrdicts (collab by_priority)
              (init (collab by_priority) world0)).2
           [request 1 0 10; request 2 5 20; request 3 5 30]).
  - reflexivity.
  - reflexivity.
  - discriminate.
Defined.

(** One request, and a [nextBuild] policy that returns a request it was not
    shown. *)
Definition stranger : Setup :=
  {| stored := [request 7 0 10];
     workers := ["W1"];
     policy := head;
     usable := λ _, true;
     broken := [];
     pick := Some (λ _, Some (mkBreq 99 100 false 0 "builder"));
     claim_ok := true;
     start_ok := true |}.

Definition stranger1 : BC unit :=
  (_fetchUnclaimedBrdicts (collab stranger) (init (collab stranger) world0)).2.

(** X6 on the [stranger] builder. *)
Lemma nextBuild_pick_is_checked_witness :
  ∃ o,
    _getNextUnclaimedBuildRequest (collab stranger) stranger1
    = (Ok o,
       set_world
         (mkWorld tt
            (trace (world (_getUnclaimedBuildRequests (collab stranger) stranger1).2)
             ++ [EvNextBuild [Some breq7]]))
         (_getUnclaimedBuildRequests (collab stranger) stranger1).2)
    ∧ (∀ x, Returns (Some (mkBreq 99 100 false 0 "builder")) = Returns x →
            x ∈ [Some breq7] → o = x)
    ∧ (∀ x, Returns (Some (mkBreq 99 100 false 0 "builder")) = Returns x →
            x ∉ [Some breq7] → o = None)
    ∧ (∀ e, Returns (Some (mkBreq 99 100 false 0 "builder")) = Raises e → o = None)
    ∧ (o = None →
       chooseNextBuild (collab stranger) stranger1
       = (Ok (None, None),
          set_world
            (mkWorld tt
               (trace (world (_getUnclaimedBuildRequests (collab stranger) stranger1).2)
                ++ [EvNextBuild [Some breq7]]))
            (_getUnclaimedBuildRequests (collab stranger) stranger1).2)).
Proof.
  apply (nextBuild_pick_is_checked (collab stranger)
           (λ _ e, (Returns (Some (mkBreq 99 100 false 0 "builder")), e))
           stranger1 [request 7 0 10] [Some breq7]
           (_getUnclaimedBuildRequests (collab stranger) stranger1).2
           (Returns (Some (mkBreq 99 100 false 0 "builder"))) tt).
  - reflexivity.
  - reflexivity.
  - discriminate.
  - reflexivity.
  - reflexivity.
Defined.

(** X7 on the first draw of the [simple] builder. *)
Lemma popNextWorker_safe_witness :
  ∃ wo, (_popNextWorker K7 breq7 fresh7).1 = Ok wo
    ∧ match wo with
      | Some w =>
          w ∈ preferredWorkers fresh7 ++ workerpool fresh7
          ∧ S (workers_left (_popNextWorker K7 breq7 fresh7).2) = workers_left fresh7
      | None =>
          workerpool (_popNextWorker K7 breq7 fresh7).2 = workerpool fresh7
          ∧ preferredWorkers (_popNextWorker K7 breq7 fresh7).2 = []
      end.
Proof.
  apply (popNextWorker_safe K7 breq7 fresh7). reflexivity.
Defined.

(** X8 on the [simple] builder: W1 is chosen for request 7. *)
Lemma chosen_worker_was_approved_witness :
  ∃ b t, [breq7] = [b]
    ∧ trace (world (chooseNextBuild K7 fresh7).2)
      = t ++ [EvCanStartBuild "W1" (id b) (Some true)].
Proof.
  apply (chosen_worker_was_approved K7 fresh7 "W1" [breq7]
           (chooseNextBuild K7 fresh7).2).
  reflexivity.
Defined.

(** A request and no worker. *)
Definition idle : Setup :=
  {| stored := [request 7 0 10];
     workers := [];
     policy := head;
     usable := λ _, true;
     broken := [];
     pick := None;
     claim_ok := true;
     start_ok := true |}.

(** X9 on the [idle] builder. *)
Lemma no_workers_no_pick_witness :
  ((chooseNextBuild (collab idle) (init (collab idle) world0)).1 = Ok (None, None)
   ∨ ∃ e, (chooseNextBuild (collab idle) (init (collab idle) world0)).1 = Raise e)
  ∧ extends (λ e, is_request_event e = true) (init (collab idle) world0)
      (chooseNextBuild (collab idle) (init (collab idle) world0)).2
  ∧ unclaimedBrdicts (chooseNextBuild (collab idle) (init (collab idle) world0)).2
    = unclaimedBrdicts
        (_fetchUnclaimedBrdicts (collab idle) (init (collab idle) world0)).2
  ∧ workerpool (chooseNextBuild (collab idle) (init (collab idle) world0)).2 = []
  ∧ preferredWorkers (chooseNextBuild (collab idle) (init (collab idle) world0)).2 = [].
Proof.
  apply (no_workers_no_pick (collab idle) (init (collab idle) world0)
           (chooseNextBuild (collab idle) (init (collab idle) world0)).1
           (chooseNextBuild (collab idle) (init (collab idle) world0)).2).
  - reflexivity.
  - reflexivity.
  - reflexivity.
  - reflexivity.
Defined.

(** X21 on the first round of the [stubborn] chooser: W1 and W2 are both
    turned down, and both are still there afterwards. *)
Lemma round_conserves_workers_witness :
  workers_of ChooserExamples.stubborn1 ≡ₚ workers_of ChooserExamples.stubborn0.
Proof.
  apply (round_conserves_workers (collab stubborn) ChooserExamples.stubborn0
           Continue ChooserExamples.stubborn1).
  - discriminate.
  - reflexivity.
Defined.

End ChooserMoreExamples.

(** ** More on the dispatch for one builder *)

Module DispatchMore.
Import PyList Chooser Distributor ChooserFacts DistributorFacts ChooserMore.

(** The calls a chooser makes. *)
Definition is_chooser_event (e : Event) : bool :=
  is_request_event e || is_worker_event e.

(** What may come directly before a call of the dispatch: a start comes
    directly after the claim of the same ids, an unclaim directly after the
    start of the same ids, a signal directly after an unclaim; and a claim
    is for one request. *)
Definition step_ok (prev : option Event) (e : Event) : Prop :=
  match e with
  | EvClaim brids => length brids = 1%nat
  | EvMaybeStartBuild _ brids => prev = Some (EvClaim brids)
  | EvUnclaim brids => ∃ w, prev = Some (EvMaybeStartBuild w brids)
  | EvSignal _ => ∃ brids, prev = Some (EvUnclaim brids)
  | _ => True
  end.

Fixpoint ordered (prev : option Event) (t : list Event) : Prop :=
  match t with
  | [] => True
  | e :: t' => step_ok prev e ∧ ordered (Some e) t'
  end.

Lemma ordered_app p t1 t2 :
  ordered p t1 → (∀ q, ordered q t2) → ordered p (t1 ++ t2).
Proof.
  revert p. induction t1 as [|e t1 IH]; intros p H1 H2; simpl; [done|].
  destruct H1 as [He H1]. split; [done|]. by apply IH.
Qed.

Lemma ordered_free t :
  Forall (λ e, is_chooser_event e = true ∨ ∃ l, e = EvQueryBuildsets l) t →
  ∀ p, ordered p t.
Proof.
  induction 1 as [|e t He Ht IH]; intros p; simpl; [done|].
  split; [|done]. destruct He as [He|[l ->]]; [|done].
  destruct e; cbv in He; try done; discriminate.
Qed.

Lemma ordered_at p t1 e t2 :
  ordered p (t1 ++ e :: t2) → step_ok (from_option Some p (last t1)) e.
Proof.
  revert p. induction t1 as [|x t1 IH]; intros p; simpl.
  - by intros [? _].
  - intros [_ H]. apply IH in H. rewrite last_cons. by destruct (last t1).
Qed.

Section More.
Context {Env : Type} (K : Collab Env).
Implicit Types s : BRD Env.
Implicit Types c : BC Env.

Lemma body_run_chooser_events c r c' :
  body_run K c r c' → extends (λ e, is_chooser_event e = true) c c'.
Proof.
  intros Hrun.
  assert (∀ c1 c2, extends (λ e, is_request_event e = true) c1 c2 →
                   extends (λ e, is_chooser_event e = true) c1 c2) as Hreq.
  { intros c1 c2. apply extends_mono. intros e He. unfold is_chooser_event.
    by rewrite He. }
  assert (∀ c1 c2, extends (λ e, is_worker_event e = true) c1 c2 →
                   extends (λ e, is_chooser_event e = true) c1 c2) as Hwork.
  { intros c1 c2. apply extends_mono. intros e He. unfold is_chooser_event.
    by rewrite He, orb_true_r. }
  assert (∀ r1 c1, _getNextUnclaimedBuildRequest K c = (r1, c1) →
            extends (λ e, is_chooser_event e = true) c (refill K c1)) as Hpick.
  { intros r1 c1 (_ & He & _)%getNextUnclaimedBuildRequest_spec.
    eapply extends_trans; [by apply Hreq|].
    apply extends_same_world. apply refill_frame. }
  assert (∀ b c1 w c2 r4 c4,
            _getNextUnclaimedBuildRequest K c = (Ok (Some b), c1) →
            popNextWorker_run K b (refill K c1) (Some w) c2 →
            find_usable_run K b (Some w) [] (removed b c2) r4 c4 →
            extends (λ e, is_chooser_event e = true) c c4) as Htried.
  { intros b c1 w c2 r4 c4 Hg Hpop Hfu.
    eapply extends_trans; [by eapply Hpick|].
    apply popNextWorker_frame in Hpop as (_ & _ & He2).
    eapply extends_trans; [by apply Hwork|].
    apply find_usable_run_frame in Hfu as (_ & _ & He4).
    eapply extends_trans; [|by apply Hwork]. by apply extends_same_world. }
  destruct Hrun as [e c1 Hg|c1 Hg|b c1 c2 Hg Hpop|b c1 w c2 w' rec c4 Hg Hpop Hfu
                    |b c1 w c2 rec c4 Hg Hpop Hfu|b c1 w c2 e c4 Hg Hpop Hfu].
  - by apply getNextUnclaimedBuildRequest_spec in Hg as (_ & ?%Hreq & _).
  - by apply getNextUnclaimedBuildRequest_spec in Hg as (_ & ?%Hreq & _).
  - eapply extends_trans; [by eapply Hpick|].
    by apply popNextWorker_frame in Hpop as (_ & _ & ?%Hwork).
  - eapply extends_trans; [by eapply Htried|].
    apply extends_same_world. apply unpopped_frame.
  - eapply extends_trans; [by eapply Htried|].
    apply extends_same_world. apply unpopped_frame.
  - by eapply Htried.
Qed.

Lemma popNextBuild_loop_events fuel c r c' :
  popNextBuild_loop K fuel c = (r, c') →
  extends (λ e, is_chooser_event e = true) c c'.
Proof.
  revert c. induction fuel as [|fuel IH]; intros c; simpl.
  - intros [= <- <-]. apply extends_refl.
  - intros H. minv H as x c1 Hb;
      apply popNextBuild_body_run, body_run_chooser_events in Hb; [|done..].
    destruct x as [x|].
    + by injection H as <- <-.
    + eapply extends_trans; [done|]. by apply IH.
Qed.

Lemma chooseNextBuild_events c r c' :
  chooseNextBuild K c = (r, c') →
  extends (λ e, is_chooser_event e = true) c c'.
Proof.
  unfold chooseNextBuild. intros H.
  minv H as x c1 Hp; apply popNextBuild_loop_events in Hp; [|done..].
  by destruct x as [[w|] [b|]]; injection H as <- <-.
Qed.

(** *** The calls of the dispatch, in order *)

Lemma dcall_inv {A} ev (f : Env → answer A * Env) s (r : result A) s' :
  Distributor.call ev f s = (r, s') →
  ∃ a e', f (env (world (bc s))) = (a, e')
    ∧ s' = logged ev e' s
    ∧ r = match a with Returns x => Ok x | Raises e => Raise e end.
Proof.
  unfold Distributor.call, with_bc, Chooser.call.
  destruct (f (env (world (bc s)))) as [a e'] eqn:Hf.
  destruct a; intros [= <- <-]; by eexists _, _.
Qed.

Lemma dcall_not_OutOfFuel {A} ev (f : Env → answer A * Env) s s' :
  Distributor.call ev f s ≠ (OutOfFuel, s').
Proof. intros (a & e' & _ & _ & Hr)%dcall_inv. by destruct a. Qed.

(** The new calls of a step, ordered whatever came before. *)
Definition adds_ordered s s' : Prop :=
  ∃ new, trace_of s' = trace_of s ++ new ∧ ∀ p, ordered p new.

Lemma adds_ordered_refl s s' : trace_of s' = trace_of s → adds_ordered s s'.
Proof. intros H. exists []. by rewrite H, app_nil_r. Qed.

Lemma adds_ordered_trans s1 s2 s3 :
  adds_ordered s1 s2 → adds_ordered s2 s3 → adds_ordered s1 s3.
Proof.
  intros (n1 & H1 & F1) (n2 & H2 & F2). exists (n1 ++ n2).
  rewrite H2, H1, app_assoc. split; [done|]. intros p. by apply ordered_app.
Qed.

Lemma claim_and_start_events worker breqs s r s' :
  length breqs = 1%nat →
  claim_and_start K worker breqs s = (r, s') →
  r ≠ OutOfFuel
  ∧ ∃ new, trace_of s' = trace_of s ++ new
      ∧ (∀ p, ordered p new)
      ∧ new `prefix_of` [EvClaim (id <$> breqs);
                         EvMaybeStartBuild worker (id <$> breqs);
                         EvUnclaim (id <$> breqs);
                         EvSignal (name s)].
Proof.
  intros Hlen. unfold claim_and_start.
  rewrite (bind_Ok _ _ _ _ _ (add_in_progress_brids_spec _ _)).
  set (s0 := set_in_progress _ s).
  assert (length (id <$> breqs) = 1%nat) as Hl by by rewrite length_fmap.
  intros H. minv H as claimed s1 Hc;
    apply dcall_inv in Hc as (a1 & e1 & Ha1 & -> & Hr1); [| |by destruct a1].
  2:{ split; [done|]. exists [EvClaim (id <$> breqs)].
      split_and!; [done| |by eexists]. intros p. by simpl. }
  destruct claimed; simpl in H.
  - minv H as started s2 Hs;
      apply dcall_inv in Hs as (a2 & e2 & Ha2 & -> & Hr2); [| |by destruct a2].
    2:{ split; [done|].
        exists [EvClaim (id <$> breqs); EvMaybeStartBuild worker (id <$> breqs)].
        split_and!; [|by intros p; simpl|by eexists].
        rewrite !trace_of_logged. by rewrite <- app_assoc. }
    destruct started; simpl in H.
    + injection H as <- <-. split; [done|].
      exists [EvClaim (id <$> breqs); EvMaybeStartBuild worker (id <$> breqs)].
      split_and!; [|by intros p; simpl|by eexists].
      rewrite !trace_of_logged. by rewrite <- app_assoc.
    + minv H as u s3 Hu;
        apply dcall_inv in Hu as (a3 & e3 & Ha3 & -> & Hr3); [| |by destruct a3].
      2:{ split; [done|].
          exists [EvClaim (id <$> breqs); EvMaybeStartBuild worker (id <$> breqs);
                  EvUnclaim (id <$> breqs)].
          split_and!; [|by intros p; simpl; eauto|by eexists].
          rewrite !trace_of_logged. by rewrite <- !app_assoc. }
      rewrite (bind_Ok _ _ _ _ _ (remove_in_progress_brids_spec _ _)) in H.
      unfold bind, get, Distributor.call, with_bc, Chooser.call, ret in H.
      simpl in H. injection H as <- <-. split; [done|].
      exists [EvClaim (id <$> breqs); EvMaybeStartBuild worker (id <$> breqs);
              EvUnclaim (id <$> breqs); EvSignal (name s)].
      split_and!; [|by intros p; simpl; eauto 10|done].
      unfold s0. repeat (unfold trace_of, logged; simpl).
      by rewrite <- !app_assoc.
  - unfold bind, createBuildChooser, modify, ret in H. injection H as <- <-.
    split; [done|]. exists [EvClaim (id <$> breqs)].
    split_and!; [done|by intros p; simpl|by eexists].
Qed.

Lemma chooseNextBuild_single c w l c' :
  chooseNextBuild K c = (Ok (Some w, Some l), c') → ∃ b, l = [b].
Proof.
  unfold chooseNextBuild. intros H. minv H as x c1 Hp.
  destruct x as [[w0|] [b|]]; try done. injection H as <- <- <-. by exists b.
Qed.

(** The buildset ids the store is asked about. *)
Definition waited_bsids (breqs : list BuildRequest) : list Z :=
  remove_dups (br_bsid <$> filter (λ br, br_waited_for br = true) breqs).

Lemma waited_childs_filter_inv breqs s r s' :
  waited_childs_filter K breqs s = (r, s') →
  match waited_bsids breqs with
  | [] => r = Ok None ∧ s' = s
  | _ :: _ =>
      ∃ a e1,
        data_get_buildsets K (waited_bsids breqs) (env (world (bc s))) = (a, e1)
        ∧ s' = logged (EvQueryBuildsets (waited_bsids breqs)) e1 s
        ∧ match a with
          | Returns parented =>
              r = Ok (match filter (λ br, br_bsid br ∈ parented) breqs with
                      | [] => None
                      | kept => Some kept
                      end)
          | Raises e => r = Raise e
          end
  end.
Proof.
  unfold waited_childs_filter. fold (waited_bsids breqs).
  destruct (waited_bsids breqs) as [|i l] eqn:Hb.
  - by intros [= <- <-].
  - intros H. minv H as parented s1 Hc;
      apply dcall_inv in Hc as (a & e1 & Ha & -> & Hr); [| |by destruct a].
    + destruct a as [x|]; [|done]. injection Hr as <-.
      exists (Returns parented), e1.
      destruct (filter _ breqs); injection H as <- <-; by split_and!.
    + destruct a as [|e']; [done|]. injection Hr as <-.
      by exists (Raises e), e1.
Qed.

(** One round of the dispatch, case by case. *)
Lemma dispatch_body_inv s r s' :
  dispatch_body K s = (r, s') →
  ∃ r0 c1, chooseNextBuild K (bc s) = (r0, c1) ∧
    ((∃ w b rf s2,
        r0 = Ok (Some w, Some [b])
        ∧ (if distribute_only_waited_childs s
           then waited_childs_filter K [b] (set_bc c1 s)
           else (Ok (Some [b]), set_bc c1 s)) = (rf, s2)
        ∧ match rf with
          | Ok (Some kept) => claim_and_start K w kept s2 = (r, s')
          | Ok None => r = Ok Continue ∧ s' = s2
          | Raise e => r = Raise e ∧ s' = s2
          | OutOfFuel => r = OutOfFuel ∧ s' = s2
          end)
     ∨ (s' = set_bc c1 s
        ∧ match r0 with
          | Ok (Some _, Some _) => False
          | Ok _ => r = Ok (Break tt)
          | Raise e => r = Raise e
          | OutOfFuel => r = OutOfFuel
          end)).
Proof.
  unfold dispatch_body. intros H.
  destruct (chooseNextBuild K (bc s)) as [r0 c1] eqn:Hch. exists r0, c1.
  split; [done|].
  unfold bind at 1, with_bc in H. rewrite Hch in H.
  destruct r0 as [[[w|] [l|]]|e|]; try (injection H as <- <-; by right).
  destruct (chooseNextBuild_single _ _ _ _ Hch) as [b ->].
  left. exists w, b. unfold bind at 1, get in H.
  destruct (distribute_only_waited_childs (set_bc c1 s)) eqn:Hd;
    simpl in Hd; rewrite Hd.
  - minv H as filtered s2 Hf.
    + exists (Ok filtered), s2. split_and!; [done..|].
      destruct filtered; [done|by injection H as <- <-].
    + by eexists _, _.
    + by eexists _, _.
  - exists (Ok (Some [b])), (set_bc c1 s). by split_and!.
Qed.

Lemma dispatch_body_events s r s' :
  dispatch_body K s = (r, s') → adds_ordered s s'.
Proof.
  intros (r0 & c1 & Hch & Hcases)%dispatch_body_inv.
  assert (adds_ordered s (set_bc c1 s)) as Hchooser.
  { apply chooseNextBuild_events in Hch as (new & Hnew & Hall).
    exists new. split; [done|]. apply ordered_free.
    eapply Forall_impl; [done|]. by left. }
  destruct Hcases as [(w & b & rf & s2 & -> & Hf & Hrest)|[-> _]]; [|done].
  eapply adds_ordered_trans; [done|].
  assert (adds_ordered (set_bc c1 s) s2
          ∧ ∀ kept, rf = Ok (Some kept) → length kept = 1%nat) as [Hfilter Hkept].
  { destruct (distribute_only_waited_childs s).
    - apply waited_childs_filter_inv in Hf.
      destruct (waited_bsids [b]) as [|i l].
      + destruct Hf as [-> ->]. split; [by apply adds_ordered_refl|done].
      + destruct Hf as (a & e1 & Ha & -> & Hr). split.
        * exists [EvQueryBuildsets (i :: l)]. split; [done|].
          apply ordered_free. constructor; [|done]. right. by eexists.
        * intros kept ->. destruct a as [parented|]; [|done].
          pose proof (length_filter (λ br, br_bsid br ∈ parented) [b]) as Hle.
          destruct (filter (λ br, br_bsid br ∈ parented) [b]) as [|x [|y rest]];
            simplify_eq; simpl in *; [done|lia].
    - injection Hf as <- <-. split; [by apply adds_ordered_refl|].
      by intros kept [= <-]. }
  eapply adds_ordered_trans; [done|].
  destruct rf as [[kept|]|e|].
  - apply claim_and_start_events in Hrest as (_ & new & Hnew & Hord & _);
      [|by apply Hkept].
    by exists new.
  - destruct Hrest as [_ ->]. by apply adds_ordered_refl.
  - destruct Hrest as [_ ->]. by apply adds_ordered_refl.
  - destruct Hrest as [_ ->]. by apply adds_ordered_refl.
Qed.

Lemma dispatch_loop_events fuel s r s' :
  dispatch_loop K fuel s = (r, s') → adds_ordered s s'.
Proof.
  revert s. induction fuel as [|fuel IH]; intros s; simpl.
  - intros [= <- <-]. by apply adds_ordered_refl.
  - intros H. minv H as x s1 Hb; apply dispatch_body_events in Hb; [|done..].
    destruct x as [x|].
    + by injection H as <- <-.
    + eapply adds_ordered_trans; [done|]. by apply IH.
Qed.

(** X10.  Whatever the collaborators answer and however long it runs, the
    dispatch for a builder asks the builder to start a build only directly
    after it has asked the store to claim the same request ids, reverses a
    claim only directly after the builder was asked to start those ids, and
    only ever claims a single request at a time. *)
Theorem starts_follow_claims fuel s r s' :
  _maybeStartBuildsOnBuilder K fuel s = (r, s') →
  ∃ new, trace_of s' = trace_of s ++ new
    ∧ (∀ t1 w brids t2,
         new = t1 ++ EvMaybeStartBuild w brids :: t2 →
         ∃ t0, t1 = t0 ++ [EvClaim brids])
    ∧ (∀ t1 brids t2,
         new = t1 ++ EvUnclaim brids :: t2 →
         ∃ t0 w, t1 = t0 ++ [EvMaybeStartBuild w brids])
    ∧ (∀ brids, EvClaim brids ∈ new → length brids = 1%nat).
Proof.
  unfold _maybeStartBuildsOnBuilder, bind, createBuildChooser, modify.
  intros (new & Hnew & Hord)%dispatch_loop_events. exists new.
  split; [done|]. specialize (Hord None). split_and!.
  - intros t1 w brids t2 ->. apply ordered_at in Hord. simpl in Hord.
    destruct (last t1) as [x|] eqn:Hlast; [|done]. simpl in Hord.
    injection Hord as ->. apply last_Some in Hlast as [t0 ->]. by exists t0.
  - intros t1 brids t2 ->. apply ordered_at in Hord. simpl in Hord.
    destruct Hord as [w Hw].
    destruct (last t1) as [x|] eqn:Hlast; [|done]. simpl in Hw.
    injection Hw as ->. apply last_Some in Hlast as [t0 ->]. by exists t0, w.
  - intros brids (t1 & t2 & ->)%list_elem_of_split.
    by apply ordered_at in Hord.
Qed.

(** *** Dispatch restricted to waited-for children *)

Lemma waited_bsids_single b :
  waited_bsids [b] = if br_waited_for b then [br_bsid b] else [].
Proof. unfold waited_bsids. by destruct b as [i bs [] p n]. Qed.

Lemma not_chooser_claim brids : is_chooser_event (EvClaim brids) = false.
Proof. done. Qed.

(** X11.  While [distribute_only_waited_childs] is set, a round of the
    dispatch claims a request only if the request is waited for and the
    store reports its buildset among those that have a parent build. *)
Theorem waited_only_claims_parented s r s' brids :
  distribute_only_waited_childs s = true →
  dispatch_body K s = (r, s') →
  EvClaim brids ∈ new_events s s' →
  ∃ w b c1 parented e1,
    chooseNextBuild K (bc s) = (Ok (Some w, Some [b]), c1)
    ∧ brids = [id b]
    ∧ br_waited_for b = true
    ∧ data_get_buildsets K [br_bsid b] (env (world c1)) = (Returns parented, e1)
    ∧ br_bsid b ∈ parented.
Proof.
  intros Hmode (r0 & c1 & Hch & Hcases)%dispatch_body_inv.
  pose proof (chooseNextBuild_events _ _ _ Hch) as (n1 & Hn1 & Hall1).
  assert (EvClaim brids ∉ n1) as Hno1.
  { intros Hin. rewrite Forall_forall in Hall1. by apply Hall1 in Hin. }
  assert (∀ new, EvClaim brids ∈ n1 ++ new → EvClaim brids ∈ new) as Hskip.
  { by intros new [Hin|Hin]%elem_of_app. }
  unfold new_events.
  destruct Hcases as [(w & b & rf & s2 & -> & Hf & Hrest)|[-> _]].
  2:{ simpl. by rewrite Hn1, drop_app_length. }
  rewrite Hmode in Hf. apply waited_childs_filter_inv in Hf.
  rewrite waited_bsids_single in Hf.
  destruct (br_waited_for b) eqn:Hw.
  2:{ destruct Hf as [-> ->]. destruct Hrest as [_ ->]. simpl.
      by rewrite Hn1, drop_app_length. }
  destruct Hf as (a & e1 & Ha & -> & Hr). simpl in Ha.
  assert (∀ s3, trace_of s3 = trace_of s ++ n1 ++ [EvQueryBuildsets [br_bsid b]] →
                EvClaim brids ∉ drop (length (trace (world (bc s))))
                                     (trace (world (bc s3)))) as Hnone.
  { intros s3 Hs3. fold (trace_of s3) (trace_of s). rewrite Hs3, drop_app_length.
    intros Hin%Hskip. by apply list_elem_of_singleton in Hin. }
  assert (trace_of (logged (EvQueryBuildsets [br_bsid b]) e1 (set_bc c1 s))
          = trace_of s ++ n1 ++ [EvQueryBuildsets [br_bsid b]]) as Hq.
  { rewrite trace_of_logged. unfold trace_of at 1. simpl. rewrite Hn1.
    by rewrite <- app_assoc. }
  destruct a as [parented|e]; subst rf.
  2:{ destruct Hrest as [_ ->]. intros Hin. by apply Hnone in Hin. }
  rewrite filter_cons, filter_nil in Hrest.
  destruct (decide (br_bsid b ∈ parented)) as [Hin|Hnin].
  2:{ destruct Hrest as [_ ->]. intros Hin. by apply Hnone in Hin. }
  apply claim_and_start_events in Hrest as (_ & new & Hnew & _ & Hpre); [|done].
  fold (trace_of s') (trace_of s). rewrite Hnew, Hq, <- !app_assoc, drop_app_length.
  intros Hclaim%Hskip. exists w, b, c1, parented, e1.
  split_and!; [done| |done..].
  apply elem_of_cons in Hclaim as [?|Hclaim]; [done|].
  eapply elem_of_prefix in Hclaim; [|done].
  apply elem_of_cons in Hclaim as [Heq|Hclaim]; [by injection Heq|].
  repeat (apply elem_of_cons in Hclaim as [?|Hclaim]; [done|]).
  by apply elem_of_nil in Hclaim.
Qed.

(** *** Errors of the builder *)

Lemma call_raises {A} ev (f : Env → answer A * Env) s e e' :
  f (env (world (bc s))) = (Raises e, e') →
  Distributor.call (A:=A) ev f s = (Raise e, logged ev e' s).
Proof.
  intros Hf. unfold Distributor.call, with_bc, Chooser.call. by rewrite Hf.
Qed.

(** X12.  When the claim was granted and the builder's [maybeStartBuild]
    raises, the error leaves the dispatch at once: the claim is not
    reversed (no unclaim is issued), the builder is not signalled again,
    and the request ids stay marked in progress. *)
Theorem start_error_leaves_claim worker breqs s e e1 e2 :
  claimBuildRequests K (id <$> breqs) (env (world (bc s))) = (Returns true, e1) →
  bldr_maybeStartBuild K worker breqs e1 = (Raises e, e2) →
  ∃ s', claim_and_start K worker breqs s = (Raise e, s')
    ∧ trace_of s' = trace_of s ++ [EvClaim (id <$> breqs);
                                    EvMaybeStartBuild worker (id <$> breqs)]
    ∧ in_progress s' = list_to_set (id <$> breqs) ∪ in_progress s.
Proof.
  intros Hc Hst. unfold claim_and_start.
  rewrite (bind_Ok _ _ _ _ _ (add_in_progress_brids_spec _ _)).
  erewrite bind_Ok; [|by apply call_returns]. simpl.
  unfold bind at 1. erewrite call_raises; [|done].
  eexists. split; [reflexivity|]. split; [|done].
  rewrite !trace_of_logged, trace_of_set_in_progress.
  by rewrite <- app_assoc.
Qed.

(** X25.  The request ids of a batch are marked in progress before the
    store is asked to claim them: when the store refuses the claim, or fails
    to answer, the ids are marked all the same.  A refused claim is followed
    by no other call (no start, no unclaim, no signal): the chooser is
    replaced by a fresh one and the loop goes on. *)
Theorem ids_marked_before_claim worker breqs s a e1 :
  claimBuildRequests K (id <$> breqs) (env (world (bc s))) = (a, e1) →
  a ≠ Returns true →
  ∃ r s', claim_and_start K worker breqs s = (r, s')
    ∧ in_progress s' = list_to_set (id <$> breqs) ∪ in_progress s
    ∧ trace_of s' = trace_of s ++ [EvClaim (id <$> breqs)]
    ∧ match a with
      | Returns _ =>
          r = Ok Continue
          ∧ bc s' = Chooser.init K
                      (mkWorld e1 (trace_of s ++ [EvClaim (id <$> breqs)]))
      | Raises e => r = Raise e
      end.
Proof.
  intros Hc Hne. unfold claim_and_start.
  rewrite (bind_Ok _ _ _ _ _ (add_in_progress_brids_spec _ _)).
  destruct a as [[]|e]; [done| |].
  - erewrite bind_Ok; [|by apply call_returns]. simpl.
    eexists _, _. split; [reflexivity|]. by split_and!.
  - unfold bind at 1. erewrite call_raises; [|done].
    eexists _, _. split; [reflexivity|]. by split_and!.
Qed.

(** *** The dispatch ends *)

(** The caches of the chooser are the same. *)
Definition same_caches s s' : Prop :=
  unclaimedBrdicts (bc s') = unclaimedBrdicts (bc s)
  ∧ breqCache (bc s') = breqCache (bc s).

Lemma same_caches_trans s1 s2 s3 :
  same_caches s1 s2 → same_caches s2 s3 → same_caches s1 s3.
Proof. intros [? ?] [? ?]. split; congruence. Qed.

Lemma same_caches_logged ev e' s : same_caches s (logged ev e' s).
Proof. done. Qed.

(** The store never refuses a claim. *)
Definition claims_granted : Prop :=
  ∀ brids e a e', claimBuildRequests K brids e = (a, e') → a ≠ Returns false.

Lemma claim_and_start_caches worker breqs s r s' :
  claims_granted →
  claim_and_start K worker breqs s = (r, s') →
  same_caches s s'.
Proof.
  intros Hgranted. unfold claim_and_start.
  rewrite (bind_Ok _ _ _ _ _ (add_in_progress_brids_spec _ _)).
  set (s0 := set_in_progress _ s).
  assert (same_caches s s0) as H0 by done.
  intros H. minv H as claimed s1 Hc;
    apply dcall_inv in Hc as (a1 & e1 & Ha1 & -> & Hr1); [| |by destruct a1].
  2:{ done. }
  destruct claimed; simpl in H.
  - minv H as started s2 Hs;
      apply dcall_inv in Hs as (a2 & e2 & Ha2 & -> & Hr2); [| |by destruct a2].
    2:{ done. }
    destruct started; simpl in H.
    + by injection H as <- <-.
    + minv H as u s3 Hu;
        apply dcall_inv in Hu as (a3 & e3 & Ha3 & -> & Hr3); [| |by destruct a3].
      2:{ done. }
      rewrite (bind_Ok _ _ _ _ _ (remove_in_progress_brids_spec _ _)) in H.
      unfold bind, get, Distributor.call, with_bc, Chooser.call, ret in H.
      simpl in H. by injection H as <- <-.
  - apply Hgranted in Ha1. destruct a1 as [[]|]; simplify_eq.
Qed.

Lemma loop_run_shrinks c r c' :
  fromBrdict_keeps_id K → memo_ok c → loop_run K c r c' →
  memo_ok c'
  ∧ ∀ w b, r = Ok (Some w, Some b) →
      is_Some (unclaimedBrdicts c')
      ∧ (length (cached c') < requests_left K c)%nat.
Proof.
  intros Hid Hok Hrun.
  induction Hrun as [c x c' Hb|c e c' Hb|c c1 r c' Hb Hrun IH].
  - pose proof (body_run_progress K _ _ _ Hid Hok Hb) as (Hok' & _ & _).
    split; [done|]. intros w b [= ->].
    inversion Hb as [| | |b' c1 w0 c2 w' rec c4 Hg Hpop Hfu| |]; subst.
    apply getNextUnclaimedBuildRequest_summary in Hg
      as (_ & _ & Hlen & _ & _ & Hsel); [|done..].
    destruct (Hsel b eq_refl) as [Hs1 Hin].
    destruct (refill_frame K c1) as (Hu1 & _ & _ & _).
    apply popNextWorker_frame in Hpop as (Hu2 & _ & _).
    apply find_usable_run_frame in Hfu as (Hu4 & _ & _).
    destruct (unpopped_frame rec c4) as (Hu5 & _ & _ & _).
    assert (unclaimedBrdicts c2 = unclaimedBrdicts c1) as Hu21 by congruence.
    assert (cached (unpopped rec c4) = forget (id b) (cached c1)) as Hc.
    { unfold cached. rewrite Hu5, Hu4. unfold removed. simpl. rewrite Hu21.
      by destruct Hs1 as [l ->]. }
    split.
    + rewrite Hu5, Hu4. unfold removed. simpl. rewrite Hu21.
      destruct Hs1 as [l ->]. by eexists.
    + rewrite Hc, <- Hlen. apply forget_length_in in Hin. lia.
  - by apply body_run_progress in Hb as (Hok' & _ & _).
  - apply body_run_progress in Hb as (Hok1 & _ & Hcont); [|done..].
    destruct (Hcont eq_refl) as (Hs1 & _ & Hlt).
    destruct (IH Hok1) as [Hok' Hshrink]. split; [done|].
    intros w b Hr. destruct (Hshrink w b Hr) as [Hs' Hlt'].
    split; [done|]. rewrite requests_left_cached in Hlt' by done. lia.
Qed.

Lemma dispatch_body_shrinks s r s' :
  fromBrdict_keeps_id K → claims_granted → memo_ok (bc s) →
  dispatch_body K s = (r, s') →
  r ≠ OutOfFuel
  ∧ (r = Ok Continue →
     memo_ok (bc s')
     ∧ (requests_left K (bc s') < requests_left K (bc s))%nat).
Proof.
  intros Hid Hgranted Hok (r0 & c1 & Hch & Hcases)%dispatch_body_inv.
  pose proof (chooseNextBuild_run K _ _ _ Hid Hok Hch) as Hrun.
  destruct Hcases as [(w & b & rf & s2 & -> & Hf & Hrest)|[-> Hr]].
  2:{ destruct Hrun as [(x & -> & _)|(e & -> & _)].
      - split; [by destruct (chosen x) as [[?|] [?|]]; subst|].
        intros ->. by destruct (chosen x) as [[?|] [?|]].
      - by subst. }
  destruct Hrun as [(x & Hx & Hrun)|(e & ? & _)]; [|done].
  assert (x = (Some w, Some b)) as ->.
  { destruct x as [[?|] [?|]]; simpl in Hx; by simplify_eq. }
  apply loop_run_shrinks in Hrun as [Hok1 Hshrink]; [|done..].
  destruct (Hshrink w b eq_refl) as [Hs1 Hlt].
  assert (rf ≠ OutOfFuel ∧ same_caches (set_bc c1 s) s2) as [Hrf Hsame2].
  { destruct (distribute_only_waited_childs s).
    - apply waited_childs_filter_inv in Hf.
      destruct (waited_bsids [b]) as [|i l].
      + by destruct Hf as [-> ->].
      + destruct Hf as (a & e1 & Ha & -> & Hr). by destruct a; subst.
    - by injection Hf as <- <-. }
  assert (same_caches (set_bc c1 s) s' → r = Ok Continue →
          memo_ok (bc s')
          ∧ (requests_left K (bc s') < requests_left K (bc s))%nat) as Hdone.
  { intros [Hu Hm] _. simpl in Hu, Hm. split.
    - unfold memo_ok. by rewrite Hm.
    - rewrite requests_left_cached by (by rewrite Hu).
      unfold cached. rewrite Hu. apply Hlt. }
  destruct rf as [[kept|]|e|]; [| | |done].
  - split.
    + destruct (decide (length kept = 1%nat)) as [Hk|Hk].
      * by apply claim_and_start_events in Hrest as [? _].
      * intros ->. revert Hrest. unfold claim_and_start.
        rewrite (bind_Ok _ _ _ _ _ (add_in_progress_brids_spec _ _)).
        intros H. minv H as claimed s3 Hc;
          [|by apply dcall_not_OutOfFuel in Hc].
        destruct claimed; simpl in H; [|done].
        minv H as started s4 Hs; [|by apply dcall_not_OutOfFuel in Hs].
        destruct started; simpl in H; [done|].
        minv H as u s5 Hu; [|by apply dcall_not_OutOfFuel in Hu].
        rewrite (bind_Ok _ _ _ _ _ (remove_in_progress_brids_spec _ _)) in H.
        unfold bind, get, Distributor.call, with_bc, Chooser.call, ret in H.
        simpl in H. done.
    + apply Hdone. eapply same_caches_trans; [done|].
      by eapply claim_and_start_caches.
  - destruct Hrest as [-> ->]. split; [done|]. by apply Hdone.
  - destruct Hrest as [-> ->]. by split.
Qed.

Lemma dispatch_loop_ends fuel s :
  fromBrdict_keeps_id K → claims_granted → memo_ok (bc s) →
  (requests_left K (bc s) < fuel)%nat →
  (dispatch_loop K fuel s).1 ≠ OutOfFuel.
Proof.
  intros Hid Hgranted. revert s.
  induction fuel as [|fuel IH]; intros s Hok Hlt; [lia|]. simpl.
  unfold bind. destruct (dispatch_body K s) as [rb s1] eqn:Hb.
  apply dispatch_body_shrinks in Hb as [Hne Hcont]; [|done..].
  destruct rb as [[x|]|e|]; try done.
  destruct (Hcont eq_refl) as [Hok1 Hlt1]. apply IH; [done|lia].
Qed.

(** X13.  If [BuildRequest.fromBrdict] keeps the request id and the store
    never refuses a claim, the dispatch for a builder ends: it makes at most
    one round per unclaimed request the fresh chooser finds, and one more. *)
Theorem dispatch_ends_when_claims_are_granted fuel s :
  fromBrdict_keeps_id K →
  claims_granted →
  (requests_left K (Chooser.init K (world (bc s))) < fuel)%nat →
  (_maybeStartBuildsOnBuilder K fuel s).1 ≠ OutOfFuel.
Proof.
  intros Hid Hgranted Hlt.
  unfold _maybeStartBuildsOnBuilder, bind, createBuildChooser, modify.
  apply dispatch_loop_ends; [done..| |done].
  apply ChooserExamples.memo_ok_init.
Qed.

(** *** Nothing to do *)

(** X23.  When the store lists no unclaimed request for the builder, the
    dispatch for the builder ends in its first round: it has asked the
    store once and made no other call (no policy is consulted, nothing is
    claimed), and the in-progress markers are as before. *)
Theorem nothing_unclaimed_nothing_done fuel s e1 :
  data_get_buildrequests K (env (world (bc s))) = (Returns [], e1) →
  ∃ s', _maybeStartBuildsOnBuilder K (S fuel) s = (Ok tt, s')
    ∧ trace_of s' = trace_of s ++ [EvFetch]
    ∧ in_progress s' = in_progress s
    ∧ unclaimedBrdicts (bc s') = Some [].
Proof.
  intros Hstore.
  set (c0 := Chooser.init K (world (bc s))).
  destruct (fetch_uncached K c0 eq_refl) as (a & e' & Ha & Hf).
  simpl in Ha. rewrite Hstore in Ha. injection Ha as <- <-. simpl in Hf.
  assert (popNextBuild_body K c0
          = (Ok (Break (None, None)),
             set_unclaimedBrdicts (Some [])
               (set_world (mkWorld e1 (trace (world c0) ++ [EvFetch])) c0)))
    as Hbody.
  { unfold popNextBuild_body, _getNextUnclaimedBuildRequest.
    by rewrite (bind_Ok _ _ _ _ _ (bind_Ok _ _ _ _ _ Hf)). }
  apply chooseNextBuild_first_round in Hbody.
  unfold _maybeStartBuildsOnBuilder, bind at 1, createBuildChooser, modify.
  simpl. unfold bind at 1, dispatch_body, bind at 1, with_bc. simpl.
  fold c0. rewrite Hbody. simpl. by eexists.
Qed.

End More.
End DispatchMore.

(** ** More on the dispatch, on concrete collaborators *)

Module DispatchMoreExamples.
Import Chooser Distributor ChooserFacts DistributorFacts DispatchMore Examples.
Import ChooserMoreExamples (K7).

(** X10 on the [simple] builder. *)
Lemma starts_follow_claims_witness :
  ∃ new,
    trace_of (_maybeStartBuildsOnBuilder K7 3 (distributor (simple true true))).2
    = trace_of (distributor (simple true true)) ++ new
    ∧ (∀ t1 w brids t2,
         new = t1 ++ EvMaybeStartBuild w brids :: t2 →
         ∃ t0, t1 = t0 ++ [EvClaim brids])
    ∧ (∀ t1 brids t2,
         new = t1 ++ EvUnclaim brids :: t2 →
         ∃ t0 w, t1 = t0 ++ [EvMaybeStartBuild w brids])
    ∧ (∀ brids, EvClaim brids ∈ new → length brids = 1%nat).
Proof.
  apply (starts_follow_claims K7 3 (distributor (simple true true))
           (_maybeStartBuildsOnBuilder K7 3 (distributor (simple true true))).1).
  vm_compute. reflexivity.
Defined.

(** One request that a build waits for, and one usable worker. *)
Definition waited : Setup :=
  {| stored := [mkBrdict 7 100 1 10 0 true None None None None None];
     workers := ["W1"];
     policy := head;
     usable := λ _, true;
     broken := [];
     pick := None;
     claim_ok := true;
     start_ok := true |}.

(** The distributor of the [waited] builder during a clean shutdown. *)
Definition shutting_down : BRD unit :=
  mkBRD None true ∅ (Chooser.init (collab waited) world0).

(** X11 on the [waited] builder: request 7 is claimed. *)
Lemma waited_only_claims_parented_witness :
  ∃ w b c1 parented e1,
    chooseNextBuild (collab waited) (bc shutting_down) = (Ok (Some w, Some [b]), c1)
    ∧ [7] = [id b]
    ∧ br_waited_for b = true
    ∧ data_get_buildsets (collab waited) [br_bsid b] (env (world c1))
      = (Returns parented, e1)
    ∧ br_bsid b ∈ parented.
Proof.
  apply (waited_only_claims_parented (collab waited) shutting_down
           (dispatch_body (collab waited) shutting_down).1
           (dispatch_body (collab waited) shutting_down).2 [7]).
  - reflexivity.
  - vm_compute. reflexivity.
  - vm_compute. apply list_elem_of_In. simpl. tauto.
Defined.

(** The builder of [simple] with a [maybeStartBuild] that raises. *)
Definition K_crash : Collab unit :=
  {| data_get_buildrequests := data_get_buildrequests K7;
     data_get_builder := data_get_builder K7;
     fromBrdict := fromBrdict K7;
     config_nextBuild := config_nextBuild K7;
     nextWorker := nextWorker K7;
     getAvailableWorkers := getAvailableWorkers K7;
     bldr_canStartBuild := bldr_canStartBuild K7;
     bldr_name := bldr_name K7;
     bldr_maybeStartBuild := λ _ _ e, (Raises "worker lost", e);
     claimBuildRequests := claimBuildRequests K7;
     unclaimBuildRequests := unclaimBuildRequests K7;
     data_get_buildsets := data_get_buildsets K7 |}.

(** X12 on the builder whose start raises. *)
Lemma start_error_leaves_claim_witness :
  ∃ s', claim_and_start K_crash "W1" [mkBreq 7 100 false 0 "builder"]
          (distributor (simple true true))
        = (Raise "worker lost", s')
    ∧ trace_of s'
      = trace_of (distributor (simple true true))
        ++ [EvClaim (id <$> [mkBreq 7 100 false 0 "builder"]);
            EvMaybeStartBuild "W1" (id <$> [mkBreq 7 100 false 0 "builder"])]
    ∧ in_progress s'
      = list_to_set (id <$> [mkBreq 7 100 false 0 "builder"])
        ∪ in_progress (distributor (simple true true)).
Proof.
  apply (start_error_leaves_claim K_crash "W1" [mkBreq 7 100 false 0 "builder"]
           (distributor (simple true true)) "worker lost" tt tt).
  - reflexivity.
  - reflexivity.
Defined.

(** X13 on the [simple] builder: one request, two rounds. *)
Lemma dispatch_ends_when_claims_are_granted_witness :
  (_maybeStartBuildsOnBuilder K7 2 (distributor (simple true true))).1 ≠ OutOfFuel.
Proof.
  apply (dispatch_ends_when_claims_are_granted K7 2 (distributor (simple true true))).
  - apply ChooserExamples.collab_keeps_id.
  - intros brids e a e' Ha. injection Ha as <- <-. discriminate.
  - vm_compute. lia.
Defined.

(** A builder without unclaimed requests. *)
Definition drained : Setup :=
  {| stored := [];
     workers := ["W1"];
     policy := head;
     usable := λ _, true;
     broken := [];
     pick := None;
     claim_ok := true;
     start_ok := true |}.

(** X23 on the [drained] builder. *)
Lemma nothing_unclaimed_nothing_done_witness :
  ∃ s', _maybeStartBuildsOnBuilder (collab drained) 1 (distributor drained)
        = (Ok tt, s')
    ∧ trace_of s' = trace_of (distributor drained) ++ [EvFetch]
    ∧ in_progress s' = in_progress (distributor drained)
    ∧ unclaimedBrdicts (bc s') = Some [].
Proof.
  apply (nothing_unclaimed_nothing_done (collab drained) 0 (distributor drained) tt).
  reflexivity.
Defined.

(** X25 on the [simple] builder with a store that refuses the claim of
    request 7. *)
Lemma ids_marked_before_claim_witness :
  ∃ r s', claim_and_start (collab (simple false true)) "W1"
            [mkBreq 7 100 false 0 "builder"] (distributor (simple false true))
          = (r, s')
    ∧ in_progress s'
      = list_to_set (id <$> [mkBreq 7 100 false 0 "builder"])
        ∪ in_progress (distributor (simple false true))
    ∧ trace_of s'
      = trace_of (distributor (simple false true))
        ++ [EvClaim (id <$> [mkBreq 7 100 false 0 "builder"])]
    ∧ (r = Ok Continue
       ∧ bc s' = Chooser.init (collab (simple false true))
                   (mkWorld tt
                      (trace_of (distributor (simple false true))
                       ++ [EvClaim (id <$> [mkBreq 7 100 false 0 "builder"])]))).
Proof.
  apply (ids_marked_before_claim (collab (simple false true)) "W1"
           [mkBreq 7 100 false 0 "builder"] (distributor (simple false true))
           (Returns false) tt).
  - reflexivity.
  - discriminate.
Defined.

End DispatchMoreExamples.

(** ** The signals and the activity loop *)

Module ServiceFacts.
Import Distributor Service SorterFacts PyListFacts.

Section Facts.
Context {X : Type}.
Variable builders_dict : gmap string Builder.
Variable prioritizeBuilders : option (list Builder → answer (list Builder)).
Implicit Types s : Svc X.

(** The botmaster keeps every builder under its name. *)
Definition keyed_by_name : Prop :=
  ∀ n b, builders_dict !! n = Some b → b_name b = n.

(** The configured sorter, if any, only reorders the builders (or
    raises). *)
Definition sorter_reorders : Prop :=
  ∀ f bs bs', prioritizeBuilders = Some f → f bs = Returns bs' → bs' ≡ₚ bs.

(** The names the botmaster has a builder for. *)
Definition known (names : list string) : list string :=
  filter (λ n, is_Some (builders_dict !! n)) names.

Lemma known_names names :
  keyed_by_name →
  b_name <$> omap (λ n, builders_dict !! n) names = known names.
Proof.
  intros Hkey. unfold known. induction names as [|n names IH]; [done|].
  rewrite filter_cons. csimpl.
  destruct (builders_dict !! n) as [b|] eqn:Hb.
  - rewrite decide_True by by eexists. csimpl. by rewrite IH, (Hkey _ _ Hb).
  - rewrite decide_False by by apply is_Some_None. done.
Qed.

Lemma sortBuilders_known names :
  keyed_by_name →
  sorter_reorders →
  _sortBuilders builders_dict prioritizeBuilders names ≡ₚ known names.
Proof.
  intros Hkey Hsort. unfold _sortBuilders.
  rewrite <- (known_names names Hkey).
  destruct prioritizeBuilders as [f|] eqn:Hp.
  - destruct (f _) as [bs'|e] eqn:Hf; [|done].
    apply fmap_Permutation. by eapply Hsort.
  - apply fmap_Permutation, _defaultSorter_perm.
Qed.

(** X14.  [_sortBuilders] never raises.  When the botmaster keeps every
    builder under its name and the configured sorter only reorders its
    input (or raises), the result is a rearrangement of those of the given
    names that the botmaster has a builder for: unknown names are dropped,
    no name is lost or added; and when the configured sorter raises, the
    known names come back in the order they were given. *)
Theorem sortBuilders_permutes names :
  keyed_by_name →
  sorter_reorders →
  _sortBuilders builders_dict prioritizeBuilders names ≡ₚ known names
  ∧ (∀ f e, prioritizeBuilders = Some f →
            f (omap (λ n, builders_dict !! n) names) = Raises e →
            _sortBuilders builders_dict prioritizeBuilders names = known names).
Proof.
  intros Hkey Hsort. split; [by apply sortBuilders_known|].
  unfold _sortBuilders. intros f e -> Hf. rewrite Hf. by apply known_names.
Qed.

Lemma maybeStartBuildsOn_pending new (p : Pending) :
  keyed_by_name → sorter_reorders →
  ¬ (list_to_set new : gset string) ⊂ list_to_set (_pending_builders p) →
  _pending_builders (_maybeStartBuildsOn builders_dict prioritizeBuilders new p)
  ≡ₚ known (elements (list_to_set (_pending_builders p) ∪ list_to_set new
                      : gset string)).
Proof.
  intros Hkey Hsort Hsub. unfold _maybeStartBuildsOn.
  rewrite bool_decide_false by done.
  destruct (active p); simpl; by apply sortBuilders_known.
Qed.

(** *** The default order *)

Lemma key_inj a b : key a = key b → a = b.
Proof.
  destruct a as [n1 p1 t1], b as [n2 p2 t2]. unfold key. simpl.
  intros [= Hp Ht ->].
  destruct p1, p2, t1, t2; simplify_eq; f_equal; f_equal; lia.
Qed.

Lemma key_le_antisymm a b : key_le a b → key_le b a → a = b.
Proof.
  unfold key_le. intros Hab Hba. apply key_inj.
  destruct (st_total (lt:=key_ltb) (key a) (key b)) as [H|[H|H]];
    [congruence|done|congruence].
Qed.

(** X22.  With the default sorter the result depends only on which
    builders (and which names) are given, not on the order they are given
    in: rearranging the input does not change the output. *)
Theorem default_order_ignores_input_order bs1 bs2 names1 names2 :
  bs1 ≡ₚ bs2 →
  names1 ≡ₚ names2 →
  _defaultSorter bs1 = _defaultSorter bs2
  ∧ _sortBuilders builders_dict None names1
    = _sortBuilders builders_dict None names2.
Proof.
  assert (∀ l1 l2, l1 ≡ₚ l2 → _defaultSorter l1 = _defaultSorter l2) as Hind.
  { intros l1 l2 Hperm.
    apply (StronglySorted_unique_strong key_le).
    - intros x1 x2 _ _. apply key_le_antisymm.
    - apply _defaultSorter_sorted.
    - apply _defaultSorter_sorted.
    - by rewrite !_defaultSorter_perm. }
  intros Hbs Hnames. split; [by apply Hind|].
  unfold _sortBuilders. f_equal. apply Hind. by rewrite Hnames.
Qed.

(** *** The activity loop *)

Variable dispatch : Builder → M (Svc X) unit.

(** A round's dispatch: the builder is looked up and dispatched; an
    exception is logged, not raised. *)
Definition dispatch_logged (bldr_name : string) : M (Svc X) unit :=
  match builders_dict !! bldr_name with
  | Some bldr => try_except (dispatch bldr) (λ _, ret tt)
  | None => ret tt
  end.

Lemma dispatch_logged_result bldr_name s :
  (dispatch_logged bldr_name s).1 = Ok tt
  ∨ (dispatch_logged bldr_name s).1 = OutOfFuel.
Proof.
  unfold dispatch_logged. destruct (builders_dict !! bldr_name) as [b|].
  - unfold try_except. destruct (dispatch b s) as [[[]|e|] s1]; auto.
  - by left.
Qed.

Lemma activity_rounds_S fuel l s :
  activity_rounds builders_dict dispatch (S fuel) l s
  = if negb (can_distribute s) then (Ok tt, s)
    else
      match l with
      | [] =>
          match _pending_builders (pending s) with
          | [] => (Ok tt, s)
          | bldr_name :: rest =>
              (do* dispatch_logged bldr_name in
               activity_rounds builders_dict dispatch fuel rest)
                (set_pending_builders [] s)
          end
      | bldr_name :: rest =>
          (do* dispatch_logged bldr_name in
           activity_rounds builders_dict dispatch fuel rest) s
      end.
Proof.
  simpl. unfold bind at 1, get. destruct (can_distribute s); simpl; [|done].
  destruct l as [|n rest]; [|done].
  by destruct (_pending_builders (pending s)).
Qed.

Local Arguments activity_rounds : simpl never.

(** When the loop stops, the service can not distribute or nothing is
    pending. *)
Definition at_rest s : Prop :=
  can_distribute s = false ∨ _pending_builders (pending s) = [].

Lemma activity_rounds_result fuel l s r s' :
  activity_rounds builders_dict dispatch fuel l s = (r, s') →
  r = OutOfFuel ∨ (r = Ok tt ∧ at_rest s').
Proof.
  revert l s. induction fuel as [|fuel IH]; intros l s.
  { intros [= <- <-]. by left. }
  rewrite activity_rounds_S.
  destruct (can_distribute s) eqn:Hcan; simpl.
  2:{ intros [= <- <-]. right. split; [done|]. by left. }
  assert (∀ n rest s0,
    (do* dispatch_logged n in activity_rounds builders_dict dispatch fuel rest) s0
    = (r, s') → r = OutOfFuel ∨ (r = Ok tt ∧ at_rest s')) as Hround.
  { intros n rest s0. unfold bind.
    destruct (dispatch_logged_result n s0) as [Hd|Hd];
      destruct (dispatch_logged n s0) as [rd s1]; simpl in Hd; subst rd.
    - apply IH.
    - intros [= <- <-]. by left. }
  destruct l as [|n rest]; [|by apply Hround].
  destruct (_pending_builders (pending s)) as [|n rest] eqn:Hp;
    [|by apply Hround].
  intros [= <- <-]. right. split; [done|]. by right.
Qed.

(** X16.  The activity loop never raises, whatever the dispatch of a
    builder does (an exception of a dispatch is logged and the loop goes on
    with the next builder).  When the loop is over, the activity flag is
    reset, and either the service can not distribute any more or no builder
    is pending. *)
Theorem activityLoop_never_raises fuel s r s' :
  _activityLoop builders_dict dispatch fuel s = (r, s') →
  r = OutOfFuel
  ∨ (r = Ok tt
     ∧ active (pending s') = false
     ∧ (can_distribute s' = false ∨ _pending_builders (pending s') = [])).
Proof.
  unfold _activityLoop, bind, modify.
  destruct (activity_rounds _ _ _ _ _) as [r1 s1] eqn:Hrounds.
  apply activity_rounds_result in Hrounds as [->|[-> Hrest]].
  - intros [= <- <-]. by left.
  - intros [= <- <-]. right. by split_and!.
Qed.

(** The dispatch of a builder returns or raises, and leaves the flags of
    the service and the pending builders alone (nothing is signalled and
    nothing is shut down while it runs). *)
Definition dispatch_is_local : Prop :=
  ∀ b s,
    (dispatch b s).1 ≠ OutOfFuel
    ∧ running (dispatch b s).2 = running s
    ∧ distribute_only_waited_childs (dispatch b s).2
      = distribute_only_waited_childs s
    ∧ pending (dispatch b s).2 = pending s.

Lemma dispatch_logged_local n s :
  dispatch_is_local →
  dispatch_logged n s
  = (Ok tt, match builders_dict !! n with
            | Some bldr => (dispatch bldr s).2
            | None => s
            end).
Proof.
  intros Hlocal. unfold dispatch_logged.
  destruct (builders_dict !! n) as [b|]; [|done].
  unfold try_except. destruct (Hlocal b s) as (Hne & _).
  by destruct (dispatch b s) as [[[]|e|] s1].
Qed.

Lemma activity_rounds_pass l s :
  dispatch_is_local →
  can_distribute s = true →
  _pending_builders (pending s) = [] →
  activity_rounds builders_dict dispatch (S (length l)) l s
  = (Ok tt, dispatch_each builders_dict dispatch l s).
Proof.
  intros Hlocal. revert s. induction l as [|n rest IH]; intros s Hcan Hp.
  - rewrite activity_rounds_S, Hcan, Hp. done.
  - change (length (n :: rest)) with (S (length rest)).
    rewrite activity_rounds_S, Hcan. simpl.
    unfold bind. rewrite dispatch_logged_local by done.
    destruct (builders_dict !! n) as [b|]; [|by apply IH].
    destruct (Hlocal b s) as (_ & Hr & Hd & Hpend).
    apply IH.
    + unfold can_distribute in *. by rewrite Hr, Hd.
    + by rewrite Hpend.
Qed.

(** X17.  When the service can distribute and the dispatch of a builder
    neither signals builders nor shuts the service down, the activity loop
    makes exactly one pass: it empties the pending list, dispatches for the
    known builders among the pending names once each, in the order of the
    list (a name without a builder is skipped, a dispatch that raises does
    not keep the later builders from being dispatched), and resets the
    activity flag. *)
Theorem activityLoop_one_pass s :
  dispatch_is_local →
  can_distribute s = true →
  _activityLoop builders_dict dispatch
    (S (length (_pending_builders (pending s)))) s
  = (Ok tt,
     set_active false
       (dispatch_each builders_dict dispatch (_pending_builders (pending s))
          (set_pending_builders [] (set_active true s)))).
Proof.
  intros Hlocal Hcan. unfold _activityLoop, bind, modify.
  destruct (_pending_builders (pending s)) as [|n rest] eqn:Hp.
  - rewrite activity_rounds_S.
    assert (can_distribute (set_active true s) = true) as -> by done.
    simpl. rewrite Hp. simpl. do 2 f_equal.
    destruct s as [r d [l a ls so] o]. simpl in Hp. by subst l.
  - rewrite activity_rounds_S.
    assert (can_distribute (set_active true s) = true) as -> by done.
    simpl. rewrite Hp. unfold bind. rewrite dispatch_logged_local by done.
    set (s2 := set_pending_builders [] (set_active true s)).
    assert (can_distribute s2 = true ∧ _pending_builders (pending s2) = [])
      as [Hcan2 Hp2] by done.
    destruct (builders_dict !! n) as [b|].
    + destruct (Hlocal b s2) as (_ & Hr & Hd & Hpend).
      rewrite activity_rounds_pass; [done|done| |].
      * unfold can_distribute in *. by rewrite Hr, Hd.
      * by rewrite Hpend.
    + by rewrite activity_rounds_pass.
Qed.

(** *** A signal, with the loop it starts *)

Lemma activityLoop_pass s l :
  dispatch_is_local →
  can_distribute s = true →
  _pending_builders (pending s) = l →
  _activityLoop builders_dict dispatch (S (length l)) s
  = (Ok tt,
     set_active false
       (dispatch_each builders_dict dispatch l
          (set_pending_builders [] (set_active true s)))).
Proof.
  intros Hlocal Hcan Hp. unfold _activityLoop, bind, modify.
  destruct l as [|n rest].
  - rewrite activity_rounds_S.
    assert (can_distribute (set_active true s) = true) as -> by done.
    simpl. rewrite Hp. simpl. do 2 f_equal.
    destruct s as [r d [l a ls so] o]. simpl in Hp. by subst l.
  - rewrite activity_rounds_S.
    assert (can_distribute (set_active true s) = true) as -> by done.
    simpl. rewrite Hp. unfold bind. rewrite dispatch_logged_local by done.
    set (s2 := set_pending_builders [] (set_active true s)).
    assert (can_distribute s2 = true ∧ _pending_builders (pending s2) = [])
      as [Hcan2 Hp2] by done.
    destruct (builders_dict !! n) as [b|].
    + destruct (Hlocal b s2) as (_ & Hr & Hd & Hpend).
      rewrite activity_rounds_pass; [done|done| |].
      * unfold can_distribute in *. by rewrite Hr, Hd.
      * by rewrite Hpend.
    + by rewrite activity_rounds_pass.
Qed.

(** The pending list [_maybeStartBuildsOn] sets: the sorted names of the
    pending and the signalled builders. *)
Definition merged (new : list string) s : list string :=
  _sortBuilders builders_dict prioritizeBuilders
    (elements (list_to_set (_pending_builders (pending s)) ∪ list_to_set new
               : gset string)).

(** The service when [_maybeStartBuildsOn] has set the pending list and
    started the activity loop. *)
Definition signalled (new : list string) s : Svc X :=
  set_pending
    (mkPending (merged new s) true (S (loops_started (pending s)))
       (S (sorts (pending s)))) s.

(** X15.  A signal is ignored while the service can not distribute, and
    changes nothing when the signalled builders are a proper subset of the
    pending ones.  Otherwise, when no activity loop is active (the
    botmaster keeping every builder under its name, the sorter only
    reordering, the dispatch of a builder neither signalling nor shutting
    down), the signal starts the loop, and the loop dispatches for the
    pending and the signalled builders that the botmaster knows, once each,
    in the order the sorter gave them; when the loop is over the pending
    list is empty and the activity flag reset. *)
Theorem signalled_builders_are_dispatched new s :
  keyed_by_name →
  sorter_reorders →
  dispatch_is_local →
  (can_distribute s = false →
   ∀ fuel,
     maybeStartBuildsOn builders_dict prioritizeBuilders dispatch fuel new s
     = (Ok tt, s))
  ∧ (can_distribute s = true →
     (list_to_set new : gset string)
       ⊂ list_to_set (_pending_builders (pending s)) →
     ∀ fuel,
       maybeStartBuildsOn builders_dict prioritizeBuilders dispatch fuel new s
       = (Ok tt, s))
  ∧ (can_distribute s = true →
     active (pending s) = false →
     ¬ (list_to_set new : gset string)
         ⊂ list_to_set (_pending_builders (pending s)) →
     merged new s
       ≡ₚ known (elements (list_to_set (_pending_builders (pending s))
                           ∪ list_to_set new : gset string))
     ∧ NoDup (merged new s)
     ∧ (∀ n, n ∈ new → is_Some (builders_dict !! n) → n ∈ merged new s)
     ∧ maybeStartBuildsOn builders_dict prioritizeBuilders dispatch
         (S (length (merged new s))) new s
       = (Ok tt,
          set_active false
            (dispatch_each builders_dict dispatch (merged new s)
               (set_pending_builders [] (signalled new s))))).
Proof.
  intros Hkey Hsort Hlocal. split_and!.
  - intros Hcan fuel. unfold maybeStartBuildsOn. by rewrite Hcan.
  - intros Hcan Hsub fuel. unfold maybeStartBuildsOn. rewrite Hcan. simpl.
    assert (_maybeStartBuildsOn builders_dict prioritizeBuilders new (pending s)
            = pending s) as ->.
    { unfold _maybeStartBuildsOn. by rewrite bool_decide_true. }
    rewrite Nat.eqb_refl. by destruct s.
  - intros Hcan Hidle Hsub.
    assert (merged new s
            ≡ₚ known (elements (list_to_set (_pending_builders (pending s))
                                ∪ list_to_set new : gset string))) as Hperm.
    { by apply sortBuilders_known. }
    split_and!.
    + done.
    + rewrite Hperm. apply NoDup_filter, NoDup_elements.
    + intros n Hn Hk. rewrite Hperm. apply list_elem_of_filter.
      split; [done|]. apply elem_of_elements. set_solver.
    + unfold maybeStartBuildsOn. rewrite Hcan. simpl.
      assert (_maybeStartBuildsOn builders_dict prioritizeBuilders new (pending s)
              = mkPending (merged new s) true (S (loops_started (pending s)))
                  (S (sorts (pending s)))) as ->.
      { unfold _maybeStartBuildsOn. rewrite bool_decide_false by done.
        by rewrite Hidle. }
      match goal with |- context [(?a =? ?b)%nat] =>
        replace (a =? b)%nat with false
          by (symmetry; apply Nat.eqb_neq; simpl; lia) end.
      fold (signalled new s).
      by rewrite (activityLoop_pass (signalled new s) (merged new s)).
Qed.

End Facts.
End ServiceFacts.

(** ** The signals and the activity loop on concrete builders *)

Module ServiceExamples.
Import Distributor Service ServiceFacts DistributorFacts.

Lemma two_builders_keyed : keyed_by_name two_builders.
Proof.
  intros n b H. unfold two_builders in H.
  apply lookup_insert_Some in H as [[<- <-]|[_ H]]; [done|].
  by apply lookup_singleton_Some in H as [<- <-].
Qed.

Lemma default_sorter_reorders : sorter_reorders None.
Proof. by intros f bs bs' [=]. Qed.

(** A [prioritizeBuilders] function that raises. *)
Definition failing_sorter : option (list Builder → answer (list Builder)) :=
  Some (λ _, Raises "bad sorter").

Lemma failing_sorter_reorders : sorter_reorders failing_sorter.
Proof. intros f bs bs' [= <-]. discriminate. Qed.

(** X14 on the builders "a" and "b", with a name that has no builder and a
    sorter that raises. *)
Lemma sortBuilders_permutes_witness :
  _sortBuilders two_builders failing_sorter ["b"; "zz"; "a"]
  ≡ₚ known two_builders ["b"; "zz"; "a"]
  ∧ (∀ (f : list Builder → answer (list Builder)) e,
       failing_sorter = Some f →
       f (omap (λ n, two_builders !! n) ["b"; "zz"; "a"]) = Raises e →
       _sortBuilders two_builders failing_sorter ["b"; "zz"; "a"]
       = known two_builders ["b"; "zz"; "a"]).
Proof.
  apply (sortBuilders_permutes two_builders failing_sorter ["b"; "zz"; "a"]).
  - apply two_builders_keyed.
  - apply failing_sorter_reorders.
Defined.

(** A running service with nothing pending. *)
Definition quiet {X} (x : X) : Svc X := mkSvc true false (mkPending [] false 0 0) x.

(** A dispatch that records the builder's name, and raises for "a". *)
Definition noting : Builder → M (Svc (list string)) unit := λ bldr s,
  (if String.eqb (b_name bldr) "a" then Raise "boom" else Ok tt,
   mkSvc (running s) (distribute_only_waited_childs s) (pending s)
         (outside s ++ [b_name bldr])).

(** A running service with "a", an unknown name and "b" pending. *)
Definition busy : Svc (list string) :=
  mkSvc true false (mkPending ["a"; "zz"; "b"] true 1 1) [].

(** X16 on the [busy] service. *)
Lemma activityLoop_never_raises_witness :
  (_activityLoop two_builders noting 4 busy).1 = OutOfFuel
  ∨ ((_activityLoop two_builders noting 4 busy).1 = Ok tt
     ∧ active (pending (_activityLoop two_builders noting 4 busy).2) = false
     ∧ (can_distribute (_activityLoop two_builders noting 4 busy).2 = false
        ∨ _pending_builders (pending (_activityLoop two_builders noting 4 busy).2)
          = [])).
Proof.
  apply (activityLoop_never_raises two_builders noting 4 busy).
  reflexivity.
Defined.

Lemma noting_is_local : dispatch_is_local noting.
Proof.
  intros b s. unfold noting. simpl.
  by destruct (String.eqb (b_name b) "a").
Qed.

(** X17 on the [busy] service: "a" (whose dispatch raises) and "b" are
    dispatched, in this order. *)
Lemma activityLoop_one_pass_witness :
  _activityLoop two_builders noting
    (S (length (_pending_builders (pending busy)))) busy
  = (Ok tt,
     set_active false
       (dispatch_each two_builders noting (_pending_builders (pending busy))
          (set_pending_builders [] (set_active true busy)))).
Proof.
  apply (activityLoop_one_pass two_builders noting busy).
  - apply noting_is_local.
  - reflexivity.
Defined.

(** X22 on the builders "a" and "b", given in either order. *)
Lemma default_order_ignores_input_order_witness :
  _defaultSorter [mkBuilder "a" (Some 1) (Some 10); mkBuilder "b" (Some 1) (Some 20)]
  = _defaultSorter [mkBuilder "b" (Some 1) (Some 20); mkBuilder "a" (Some 1) (Some 10)]
  ∧ _sortBuilders two_builders None ["a"; "b"]
    = _sortBuilders two_builders None ["b"; "a"].
Proof.
  apply (default_order_ignores_input_order two_builders
           [mkBuilder "a" (Some 1) (Some 10); mkBuilder "b" (Some 1) (Some 20)]
           [mkBuilder "b" (Some 1) (Some 20); mkBuilder "a" (Some 1) (Some 10)]
           ["a"; "b"] ["b"; "a"]).
  - apply Permutation_swap.
  - apply Permutation_swap.
Defined.

(** A running service, with no activity loop, that records the dispatched
    builders. *)
Definition idle_service : Svc (list string) := quiet [].

(** X15 on a signal for "b", an unknown name and "a" to the idle service:
    "a" and then "b" are dispatched. *)
Lemma signalled_builders_are_dispatched_witness :
  (can_distribute idle_service = false →
   ∀ fuel,
     maybeStartBuildsOn two_builders None noting fuel ["b"; "zz"; "a"] idle_service
     = (Ok tt, idle_service))
  ∧ (can_distribute idle_service = true →
     (list_to_set ["b"; "zz"; "a"] : gset string)
       ⊂ list_to_set (_pending_builders (pending idle_service)) →
     ∀ fuel,
       maybeStartBuildsOn two_builders None noting fuel ["b"; "zz"; "a"] idle_service
       = (Ok tt, idle_service))
  ∧ (can_distribute idle_service = true →
     active (pending idle_service) = false →
     ¬ (list_to_set ["b"; "zz"; "a"] : gset string)
         ⊂ list_to_set (_pending_builders (pending idle_service)) →
     merged two_builders None ["b"; "zz"; "a"] idle_service
       ≡ₚ known two_builders
            (elements (list_to_set (_pending_builders (pending idle_service))
                       ∪ list_to_set ["b"; "zz"; "a"] : gset string))
     ∧ NoDup (merged two_builders None ["b"; "zz"; "a"] idle_service)
     ∧ (∀ n, n ∈ ["b"; "zz"; "a"] → is_Some (two_builders !! n) →
             n ∈ merged two_builders None ["b"; "zz"; "a"] idle_service)
     ∧ maybeStartBuildsOn two_builders None noting
         (S (length (merged two_builders None ["b"; "zz"; "a"] idle_service)))
         ["b"; "zz"; "a"] idle_service
       = (Ok tt,
          set_active false
            (dispatch_each two_builders noting
               (merged two_builders None ["b"; "zz"; "a"] idle_service)
               (set_pending_builders []
                  (signalled two_builders None ["b"; "zz"; "a"] idle_service))))).
Proof.
  apply (signalled_builders_are_dispatched two_builders None noting
           ["b"; "zz"; "a"] idle_service).
  - apply two_builders_keyed.
  - apply default_sorter_reorders.
  - apply noting_is_local.
Defined.

End ServiceExamples.

(** ** The wait registry over the life of the scheduler *)

Module TriggerableMore.
Import Triggerable TriggerableFacts TriggerableStop.

(** The Deferreds of a list of waiters. *)
Definition deferreds_of (ws : list (Z * (nat * list Z))) : list nat :=
  (λ w, w.2.1) <$> ws.

Lemma errback_each_ok ws s :
  NoDup (deferreds_of ws) →
  (∀ d, d ∈ deferreds_of ws → deferreds s !! d = None) →
  ∃ s', errback_each ws s = (Ok tt, s')
    ∧ _waiters s' = _waiters s
    ∧ _buildset_complete_consumer s' = _buildset_complete_consumer s
    ∧ (∀ d, d ∈ deferreds_of ws → deferreds s' !! d = Some (Errback stopped_msg))
    ∧ (∀ d, d ∉ deferreds_of ws → deferreds s' !! d = deferreds s !! d).
Proof.
  revert s. induction ws as [|[b [d l]] ws IH]; intros s Hnd Hfree.
  - exists s. split_and!; try done. by intros d ?%elem_of_nil.
  - simpl in *. apply NoDup_cons in Hnd as [Hd Hnd].
    unfold bind, fire. rewrite (Hfree d) by by left.
    set (s1 := mkSched _ _ _ _ _).
    destruct (IH s1 Hnd) as (s' & Hrun & Hw & Hc & Hin & Hout).
    { intros d' Hd'. simpl. rewrite lookup_insert_ne; [apply Hfree; by right|].
      by intros ->. }
    exists s'. split_and!; [done..| |].
    + intros d' [->|Hd']%elem_of_cons; [|by apply Hin].
      rewrite (Hout d Hd). simpl. by rewrite lookup_insert_eq.
    + intros d' Hd'. apply not_elem_of_cons in Hd' as [Hne Hd'].
      rewrite (Hout d' Hd'). simpl. by rewrite lookup_insert_ne.
Qed.

Lemma wf_waiters_distinct s order :
  wf s → order ≡ₚ map_to_list (_waiters s) → NoDup (deferreds_of order).
Proof.
  intros (_ & _ & _ & Hinj) Hperm. unfold deferreds_of. rewrite Hperm.
  apply NoDup_fmap_2_strong; [|apply NoDup_map_to_list].
  intros [b1 [d1 l1]] [b2 [d2 l2]] H1%elem_of_map_to_list H2%elem_of_map_to_list.
  simpl. intros ->. assert (b1 = b2) as -> by by eapply Hinj. congruence.
Qed.

(** X18.  Stopping a scheduler (in any state that triggers, completion
    events and runs of [_updateWaiters] lead to) raises nothing; it fails
    the result Deferred of every waiter still registered with the
    "stopped before build was complete" error, leaves every Deferred that
    was already called as it was, empties the registry and drops the
    subscription, so that a completion event that comes later changes
    nothing. *)
Theorem stopService_fails_waiters s order :
  reachable s →
  order ≡ₚ map_to_list (_waiters s) →
  ∃ s', stopService_in order s = (Ok tt, s')
    ∧ _waiters s' = ∅
    ∧ _buildset_complete_consumer s' = false
    ∧ (∀ b d brids, _waiters s !! b = Some (d, brids) →
                    deferreds s' !! d = Some (Errback stopped_msg))
    ∧ (∀ d o, deferreds s !! d = Some o → deferreds s' !! d = Some o)
    ∧ (∀ msg, _buildset_complete_cb msg s' = (Ok tt, s')).
Proof.
  intros Hwf%reachable_wf Hperm.
  pose proof (wf_waiters_distinct s order Hwf Hperm) as Hnd.
  destruct Hwf as (Hpend & _).
  assert (∀ b d brids, _waiters s !! b = Some (d, brids) ↔
                       (b, (d, brids)) ∈ order) as Hmem.
  { intros b d brids. by rewrite Hperm, elem_of_map_to_list. }
  unfold stopService_in, bind, modify, get.
  set (s1 := _updateWaiters_stop s).
  set (s2 := if _buildset_complete_consumer s1 then set_consumer false s1 else s1).
  assert (_waiters s2 = _waiters s ∧ deferreds s2 = deferreds s
          ∧ _buildset_complete_consumer s2 = false) as (Hw2 & Hd2 & Hc2).
  { unfold s2, s1, _updateWaiters_stop.
    destruct (update_scheduled s); simpl;
      repeat (match goal with |- context [if ?b then _ else _] =>
                destruct b eqn:? end; simpl); done. }
  assert (∀ s', _waiters s' = ∅ →
                ∀ msg, _buildset_complete_cb msg s' = (Ok tt, s')) as Hlate.
  { intros s' Hs' msg. unfold _buildset_complete_cb.
    by rewrite Hs', lookup_empty. }
  case_bool_decide as Hempty.
  - exists s2. split_and!; [done|done|done| |by rewrite Hd2|by apply Hlate].
    intros b d brids Hb. rewrite <- Hw2, Hempty in Hb.
    by rewrite lookup_empty in Hb.
  - destruct (errback_each_ok order s2 Hnd) as (s3 & Hrun & Hw3 & Hc3 & Hin & Hout).
    { intros d ((b & d' & l) & -> & Hd)%list_elem_of_fmap. simpl.
      rewrite Hd2. apply Hmem in Hd. by eapply Hpend. }
    rewrite Hrun. eexists. split; [reflexivity|].
    split_and!; [done|by simpl; rewrite Hc3| | |by apply Hlate].
    + intros b d brids Hb. simpl. apply Hin. apply Hmem in Hb.
      apply list_elem_of_fmap. by exists (b, (d, brids)).
    + intros d o Hdo. simpl. rewrite Hout; [by rewrite Hd2|].
      intros ((b & d' & l) & -> & Hd)%list_elem_of_fmap. simpl in Hdo.
      apply Hmem in Hd. apply Hpend in Hd. congruence.
Qed.

(** X19.  In every state that triggers, completion events and runs of
    [_updateWaiters] lead to, once the debounced [_updateWaiters] has run
    (no run is outstanding), the scheduler is subscribed to buildset
    completions exactly when a waiter is registered. *)
Theorem subscribed_while_waiting s :
  reachable s →
  update_scheduled s = false →
  (_buildset_complete_consumer s = true ↔ _waiters s ≠ ∅).
Proof.
  induction 1 as [|s ids Hr IH|s msg s' Hr IH Hcb|s Hr IH].
  - simpl. intros _. split; done.
  - destruct ids as [b l]. simpl. done.
  - unfold _buildset_complete_cb in Hcb.
    destruct (_waiters s !! bsid msg) as [[d l]|]; [|by injection Hcb as <-].
    unfold fire in Hcb. simpl in Hcb.
    destruct (deferreds s !! d); [done|]. injection Hcb as <-. done.
  - intros _. unfold _updateWaiters. simpl.
    case_bool_decide as Hw; simpl.
    + rewrite Hw. destruct (_buildset_complete_consumer s); simpl; split; done.
    + destruct (_buildset_complete_consumer s); simpl; split; done.
Qed.

(** X20.  In every such state, [trigger] registers its waiter with a
    Deferred of its own: one that has not been called and that no waiter
    registered before holds, so that a completion of another buildset never
    reaches it. *)
Theorem trigger_allocates_fresh_deferred s b brids :
  reachable s →
  let d := (trigger (b, brids) s).1 in
  let s' := (trigger (b, brids) s).2 in
  _waiters s' !! b = Some (d, brids)
  ∧ deferreds s' !! d = None
  ∧ (∀ b' d' l, _waiters s !! b' = Some (d', l) → d' ≠ d)
  ∧ (∀ b' d' l, b' ≠ b → _waiters s' !! b' = Some (d', l) → d' ≠ d).
Proof.
  intros (Hpend & Hlt & Hd & _)%reachable_wf. simpl.
  assert (∀ b' d' l, _waiters s !! b' = Some (d', l) → d' ≠ next_deferred s)
    as Hold.
  { intros b' d' l Hb ->. apply Hlt in Hb. lia. }
  split_and!.
  - by rewrite lookup_insert_eq.
  - destruct (deferreds s !! next_deferred s) eqn:E; [|done].
    apply Hd in E. lia.
  - done.
  - intros b' d' l Hne. rewrite lookup_insert_ne by done. apply Hold.
Qed.

End TriggerableMore.

(** ** The wait registry on a concrete registration *)

Module TriggerableMoreExamples.
Import Triggerable TriggerableFacts TriggerableStop TriggerableMore.

(** A wait on buildset 100 for the requests 7 and 8. *)
Definition waiting : Sched := (trigger (100, [7; 8]) init).2.

Lemma waiting_reachable : reachable waiting.
Proof. apply reach_trigger, reach_init. Qed.

(** X18 on the scheduler with one waiter. *)
Lemma stopService_fails_waiters_witness :
  ∃ s', stopService waiting = (Ok tt, s')
    ∧ _waiters s' = ∅
    ∧ _buildset_complete_consumer s' = false
    ∧ (∀ b d brids, _waiters waiting !! b = Some (d, brids) →
                    deferreds s' !! d = Some (Errback stopped_msg))
    ∧ (∀ d o, deferreds waiting !! d = Some o → deferreds s' !! d = Some o)
    ∧ (∀ msg, _buildset_complete_cb msg s' = (Ok tt, s')).
Proof.
  apply (stopService_fails_waiters waiting (map_to_list (_waiters waiting))).
  - apply waiting_reachable.
  - reflexivity.
Defined.

(** X19 on the scheduler with one waiter, after [_updateWaiters] ran. *)
Lemma subscribed_while_waiting_witness :
  _buildset_complete_consumer (_updateWaiters waiting) = true
  ↔ _waiters (_updateWaiters waiting) ≠ ∅.
Proof.
  apply (subscribed_while_waiting (_updateWaiters waiting)).
  - apply reach_update, waiting_reachable.
  - reflexivity.
Defined.

(** X20 on a second trigger, for buildset 101. *)
Lemma trigger_allocates_fresh_deferred_witness :
  _waiters (trigger (101, [9]) waiting).2 !! 101
  = Some ((trigger (101, [9]) waiting).1, [9])
  ∧ deferreds (trigger (101, [9]) waiting).2 !! (trigger (101, [9]) waiting).1 = None
  ∧ (∀ b' d' l, _waiters waiting !! b' = Some (d', l) →
                d' ≠ (trigger (101, [9]) waiting).1)
  ∧ (∀ b' d' l, b' ≠ 101 →
                _waiters (trigger (101, [9]) waiting).2 !! b' = Some (d', l) →
                d' ≠ (trigger (101, [9]) waiting).1).
Proof.
  apply (trigger_allocates_fresh_deferred waiting 101 [9]).
  apply waiting_reachable.
Defined.

End TriggerableMoreExamples.
